(** * Doge Astronaut: the game-logic hook and its utilities

    A shallow embedding of the simulation and economy core of the game:
    [GameUtils.ts] (configuration, speed model, collision test, particles),
    the [useGameLogic] hook (currency exchange, power shop, jump, lives,
    collection, the per-frame loop, the collision pass, the keyboard
    handler and the effect run at mount), the two figures that [App.tsx]
    computes for the heads-up display, and the sizing of the canvas in
    [useResponsiveCanvas.ts].

    Conventions of the embedding.

    - Pixel quantities (positions, velocities, sizes, speeds, the world
      offset and the spawn cursor) are JavaScript numbers used with
      fractional values; they are modelled by exact rationals [Q], so the
      rounding of IEEE doubles is abstracted away.
    - Counters that the code persists as decimal strings (currency
      balances, records, remaining uses) are modelled by [JSNumber]: an
      integer or [NaN], the two outcomes of [parseInt].
    - A React callback reads the values captured by its closure (the
      render snapshot, written [c] below) and enqueues updates; a plain
      [setX(v)] replaces the pending value, a functional [setX(prev => ..)]
      transforms it.  Each callback is therefore a function of the
      snapshot [c] and of the pending state [s]; an event handled on its
      own runs with [s = c].
    - [localStorage] is a finite map from keys to strings, [Date.now()] is
      an argument [now] in milliseconds, [Math.random()] reads an oracle
      [random] at the position counted by the state, and [setTimeout]
      appends a deadline to the list of pending timers.
    - Logging, the star field, sprites and the animation-frame handle are
      presentation only and are left out; so are the display strings
      (name, description, icon) of a power. *)

From Stdlib Require Import ZArith QArith Qminmax Qround Lia Ascii String.
From Stdlib Require Import Reals Qreals Lra Lqa.
From stdpp Require Import base strings gmap list pretty.

Open Scope Z_scope.

(* ================================================================= *)
(** ** JavaScript numbers and strings *)

(** The result of [parseInt], and every counter derived from one. *)
Inductive JSNumber : Type :=
| NaN
| Num (z : Z).

Definition jsAdd (a b : JSNumber) : JSNumber :=
  match a, b with
  | Num x, Num y => Num (x + y)
  | _, _ => NaN
  end.

Definition jsSub (a b : JSNumber) : JSNumber :=
  match a, b with
  | Num x, Num y => Num (x - y)
  | _, _ => NaN
  end.

Definition jsMul (a b : JSNumber) : JSNumber :=
  match a, b with
  | Num x, Num y => Num (x * y)
  | _, _ => NaN
  end.

(** Comparisons with [NaN] are false. *)
Definition jsLt (a b : JSNumber) : bool :=
  match a, b with
  | Num x, Num y => x <? y
  | _, _ => false
  end.

Definition jsGt (a b : JSNumber) : bool := jsLt b a.

Definition jsLe (a b : JSNumber) : bool :=
  match a, b with
  | Num x, Num y => x <=? y
  | _, _ => false
  end.

(** [Math.max(a, b)]: [NaN] as soon as one argument is. *)
Definition Math_max (a b : JSNumber) : JSNumber :=
  match a, b with
  | Num x, Num y => Num (Z.max x y)
  | _, _ => NaN
  end.

(** [Math.floor(a / d)] for an integer [a] and a positive constant [d]. *)
Definition Math_floor_div (a : JSNumber) (d : Z) : JSNumber :=
  match a with
  | Num x => Num (x / d)
  | NaN => NaN
  end.

(** Truthiness of a number: [0] and [NaN] are falsy. *)
Definition truthy (a : JSNumber) : bool :=
  match a with
  | Num x => negb (x =? 0)
  | NaN => false
  end.

(** [n.toString()]. *)
Definition toString (a : JSNumber) : string :=
  match a with
  | Num x => pretty x
  | NaN => "NaN"
  end.

(** *** [parseInt] with no radix argument *)

(** White space and line terminators of the ASCII range. *)
Definition isWhiteSpace (ch : ascii) : bool :=
  let n := N_of_ascii ch in
  ((9 <=? n) && (n <=? 13) || (n =? 32))%N.

Fixpoint trimStart (s : string) : string :=
  match s with
  | String ch rest => if isWhiteSpace ch then trimStart rest else s
  | EmptyString => s
  end.

(** Value of a character as a digit in some radix up to 36. *)
Definition digitValue (ch : ascii) : option Z :=
  let n := Z.of_N (N_of_ascii ch) in
  if (48 <=? n) && (n <=? 57) then Some (n - 48)
  else if (97 <=? n) && (n <=? 122) then Some (n - 87)
  else if (65 <=? n) && (n <=? 90) then Some (n - 55)
  else None.

(** The longest prefix of [s] made of digits of radix [R]. *)
Fixpoint leadingDigits (R : Z) (s : string) : list Z :=
  match s with
  | String ch rest =>
      match digitValue ch with
      | Some d => if d <? R then d :: leadingDigits R rest else []
      | None => []
      end
  | EmptyString => []
  end.

Definition mathInt (R : Z) (ds : list Z) : Z :=
  foldl (fun acc d => acc * R + d) 0 ds.

(** A leading sign is removed and remembered. *)
Definition stripSign (str : string) : Z * string :=
  match str with
  | String "-"%char rest => (-1, rest)
  | String "+"%char rest => (1, rest)
  | _ => (1, str)
  end.

(** A leading [0x] or [0X] selects radix 16 and is removed. *)
Definition stripPrefix (str : string) : Z * string :=
  match str with
  | String "0"%char (String "x"%char rest) => (16, rest)
  | String "0"%char (String "X"%char rest) => (16, rest)
  | _ => (10, str)
  end.

Definition parseInt (input : string) : JSNumber :=
  let '(sign, str) := stripSign (trimStart input) in
  let '(R, str) := stripPrefix str in
  match leadingDigits R str with
  | [] => NaN
  | ds => Num (sign * mathInt R ds)
  end.

(** [v || d] on a value read from the store: [null] and the empty string
    are falsy. *)
Definition orElse (v : option string) (d : string) : string :=
  match v with
  | None => d
  | Some EmptyString => d
  | Some s => s
  end.

(** [a || d] on an optional number: [undefined], [0] and [NaN] are falsy. *)
Definition numOr (a : option JSNumber) (d : Z) : JSNumber :=
  match a with
  | Some n => if truthy n then n else Num d
  | None => Num d
  end.

(** The strings that [toString] produces for integers: an optional minus
    sign followed by at least one decimal digit. *)
Definition isDecimalDigit (ch : ascii) : bool :=
  let n := N_of_ascii ch in ((48 <=? n) && (n <=? 57))%N.

Fixpoint allDecimalDigits (s : string) : bool :=
  match s with
  | String ch rest => isDecimalDigit ch && allDecimalDigits rest
  | EmptyString => true
  end.

Definition wellFormedNumber (s : string) : bool :=
  match s with
  | String "-"%char (String ch rest) => allDecimalDigits (String ch rest)
  | String ch rest => allDecimalDigits (String ch rest)
  | EmptyString => false
  end.

(** After the optional leading white space and sign, is the next character
    a decimal digit? *)
Definition beginsWithDigit (s : string) : bool :=
  match trimStart s with
  | String "-"%char (String ch _) => isDecimalDigit ch
  | String "+"%char (String ch _) => isDecimalDigit ch
  | String ch _ => isDecimalDigit ch
  | EmptyString => false
  end.

(** Reading a persisted counter: [parseInt(localStorage.getItem(key) || '0')]. *)
Definition readStored (localStorage : gmap string string) (key : string)
  : JSNumber :=
  parseInt (orElse (localStorage !! key) "0").

(* ================================================================= *)
(** ** Game types (GameTypes.ts) *)

Record Position : Type := { pos_x : Q; pos_y : Q }.

Record Velocity : Type := { vel_x : Q; vel_y : Q }.

(** The shape shared by every physical object of the game. *)
Record GameObject : Type := {
  position : Position;
  velocity : Velocity;
  width : Q;
  height : Q;
  active : bool;
}.

Record Player : Type := {
  playerObject :> GameObject;
  isJumping : bool;
  isGrounded : bool;
  jumpCount : Z;
  maxJumps : Z;
}.

Inductive ObstacleType : Type := meteorite | rock | flag.

Record Obstacle : Type := {
  obstacleObject :> GameObject;
  obstacleType : ObstacleType;
  rotation : Q;
  rotationSpeed : Q;
}.

(** The only collectible type is ['coin'] (a bone). *)
Record Collectible : Type := {
  collectibleObject :> GameObject;
  collected : bool;
  animation : Q;
  value : Z;
  magnetized : bool;
}.

Record Particle : Type := {
  particlePosition : Position;
  particleVelocity : Velocity;
  life : Z;
  maxLife : Z;
  color : string;
  size : Q;
}.

Record GameState : Type := {
  isPlaying : bool;
  score : Z;
  coins : Z;
  highScore : JSNumber;
  highCoins : JSNumber;
  gameOverFlag : bool;
  level : Z;
}.

Record PowerUp : Type := {
  id : string;
  cost : Z;
  owned : bool;
  powerActive : bool;
  duration : option Z;
  usesRemaining : option JSNumber;
  maxUses : option Z;
}.

Record ShopState : Type := {
  isOpen : bool;
  availablePowers : list PowerUp;
}.

(* ================================================================= *)
(** ** Configuration and utilities (GameUtils.ts) *)

Module GAME_CONFIG.
Definition CANVAS_WIDTH : Q := 800.
Definition CANVAS_HEIGHT : Q := 600.
Definition GRAVITY : Q := 0.5.
Definition JUMP_FORCE : Q := -11.
Definition GROUND_Y : Q := 500.
Definition BASE_SCROLL_SPEED : Q := 4.
Definition MAX_SCROLL_SPEED : Q := 16.
Definition SPEED_INCREASE_RATE : Q := 0.003.
Definition COIN_VALUE : Z := 10.
End GAME_CONFIG.

Definition getGameSpeed (score : Q) : Q :=
  let speedIncrease := (score * GAME_CONFIG.SPEED_INCREASE_RATE)%Q in
  Qmin (GAME_CONFIG.BASE_SCROLL_SPEED + speedIncrease)
       GAME_CONFIG.MAX_SCROLL_SPEED.

Definition Qlt_bool (a b : Q) : bool := negb (Qle_bool b a).

(** Axis-aligned bounding boxes overlap; all four comparisons are strict. *)
Definition checkCollision (obj1 obj2 : GameObject) : bool :=
  Qlt_bool (pos_x (position obj1)) (pos_x (position obj2) + width obj2)
  && Qlt_bool (pos_x (position obj2)) (pos_x (position obj1) + width obj1)
  && Qlt_bool (pos_y (position obj1)) (pos_y (position obj2) + height obj2)
  && Qlt_bool (pos_y (position obj2)) (pos_y (position obj1) + height obj1).

Definition isOffScreen (obj : GameObject) : bool :=
  Qlt_bool (pos_x (position obj) + width obj) (-100).

Definition getCoinColor : string := "#fbbf24".

(** [array[i]] for a computed index; [None] stands for [undefined]. *)
Definition arrayGet {A : Type} (l : list A) (i : Z) : option A :=
  if i <? 0 then None else l !! Z.to_nat i.

(** [Array.from({ length: n }, f)] where [f] draws random numbers: the
    counter of draws is threaded through the calls. *)
Fixpoint arrayFrom {A : Type} (n : nat) (f : nat -> A * nat) (k : nat)
  : list A * nat :=
  match n with
  | O => ([], k)
  | S n' =>
      let '(x, k) := f k in
      let '(xs, k) := arrayFrom n' f k in
      (x :: xs, k)
  end.

Definition stepParticle (particle : Particle) : Particle :=
  {| particlePosition :=
       {| pos_x := pos_x (particlePosition particle)
                   + vel_x (particleVelocity particle);
          pos_y := pos_y (particlePosition particle)
                   + vel_y (particleVelocity particle) |};
     particleVelocity :=
       {| vel_x := vel_x (particleVelocity particle) * 0.98;
          vel_y := vel_y (particleVelocity particle) * 0.98 |};
     life := life particle - 1;
     maxLife := maxLife particle;
     color := color particle;
     size := size particle |}.

Definition updateParticles (particles : list Particle) : list Particle :=
  List.filter (fun particle => 0 <? life particle)
              (List.map stepParticle particles).

Section RandomUtilities.

(** The sequence of values returned by successive [Math.random()] calls. *)
Variable random : nat -> Q.

Definition Math_random (k : nat) : Q * nat := (random k, S k).

Definition createParticle (position : Position) (color : string) (k : nat)
  : Particle * nat :=
  let '(rx, k) := Math_random k in
  let '(ry, k) := Math_random k in
  let '(rs, k) := Math_random k in
  ({| particlePosition := position;
      particleVelocity := {| vel_x := (rx - 0.5) * 8;
                             vel_y := (ry - 0.5) * 8 |};
      life := 30;
      maxLife := 30;
      color := color;
      size := rs * 4 + 2 |}, k).

Definition getRandomColor (k : nat) : string * nat :=
  let colors := ["#fbbf24"; "#f97316"; "#ef4444"; "#8b5cf6"; "#06b6d4"] in
  let '(r, k) := Math_random k in
  (default "undefined"
     (arrayGet colors (Qfloor (r * inject_Z (Z.of_nat (length colors))))), k).

End RandomUtilities.

(* ================================================================= *)
(** ** The state held by the hook *)

Record State : Type := {
  gameState : GameState;
  totalCoinsCollected : JSNumber;
  dogevisions : JSNumber;
  lives : Z;
  maxLives : Z;
  isInvulnerable : bool;
  shopState : ShopState;
  activePowers : gmap string Z;
  player : Player;
  obstacles : list Obstacle;
  collectibles : list Collectible;
  particles : list Particle;
  worldOffset : Q;
  nextObstacleX : Q;
  currentSpeed : Q;
  (** the persistence store *)
  localStorage : gmap string string;
  (** deadlines of the pending invulnerability timers *)
  timers : list Z;
  (** number of [Math.random()] calls made so far *)
  randomCalls : nat;
}.

Definition setGameState (v : GameState) (s : State) : State :=
  Build_State v (totalCoinsCollected s) (dogevisions s) (lives s)
    (maxLives s) (isInvulnerable s) (shopState s) (activePowers s)
    (player s) (obstacles s) (collectibles s) (particles s)
    (worldOffset s) (nextObstacleX s) (currentSpeed s) (localStorage s)
    (timers s) (randomCalls s).

Definition setTotalCoinsCollected (v : JSNumber) (s : State) : State :=
  Build_State (gameState s) v (dogevisions s) (lives s) (maxLives s)
    (isInvulnerable s) (shopState s) (activePowers s) (player s)
    (obstacles s) (collectibles s) (particles s) (worldOffset s)
    (nextObstacleX s) (currentSpeed s) (localStorage s) (timers s)
    (randomCalls s).

Definition setDogevisions (v : JSNumber) (s : State) : State :=
  Build_State (gameState s) (totalCoinsCollected s) v (lives s)
    (maxLives s) (isInvulnerable s) (shopState s) (activePowers s)
    (player s) (obstacles s) (collectibles s) (particles s)
    (worldOffset s) (nextObstacleX s) (currentSpeed s) (localStorage s)
    (timers s) (randomCalls s).

Definition setLives (v : Z) (s : State) : State :=
  Build_State (gameState s) (totalCoinsCollected s) (dogevisions s) v
    (maxLives s) (isInvulnerable s) (shopState s) (activePowers s)
    (player s) (obstacles s) (collectibles s) (particles s)
    (worldOffset s) (nextObstacleX s) (currentSpeed s) (localStorage s)
    (timers s) (randomCalls s).

Definition setMaxLives (v : Z) (s : State) : State :=
  Build_State (gameState s) (totalCoinsCollected s) (dogevisions s)
    (lives s) v (isInvulnerable s) (shopState s) (activePowers s)
    (player s) (obstacles s) (collectibles s) (particles s)
    (worldOffset s) (nextObstacleX s) (currentSpeed s) (localStorage s)
    (timers s) (randomCalls s).

Definition setIsInvulnerable (v : bool) (s : State) : State :=
  Build_State (gameState s) (totalCoinsCollected s) (dogevisions s)
    (lives s) (maxLives s) v (shopState s) (activePowers s) (player s)
    (obstacles s) (collectibles s) (particles s) (worldOffset s)
    (nextObstacleX s) (currentSpeed s) (localStorage s) (timers s)
    (randomCalls s).

Definition setShopState (v : ShopState) (s : State) : State :=
  Build_State (gameState s) (totalCoinsCollected s) (dogevisions s)
    (lives s) (maxLives s) (isInvulnerable s) v (activePowers s)
    (player s) (obstacles s) (collectibles s) (particles s)
    (worldOffset s) (nextObstacleX s) (currentSpeed s) (localStorage s)
    (timers s) (randomCalls s).

Definition setActivePowers (v : gmap string Z) (s : State) : State :=
  Build_State (gameState s) (totalCoinsCollected s) (dogevisions s)
    (lives s) (maxLives s) (isInvulnerable s) (shopState s) v (player s)
    (obstacles s) (collectibles s) (particles s) (worldOffset s)
    (nextObstacleX s) (currentSpeed s) (localStorage s) (timers s)
    (randomCalls s).

Definition setPlayer (v : Player) (s : State) : State :=
  Build_State (gameState s) (totalCoinsCollected s) (dogevisions s)
    (lives s) (maxLives s) (isInvulnerable s) (shopState s)
    (activePowers s) v (obstacles s) (collectibles s) (particles s)
    (worldOffset s) (nextObstacleX s) (currentSpeed s) (localStorage s)
    (timers s) (randomCalls s).

Definition setObstacles (v : list Obstacle) (s : State) : State :=
  Build_State (gameState s) (totalCoinsCollected s) (dogevisions s)
    (lives s) (maxLives s) (isInvulnerable s) (shopState s)
    (activePowers s) (player s) v (collectibles s) (particles s)
    (worldOffset s) (nextObstacleX s) (currentSpeed s) (localStorage s)
    (timers s) (randomCalls s).

Definition setCollectibles (v : list Collectible) (s : State) : State :=
  Build_State (gameState s) (totalCoinsCollected s) (dogevisions s)
    (lives s) (maxLives s) (isInvulnerable s) (shopState s)
    (activePowers s) (player s) (obstacles s) v (particles s)
    (worldOffset s) (nextObstacleX s) (currentSpeed s) (localStorage s)
    (timers s) (randomCalls s).

Definition setParticles (v : list Particle) (s : State) : State :=
  Build_State (gameState s) (totalCoinsCollected s) (dogevisions s)
    (lives s) (maxLives s) (isInvulnerable s) (shopState s)
    (activePowers s) (player s) (obstacles s) (collectibles s) v
    (worldOffset s) (nextObstacleX s) (currentSpeed s) (localStorage s)
    (timers s) (randomCalls s).

Definition setWorldOffset (v : Q) (s : State) : State :=
  Build_State (gameState s) (totalCoinsCollected s) (dogevisions s)
    (lives s) (maxLives s) (isInvulnerable s) (shopState s)
    (activePowers s) (player s) (obstacles s) (collectibles s)
    (particles s) v (nextObstacleX s) (currentSpeed s) (localStorage s)
    (timers s) (randomCalls s).

Definition setNextObstacleX (v : Q) (s : State) : State :=
  Build_State (gameState s) (totalCoinsCollected s) (dogevisions s)
    (lives s) (maxLives s) (isInvulnerable s) (shopState s)
    (activePowers s) (player s) (obstacles s) (collectibles s)
    (particles s) (worldOffset s) v (currentSpeed s) (localStorage s)
    (timers s) (randomCalls s).

Definition setCurrentSpeed (v : Q) (s : State) : State :=
  Build_State (gameState s) (totalCoinsCollected s) (dogevisions s)
    (lives s) (maxLives s) (isInvulnerable s) (shopState s)
    (activePowers s) (player s) (obstacles s) (collectibles s)
    (particles s) (worldOffset s) (nextObstacleX s) v (localStorage s)
    (timers s) (randomCalls s).

Definition setLocalStorage (v : gmap string string) (s : State) : State :=
  Build_State (gameState s) (totalCoinsCollected s) (dogevisions s)
    (lives s) (maxLives s) (isInvulnerable s) (shopState s)
    (activePowers s) (player s) (obstacles s) (collectibles s)
    (particles s) (worldOffset s) (nextObstacleX s) (currentSpeed s) v
    (timers s) (randomCalls s).

Definition setTimers (v : list Z) (s : State) : State :=
  Build_State (gameState s) (totalCoinsCollected s) (dogevisions s)
    (lives s) (maxLives s) (isInvulnerable s) (shopState s)
    (activePowers s) (player s) (obstacles s) (collectibles s)
    (particles s) (worldOffset s) (nextObstacleX s) (currentSpeed s)
    (localStorage s) v (randomCalls s).

Definition setRandomCalls (v : nat) (s : State) : State :=
  Build_State (gameState s) (totalCoinsCollected s) (dogevisions s)
    (lives s) (maxLives s) (isInvulnerable s) (shopState s)
    (activePowers s) (player s) (obstacles s) (collectibles s)
    (particles s) (worldOffset s) (nextObstacleX s) (currentSpeed s)
    (localStorage s) (timers s) v.

Definition localStorage_setItem (key val : string) (s : State) : State :=
  setLocalStorage (<[key := val]> (localStorage s)) s.

(** [setTimeout(() => setIsInvulnerable(false), delay)] called at [now]. *)
Definition setTimeout (now delay : Z) (s : State) : State :=
  setTimers (timers s ++ [now + delay]) s.

(** Runs a computation that draws random numbers against the state. *)
Definition withRandom {A : Type} (f : nat -> A * nat) (s : State)
  : A * State :=
  let '(x, k) := f (randomCalls s) in (x, setRandomCalls k s).

(** *** Spread updates of the records *)

Definition withPosition (p : Position) (obj : GameObject) : GameObject :=
  {| position := p; velocity := velocity obj; width := width obj;
     height := height obj; active := active obj |}.

Definition withVelocity (v : Velocity) (obj : GameObject) : GameObject :=
  {| position := position obj; velocity := v; width := width obj;
     height := height obj; active := active obj |}.

Definition withActive (a : bool) (obj : GameObject) : GameObject :=
  {| position := position obj; velocity := velocity obj; width := width obj;
     height := height obj; active := a |}.

(** [{ ...obj.position, x: obj.position.x - dx }] *)
Definition scrolledBy (dx : Q) (obj : GameObject) : GameObject :=
  withPosition {| pos_x := pos_x (position obj) - dx;
                  pos_y := pos_y (position obj) |} obj.

Definition withIsOpen (b : bool) (shop : ShopState) : ShopState :=
  {| isOpen := b; availablePowers := availablePowers shop |}.

Definition mapPowers (f : PowerUp -> PowerUp) (shop : ShopState) : ShopState :=
  {| isOpen := isOpen shop;
     availablePowers := List.map f (availablePowers shop) |}.

Definition withPowerActive (b : bool) (p : PowerUp) : PowerUp :=
  {| id := id p; cost := cost p; owned := owned p; powerActive := b;
     duration := duration p; usesRemaining := usesRemaining p;
     maxUses := maxUses p |}.

(** [p.id === powerId ? { ...p, owned: true, usesRemaining: n } : p] *)
Definition purchased (powerId : string) (n : JSNumber) (p : PowerUp) : PowerUp :=
  if String.eqb (id p) powerId then
    {| id := id p; cost := cost p; owned := true;
       powerActive := powerActive p; duration := duration p;
       usesRemaining := Some n; maxUses := maxUses p |}
  else p.

(** [p.id === powerId ? { ...p, usesRemaining: n, active: true } : p] *)
Definition activated (powerId : string) (n : JSNumber) (p : PowerUp) : PowerUp :=
  if String.eqb (id p) powerId then
    {| id := id p; cost := cost p; owned := owned p;
       powerActive := true; duration := duration p;
       usesRemaining := Some n; maxUses := maxUses p |}
  else p.

(** [{ ...c, collected: true, active: false }] *)
Definition markCollected (coin : Collectible) : Collectible :=
  {| collectibleObject := withActive false coin; collected := true;
     animation := animation coin; value := value coin;
     magnetized := magnetized coin |}.

(** [shopState.availablePowers.find(p => p.id === powerId)] *)
Definition findPower (powerId : string) (powers : list PowerUp)
  : option PowerUp :=
  List.find (fun p => String.eqb (id p) powerId) powers.

(** [activePowers[key] && activePowers[key] > Date.now()] *)
Definition isPowerActive (key : string) (now : Z) (active : gmap string Z)
  : bool :=
  match active !! key with
  | Some expiry => negb (expiry =? 0) && (now <? expiry)
  | None => false
  end.

(** Persists the remaining uses of a power under the key of its kind. *)
Definition saveUses (powerId : string) (n : JSNumber) (s : State) : State :=
  if String.eqb powerId "double_collector" then
    localStorage_setItem "dogeDoubleCollectorUses" (toString n) s
  else if String.eqb powerId "magnetic_collector" then
    localStorage_setItem "dogeMagneticCollectorUses" (toString n) s
  else if String.eqb powerId "three_lives" then
    localStorage_setItem "dogeThreeLivesUses" (toString n) s
  else s.

(** *** Initial state of the hook *)

Definition initialPowers (store : gmap string string) : list PowerUp :=
  [ {| id := "double_collector"; cost := 25; owned := false;
       powerActive := false; duration := Some 30;
       usesRemaining := Some (readStored store "dogeDoubleCollectorUses");
       maxUses := Some 2 |};
    {| id := "magnetic_collector"; cost := 50; owned := false;
       powerActive := false; duration := Some 999;
       usesRemaining := Some (readStored store "dogeMagneticCollectorUses");
       maxUses := Some 2 |};
    {| id := "three_lives"; cost := 100; owned := false;
       powerActive := false; duration := Some 999;
       usesRemaining := Some (readStored store "dogeThreeLivesUses");
       maxUses := Some 2 |} ].

Definition initialPlayer : Player :=
  {| playerObject :=
       {| position := {| pos_x := 100;
                         pos_y := GAME_CONFIG.GROUND_Y - 60 |};
          velocity := {| vel_x := 0; vel_y := 0 |};
          width := 60; height := 70; active := true |};
     isJumping := false; isGrounded := true; jumpCount := 0; maxJumps := 1 |}.

Definition initialState (store : gmap string string) : State :=
  {| gameState :=
       {| isPlaying := false; score := 0; coins := 0;
          highScore := readStored store "dogeHighScore";
          highCoins := readStored store "dogeHighCoins";
          gameOverFlag := false; level := 1 |};
     totalCoinsCollected := readStored store "dogeTotalCoins";
     dogevisions := readStored store "dogeDogevisions";
     lives := 1; maxLives := 1; isInvulnerable := false;
     shopState := {| isOpen := false;
                     availablePowers := initialPowers store |};
     activePowers := ∅;
     player := initialPlayer;
     obstacles := []; collectibles := []; particles := [];
     worldOffset := 0;
     nextObstacleX := GAME_CONFIG.CANVAS_WIDTH + 100;
     currentSpeed := GAME_CONFIG.BASE_SCROLL_SPEED;
     localStorage := store;
     timers := [];
     randomCalls := 0 |}.

(* ================================================================= *)
(** ** The operations of the hook (useGameLogic) *)

Definition openShop (s : State) : State :=
  setShopState (withIsOpen true (shopState s)) s.

Definition closeShop (s : State) : State :=
  setShopState (withIsOpen false (shopState s)) s.

(** *** Currency exchange *)

Record ExchangeResult : Type := {
  success : bool;
  dogevisionsAdded : JSNumber;
  osSpent : JSNumber;
}.

Definition exchangeForDogevision (c s : State) : ExchangeResult * State :=
  let EXCHANGE_RATE := 1000 in
  let maxExchangeable :=
    Math_floor_div (totalCoinsCollected c) EXCHANGE_RATE in
  if jsGt maxExchangeable (Num 0) then
    let osToSpend := jsMul maxExchangeable (Num EXCHANGE_RATE) in
    let dogevisionsToAdd := jsMul maxExchangeable (Num 100) in
    let newTotalCoins := jsSub (totalCoinsCollected c) osToSpend in
    let s := setTotalCoinsCollected newTotalCoins s in
    let s := localStorage_setItem "dogeTotalCoins" (toString newTotalCoins) s in
    let newDogevisions := jsAdd (dogevisions c) dogevisionsToAdd in
    let s := setDogevisions newDogevisions s in
    let s := localStorage_setItem "dogeDogevisions" (toString newDogevisions) s in
    ({| success := true; dogevisionsAdded := dogevisionsToAdd;
        osSpent := osToSpend |}, s)
  else
    ({| success := false; dogevisionsAdded := Num 0; osSpent := Num 0 |}, s).

(** *** Buying and using powers *)

Definition buyPower (powerId : string) (c s : State) : State :=
  match findPower powerId (availablePowers (shopState c)) with
  | None => s
  | Some power =>
      if jsLt (totalCoinsCollected c) (Num (cost power)) then s
      else
        let newTotal := jsSub (totalCoinsCollected c) (Num (cost power)) in
        let s := setTotalCoinsCollected newTotal s in
        let s := localStorage_setItem "dogeTotalCoins" (toString newTotal) s in
        let newUsesRemaining :=
          jsAdd (numOr (usesRemaining power) 0)
                (numOr (Num <$> maxUses power) 1) in
        let s := saveUses powerId newUsesRemaining s in
        let s :=
          setShopState
            (mapPowers (purchased powerId newUsesRemaining) (shopState s)) s in
        closeShop s
  end.

Definition usePower (powerId : string) (now : Z) (c s : State) : State :=
  match findPower powerId (availablePowers (shopState c)) with
  | None => s
  | Some power =>
      match usesRemaining power with
      | None => s
      | Some uses =>
          if negb (truthy uses) || jsLe uses (Num 0) then s
          else
            let s :=
              match duration power with
              | Some d =>
                  if negb (d =? 0) then
                    setActivePowers
                      (<[powerId := now + d * 1000]> (activePowers s)) s
                  else s
              | None => s
              end in
            let s :=
              if String.eqb powerId "three_lives"
              then setMaxLives 3 (setLives 3 s)
              else s in
            let newUsesRemaining := jsSub uses (Num 1) in
            let s := saveUses powerId newUsesRemaining s in
            setShopState
              (mapPowers (activated powerId newUsesRemaining) (shopState s)) s
      end
  end.

(** The sweep run every second: expired powers are removed. *)
Definition checkPowerExpiration (now : Z) (s : State) : State :=
  let prev := activePowers s in
  let updated := filter (fun kv => now < kv.2) prev in
  let expired := filter (fun kv => kv.2 <= now) prev in
  let s :=
    if bool_decide (is_Some (expired !! "three_lives"))
    then setMaxLives 1 (setLives 1 s)
    else s in
  let s :=
    if bool_decide (expired = ∅) then s
    else
      setShopState
        (mapPowers
           (fun p =>
              withPowerActive
                (match updated !! id p with
                 | Some expiry => negb (expiry =? 0)
                 | None => false
                 end) p)
           (shopState s)) s in
  setActivePowers updated s.

(** *** Weighted selection of the bone placement *)

(** The selection loop: [Some i] when the loop breaks at index [i]. *)
Fixpoint selectLoop (weights : list Q) (random : Q) (i : nat)
    (cumulativeWeight : Q) : option nat :=
  match weights with
  | [] => None
  | w :: rest =>
      let cumulativeWeight := (cumulativeWeight + w)%Q in
      if Qle_bool random cumulativeWeight then Some i
      else selectLoop rest random (S i) cumulativeWeight
  end.

(** [selectedIndex] starts at 0 and keeps that value when the loop ends
    without a break. *)
Definition selectIndex (weights : list Q) (random : Q) : nat :=
  default 0%nat (selectLoop weights random 0 0).

Definition difficultyWeights : list Q :=
  [0.45; 0.30; 0.15; 0.05; 0.03; 0.02; 0.00; 0.00]%Q.

Inductive Difficulty : Type := easy | medium | hard | expert.

Record BonePosition : Type := {
  bone_x : Q;
  bone_y : Q;
  difficulty : Difficulty;
}.

Definition bonePositionOptions (nextObstacleX width : Q) : list BonePosition :=
  [ {| bone_x := nextObstacleX + width + 60;
       bone_y := GAME_CONFIG.GROUND_Y - 60; difficulty := easy |};
    {| bone_x := nextObstacleX + width + 100;
       bone_y := GAME_CONFIG.GROUND_Y - 60; difficulty := easy |};
    {| bone_x := nextObstacleX + width + 140;
       bone_y := GAME_CONFIG.GROUND_Y - 60; difficulty := easy |};
    {| bone_x := nextObstacleX + width + 80;
       bone_y := GAME_CONFIG.GROUND_Y - 75; difficulty := medium |};
    {| bone_x := nextObstacleX + width + 120;
       bone_y := GAME_CONFIG.GROUND_Y - 75; difficulty := medium |};
    {| bone_x := nextObstacleX + width + 90;
       bone_y := GAME_CONFIG.GROUND_Y - 90; difficulty := hard |};
    {| bone_x := nextObstacleX + width + 110;
       bone_y := GAME_CONFIG.GROUND_Y - 90; difficulty := hard |};
    {| bone_x := nextObstacleX + width + 100;
       bone_y := GAME_CONFIG.GROUND_Y - 105; difficulty := expert |} ].

(** *** Magnetic range *)

Definition MAGNETIC_RANGE : Q := 150.

(** [Math.sqrt(dx * dx + dy * dy) <= range], decided on the squares (the
    lemma [withinRange_sqrt] relates it to the real square root). *)
Definition withinRange (dx dy range : Q) : bool :=
  Qle_bool 0 range && Qle_bool (dx * dx + dy * dy) (range * range).

Definition centerX (obj : GameObject) : Q :=
  pos_x (position obj) + width obj / 2.

Definition centerY (obj : GameObject) : Q :=
  pos_y (position obj) + height obj / 2.

(** *** Player physics of one frame *)

Definition integratePlayer (prev : Player) : Player :=
  let newVelocityY := (vel_y (velocity prev) + GAME_CONFIG.GRAVITY)%Q in
  let newPositionY := (pos_y (position prev) + newVelocityY)%Q in
  let groundY := (GAME_CONFIG.GROUND_Y - height prev)%Q in
  if Qle_bool groundY newPositionY then
    {| playerObject :=
         withVelocity {| vel_x := vel_x (velocity prev); vel_y := 0 |}
           (withPosition {| pos_x := pos_x (position prev);
                            pos_y := groundY |} prev);
       isJumping := false; isGrounded := true; jumpCount := 0;
       maxJumps := maxJumps prev |}
  else
    {| playerObject :=
         withVelocity {| vel_x := vel_x (velocity prev);
                         vel_y := newVelocityY |}
           (withPosition {| pos_x := pos_x (position prev);
                            pos_y := newPositionY |} prev);
       isJumping := isJumping prev; isGrounded := false;
       jumpCount := jumpCount prev; maxJumps := maxJumps prev |}.

Definition scrollObstacle (speed : Q) (obstacle : Obstacle) : Obstacle :=
  {| obstacleObject := scrolledBy speed obstacle;
     obstacleType := obstacleType obstacle;
     rotation := rotation obstacle;
     rotationSpeed := rotationSpeed obstacle |}.

Definition scrollCollectible (speed : Q) (collectible : Collectible)
  : Collectible :=
  {| collectibleObject := scrolledBy speed collectible;
     collected := collected collectible;
     animation := animation collectible + 0.08;
     value := value collectible;
     magnetized := magnetized collectible |}.

(** Fires the invulnerability timers that are due at [now]. *)
Definition runTimers (now : Z) (s : State) : State :=
  let due := List.filter (fun deadline => deadline <=? now) (timers s) in
  let pending := List.filter (fun deadline => now <? deadline) (timers s) in
  match due with
  | [] => s
  | _ :: _ => setTimers pending (setIsInvulnerable false s)
  end.

Section UseGameLogic.

Variable random : nat -> Q.

(** *** Jump *)

Definition jump (c s : State) : State :=
  if isGrounded (player c) && (jumpCount (player c) =? 0) then
    let prev := player s in
    let s :=
      setPlayer
        {| playerObject :=
             withVelocity {| vel_x := vel_x (velocity prev);
                             vel_y := GAME_CONFIG.JUMP_FORCE |} prev;
           isJumping := true; isGrounded := false; jumpCount := 1;
           maxJumps := maxJumps prev |} s in
    let '(jumpParticles, s) :=
      withRandom
        (arrayFrom 5 (fun k =>
           let '(col, k) := getRandomColor random k in
           createParticle random
             {| pos_x := pos_x (position (player c)) + width (player c) / 2;
                pos_y := pos_y (position (player c)) + height (player c) |}
             col k)) s in
    setParticles (particles s ++ jumpParticles) s
  else s.

(** *** Game over and loss of a life *)

Definition gameOver (c s : State) : State :=
  let s := setActivePowers ∅ s in
  let s := setLives 1 s in
  let s := setMaxLives 1 s in
  let s := setIsInvulnerable false s in
  let s := setShopState (mapPowers (withPowerActive false) (shopState s)) s in
  let prev := gameState s in
  let newHighScore := Math_max (Num (score prev)) (highScore prev) in
  let newHighCoins := Math_max (Num (coins prev)) (highCoins prev) in
  let s := localStorage_setItem "dogeHighScore" (toString newHighScore) s in
  let s := localStorage_setItem "dogeHighCoins" (toString newHighCoins) s in
  let s :=
    setGameState
      {| isPlaying := false; score := score prev; coins := coins prev;
         highScore := newHighScore; highCoins := newHighCoins;
         gameOverFlag := true; level := level prev |} s in
  let '(explosionParticles, s) :=
    withRandom
      (arrayFrom 20 (fun k =>
         let '(col, k) := getRandomColor random k in
         createParticle random
           {| pos_x := centerX (player c); pos_y := centerY (player c) |}
           col k)) s in
  setParticles (particles s ++ explosionParticles) s.

Definition loseLife (now : Z) (c s : State) : State :=
  if isInvulnerable c then s
  else if 1 <? lives c then
    let newLives := lives c - 1 in
    let s := setLives newLives s in
    let s := setIsInvulnerable true s in
    let s := setTimeout now 2000 s in
    let '(damageParticles, s) :=
      withRandom
        (arrayFrom 15
           (createParticle random
              {| pos_x := centerX (player c); pos_y := centerY (player c) |}
              "#ef4444")) s in
    setParticles (particles s ++ damageParticles) s
  else gameOver c s.

(** *** Collecting a bone

    [coin] is the collectible held by the caller and [i] its index in the
    array of collectibles: the test [c === coin] of the source compares
    references, and the object at index [i] is the one that is replaced. *)
Definition collectCoin (now : Z) (c : State) (i : nat) (coin : Collectible)
    (s : State) : State :=
  if collected coin || negb (active coin) then s
  else
    let s := setCollectibles (alter markCollected i (collectibles s)) s in
    let isDoubleCollectorActive :=
      isPowerActive "double_collector" now (activePowers c) in
    let coinValue :=
      if isDoubleCollectorActive then value coin * 2 else value coin in
    let coinsToAdd := if isDoubleCollectorActive then 2 else 1 in
    let prev := gameState s in
    let s :=
      setGameState
        {| isPlaying := isPlaying prev; score := score prev + coinValue;
           coins := coins prev + coinsToAdd; highScore := highScore prev;
           highCoins := highCoins prev; gameOverFlag := gameOverFlag prev;
           level := level prev |} s in
    let newTotal := jsAdd (totalCoinsCollected s) (Num coinsToAdd) in
    let s := localStorage_setItem "dogeTotalCoins" (toString newTotal) s in
    let s := setTotalCoinsCollected newTotal s in
    let isMagneticActive :=
      isPowerActive "magnetic_collector" now (activePowers c) in
    let particleCount := if isDoubleCollectorActive then 16%nat else 8%nat in
    let particleColor :=
      if isMagneticActive then "#00ffff"
      else if isDoubleCollectorActive then "#ffd700"
      else getCoinColor in
    let '(coinParticles, s) :=
      withRandom
        (arrayFrom particleCount
           (createParticle random
              {| pos_x := centerX coin; pos_y := centerY coin |}
              particleColor)) s in
    setParticles (particles s ++ coinParticles) s.

(** *** The frame loop *)

(** The first part of a frame: speed, world offset and player physics. *)
Definition advanceWorld (c s : State) : State :=
  let newSpeed := getGameSpeed (inject_Z (score (gameState c))) in
  let s := setCurrentSpeed newSpeed s in
  let s := setWorldOffset (worldOffset s + newSpeed) s in
  setPlayer (integratePlayer (player s)) s.

(** The spawn block: one obstacle and its bone when the right edge of the
    view has reached the spawn cursor.  The index chosen by [selectIndex]
    is always inside the table (lemma [selectIndex_bound]), so the default
    of [nth] is never used; the default of the obstacle type stands for the
    [undefined] that the source would store if a draw left [0, 1). *)
Definition spawnObstacle (c s : State) : State :=
  let currentWorldX := (worldOffset c + GAME_CONFIG.CANVAS_WIDTH)%Q in
  if Qle_bool (nextObstacleX c) currentWorldX then
    let obstacleTypes := [meteorite; rock; flag] in
    let '(r, s) := withRandom (Math_random random) s in
    let type :=
      default meteorite
        (arrayGet obstacleTypes
           (Qfloor (r * inject_Z (Z.of_nat (length obstacleTypes))))) in
    let width := 60%Q in
    let height := 60%Q in
    let newObstacle :=
      {| obstacleObject :=
           {| position := {| pos_x := nextObstacleX c - worldOffset c;
                             pos_y := GAME_CONFIG.GROUND_Y - height |};
              velocity := {| vel_x := 0; vel_y := 0 |};
              width := width; height := height; active := true |};
         obstacleType := type; rotation := 0; rotationSpeed := 0 |} in
    let s := setObstacles (obstacles s ++ [newObstacle]) s in
    let options := bonePositionOptions (nextObstacleX c) width in
    let '(rb, s) := withRandom (Math_random random) s in
    let selectedIndex := selectIndex difficultyWeights rb in
    let bonePosition :=
      nth selectedIndex options
        {| bone_x := 0; bone_y := 0; difficulty := easy |} in
    let newBone :=
      {| collectibleObject :=
           {| position := {| pos_x := bone_x bonePosition - worldOffset c;
                             pos_y := bone_y bonePosition |};
              velocity := {| vel_x := 0; vel_y := 0 |};
              width := 65; height := 65; active := true |};
         collected := false; animation := 0;
         value := GAME_CONFIG.COIN_VALUE; magnetized := false |} in
    let s := setCollectibles (collectibles s ++ [newBone]) s in
    setNextObstacleX (nextObstacleX c + width + 200) s
  else s.

(** The last part of a frame: scrolling, pruning, particles and score. *)
Definition scrollEntities (c s : State) : State :=
  let newSpeed := getGameSpeed (inject_Z (score (gameState c))) in
  let s :=
    setObstacles
      (List.filter (fun obstacle : Obstacle => negb (isOffScreen obstacle))
         (List.map (scrollObstacle newSpeed) (obstacles s))) s in
  let s :=
    setCollectibles
      (List.filter
         (fun collectible : Collectible =>
            negb (isOffScreen collectible) && active collectible)
         (List.map (scrollCollectible newSpeed) (collectibles s))) s in
  let s := setParticles (updateParticles (particles s)) s in
  let prev := gameState s in
  setGameState
    {| isPlaying := isPlaying prev; score := score prev + 1;
       coins := coins prev; highScore := highScore prev;
       highCoins := highCoins prev; gameOverFlag := gameOverFlag prev;
       level := level prev |} s.

Definition gameLoop (c s : State) : State :=
  if negb (isPlaying (gameState c)) then s
  else scrollEntities c (spawnObstacle c (advanceWorld c s)).

(** *** The collision pass *)

Definition hitObstacle (now : Z) (c s : State) (obstacle : Obstacle) : State :=
  if checkCollision (player c) obstacle then loseLife now c s else s.

Definition touchCoin (now : Z) (c s : State) (entry : nat * Collectible)
  : State :=
  let '(i, coin) := entry in
  if negb (collected coin) && active coin then
    if isPowerActive "magnetic_collector" now (activePowers c) then
      let dx := (centerX (player c) - centerX coin)%Q in
      let dy := (centerY (player c) - centerY coin)%Q in
      if withinRange dx dy MAGNETIC_RANGE then collectCoin now c i coin s
      else s
    else if checkCollision (player c) coin then collectCoin now c i coin s
    else s
  else s.

Definition collisionEffect (now : Z) (c : State) : State :=
  if negb (isPlaying (gameState c)) then c
  else
    let s := foldl (hitObstacle now c) c (obstacles c) in
    foldl (touchCoin now c) s (imap pair (collectibles c)).

(** *** Starting a game *)

Definition autoActivate (powerId : string) (now : Z) (c s : State) : State :=
  match findPower powerId (availablePowers (shopState c)) with
  | Some power =>
      match usesRemaining power with
      | Some uses =>
          if truthy uses && jsGt uses (Num 0)
          then usePower powerId now c s else s
      | None => s
      end
  | None => s
  end.

Definition startGame (now : Z) (c s : State) : State :=
  let prev := gameState s in
  let s :=
    setGameState
      {| isPlaying := true; score := 0; coins := 0;
         highScore := highScore prev; highCoins := highCoins prev;
         gameOverFlag := false; level := level prev |} s in
  let prevPlayer := player s in
  let s :=
    setPlayer
      {| playerObject :=
           withVelocity {| vel_x := 0; vel_y := 0 |}
             (withPosition {| pos_x := 100;
                              pos_y := GAME_CONFIG.GROUND_Y - 70 |}
                prevPlayer);
         isJumping := isJumping prevPlayer; isGrounded := true;
         jumpCount := 0; maxJumps := maxJumps prevPlayer |} s in
  let s := setObstacles [] s in
  let s := setCollectibles [] s in
  let s := setParticles [] s in
  let s := setWorldOffset 0 s in
  let s := setNextObstacleX (GAME_CONFIG.CANVAS_WIDTH + 100) s in
  let s := setCurrentSpeed GAME_CONFIG.BASE_SCROLL_SPEED s in
  let s := closeShop s in
  let s := setLives 1 s in
  let s := setMaxLives 1 s in
  let s := setIsInvulnerable false s in
  let s := autoActivate "double_collector" now c s in
  let s := autoActivate "magnetic_collector" now c s in
  autoActivate "three_lives" now c s.

(** *** Sessions

    The events of a running game, each handled against the state that the
    previous one produced. *)
Inductive Event : Type :=
| Frame
| Jump
| Collisions (now : Z)
| Timers (now : Z)
| Sweep (now : Z).

Definition handle (e : Event) (s : State) : State :=
  match e with
  | Frame => gameLoop s s
  | Jump => jump s s
  | Collisions now => collisionEffect now s
  | Timers now => runTimers now s
  | Sweep now => checkPowerExpiration now s
  end.

Definition run (events : list Event) (s : State) : State :=
  foldl (fun s e => handle e s) s events.

(** World-space abscissa of an object created while the offset was [offset]. *)
Definition worldX (offset : Q) (obj : GameObject) : Q :=
  (pos_x (position obj) + offset)%Q.

(** What the spawn block of the frame handled in state [s] appends to the
    two arrays. *)
Definition obstaclesSpawned (e : Event) (s : State) : list Obstacle :=
  match e with
  | Frame =>
      if isPlaying (gameState s) then
        let before := advanceWorld s s in
        drop (length (obstacles before)) (obstacles (spawnObstacle s before))
      else []
  | _ => []
  end.

Definition collectiblesSpawned (e : Event) (s : State) : list Collectible :=
  match e with
  | Frame =>
      if isPlaying (gameState s) then
        let before := advanceWorld s s in
        drop (length (collectibles before))
          (collectibles (spawnObstacle s before))
      else []
  | _ => []
  end.

(** Everything ever created along a session.  An obstacle is recorded by
    the world abscissa that the spawner gives it: the value of the spawn
    cursor [nextObstacleX] when it is created (its abscissa on the screen is
    that value less the world offset, and is all that the obstacle keeps). *)
Fixpoint obstaclesCreated (events : list Event) (s : State) : list Q :=
  match events with
  | [] => []
  | e :: rest =>
      List.map (fun _ : Obstacle => nextObstacleX s) (obstaclesSpawned e s)
      ++ obstaclesCreated rest (handle e s)
  end.

Fixpoint collectiblesCreated (events : list Event) (s : State)
  : list Collectible :=
  match events with
  | [] => []
  | e :: rest =>
      collectiblesSpawned e s ++ collectiblesCreated rest (handle e s)
  end.

End UseGameLogic.

(* ================================================================= *)
(** ** Vocabulary of the statements *)

(** The decision that the collision pass takes for one collectible. *)
Definition collectsCoin (now : Z) (c : State) (coin : Collectible) : bool :=
  negb (collected coin) && active coin
  && (if isPowerActive "magnetic_collector" now (activePowers c)
      then withinRange (centerX (player c) - centerX coin)
                       (centerY (player c) - centerY coin) MAGNETIC_RANGE
      else checkCollision (player c) coin).

(** The effect of one iteration of the pass on the array of collectibles. *)
Definition collectStep (wants : Collectible -> bool)
    (l : list Collectible) (entry : nat * Collectible) : list Collectible :=
  if wants entry.2 then alter markCollected entry.1 l else l.

(** The two boxes overlap on both axes. *)
Definition intersects (a b : GameObject) : Prop :=
  (pos_x (position a) < pos_x (position b) + width b
   /\ pos_x (position b) < pos_x (position a) + width a
   /\ pos_y (position a) < pos_y (position b) + height b
   /\ pos_y (position b) < pos_y (position a) + height a)%Q.

(** Squared distance between the centres of two objects. *)
Definition squaredDistance (a b : GameObject) : Q :=
  ((centerX a - centerX b) * (centerX a - centerX b)
   + (centerY a - centerY b) * (centerY a - centerY b))%Q.

(** The condition of the spawn block. *)
Definition spawnDue (c : State) : bool :=
  Qle_bool (nextObstacleX c) (worldOffset c + GAME_CONFIG.CANVAS_WIDTH).

(** What the spawner reads and writes, apart from the collectibles. *)
Definition spawnerView (s : State) : list Obstacle * Q * Q :=
  (obstacles s, worldOffset s, nextObstacleX s).

(** Distance between two consecutive spawns: the width of an obstacle plus
    the fixed gap. *)
Definition SPAWN_SPACING : Q := 60 + 200.

(** The total currency is a count: an integer that is not negative. *)
Definition balanceOk (s : State) : Prop :=
  exists T : Z, totalCoinsCollected s = Num T /\ 0 <= T.

(** The pending timers all have the same deadline, and there is none while
    the player is vulnerable. *)
Definition timersSettled (s : State) : Prop :=
  (exists d : Z, Forall (fun t => t = d) (timers s))
  /\ (isInvulnerable s = false -> timers s = []).

(** A bone of the size created by the spawner, placed at [(x, y)]. *)
Definition boneAt (x y : Q) : Collectible :=
  {| collectibleObject :=
       {| position := {| pos_x := x; pos_y := y |};
          velocity := {| vel_x := 0; vel_y := 0 |};
          width := 65; height := 65; active := true |};
     collected := false; animation := 0;
     value := GAME_CONFIG.COIN_VALUE; magnetized := false |}.

(* ================================================================= *)
(** ** Keyboard, display helpers and canvas sizing *)

(** The key handler of the hook.  The set of pressed keys that the source
    keeps in a ref is never read and is left out. *)
Definition handleKeyDown (random : nat -> Q) (code : string) (now : Z)
    (c : State) : State :=
  let s := c in
  let s :=
    if String.eqb code "Space" then
      if isPlaying (gameState c) then jump random c s
      else if negb (isOpen (shopState c)) then startGame now c s
      else s
    else s in
  if String.eqb code "KeyS" && negb (isPlaying (gameState c)) then
    if isOpen (shopState c) then closeShop s else openShop s
  else s.

(** [Math.ceil(a / d)] for integers [a] and a positive constant [d]. *)
Definition Math_ceil_div (a d : Z) : Z := - ((- a) / d).

(** [Math.round(x)]: the nearest integer, halves going up. *)
Definition Math_round (x : Q) : Z := Qfloor (x + 0.5).

(** Seconds left for a power, as the heads-up display shows them (App.tsx). *)
Definition getPowerTimeRemaining (powerId : string) (now : Z)
    (active : gmap string Z) : Z :=
  match active !! powerId with
  | Some expiry =>
      if expiry =? 0 then 0
      else Z.max 0 (Math_ceil_div (expiry - now) 1000)
  | None => 0
  end.

(** Speed shown as a percentage of the maximum (App.tsx). *)
Definition speedPercentage (currentSpeed : Q) : Z :=
  Math_round (currentSpeed / GAME_CONFIG.MAX_SCROLL_SPEED * 100).

(** The size of the canvas for a given window (useResponsiveCanvas.ts). *)
Record CanvasSize : Type := {
  canvasWidth : Z;
  canvasHeight : Z;
  scale : Q;
}.

Definition calculateCanvasSize (baseWidth baseHeight : Q)
    (screenWidth screenHeight : Q) : CanvasSize :=
  let aspectRatio := (baseWidth / baseHeight)%Q in
  let padding := 16%Q in
  let availableWidth := (screenWidth - padding * 2)%Q in
  let availableHeight := (screenHeight - padding * 2)%Q in
  let '(finalWidth, finalHeight) :=
    if Qle_bool (availableWidth / aspectRatio) availableHeight
    then (availableWidth, (availableWidth / aspectRatio)%Q)
    else ((availableHeight * aspectRatio)%Q, availableHeight) in
  {| canvasWidth := Qfloor finalWidth;
     canvasHeight := Qfloor finalHeight;
     scale := finalWidth / baseWidth |}.

(** The effect run once when the hook is mounted: the remaining uses of the
    three powers are read again from the store. *)
Definition withUses (n : JSNumber) (p : PowerUp) : PowerUp :=
  {| id := id p; cost := cost p; owned := owned p;
     powerActive := powerActive p; duration := duration p;
     usesRemaining := Some n; maxUses := maxUses p |}.

Definition syncUses (s : State) : State :=
  setShopState
    (mapPowers
       (fun p =>
          if String.eqb (id p) "double_collector" then
            withUses (readStored (localStorage s) "dogeDoubleCollectorUses") p
          else if String.eqb (id p) "magnetic_collector" then
            withUses (readStored (localStorage s) "dogeMagneticCollectorUses")
              p
          else if String.eqb (id p) "three_lives" then
            withUses (readStored (localStorage s) "dogeThreeLivesUses") p
          else p)
       (shopState s)) s.

(** *** Everything a user or the environment can do *)

Inductive Action : Type :=
| Play (e : Event)
| Key (code : string) (now : Z)
| Buy (powerId : string)
| Use (powerId : string) (now : Z)
| Exchange
| OpenShop
| CloseShop
| Start (now : Z).

Definition perform (random : nat -> Q) (a : Action) (s : State) : State :=
  match a with
  | Play e => handle random e s
  | Key code now => handleKeyDown random code now s
  | Buy powerId => buyPower powerId s s
  | Use powerId now => usePower powerId now s s
  | Exchange => snd (exchangeForDogevision s s)
  | OpenShop => openShop s
  | CloseShop => closeShop s
  | Start now => startGame now s s
  end.

Definition performAll (random : nat -> Q) (actions : list Action) (s : State)
  : State :=
  foldl (fun s a => perform random a s) s actions.

(** *** Vocabulary of the further statements *)

(** The store key under which the uses of a power are kept. *)
Definition usesKey (powerId : string) : option string :=
  if String.eqb powerId "double_collector" then Some "dogeDoubleCollectorUses"
  else if String.eqb powerId "magnetic_collector"
  then Some "dogeMagneticCollectorUses"
  else if String.eqb powerId "three_lives" then Some "dogeThreeLivesUses"
  else None.

Definition catalogueIds : list string :=
  ["double_collector"; "magnetic_collector"; "three_lives"].

(** The persisted part of the state: what a reload reads back. *)
Record Persisted : Type := {
  p_totalCoins : JSNumber;
  p_dogevisions : JSNumber;
  p_highScore : JSNumber;
  p_highCoins : JSNumber;
  p_uses : list (string * option JSNumber);
}.

Definition persisted (s : State) : Persisted :=
  {| p_totalCoins := totalCoinsCollected s;
     p_dogevisions := dogevisions s;
     p_highScore := highScore (gameState s);
     p_highCoins := highCoins (gameState s);
     p_uses := List.map (fun p => (id p, usesRemaining p))
                 (availablePowers (shopState s)) |}.

(** The store holds the persisted part of the state. *)
Definition storeAgrees (s : State) : Prop :=
  persisted (initialState (localStorage s)) = persisted s.

(** The remaining uses with which the start of a game activates a power:
    [Some n] when the catalogue of [c] holds the power with [n > 0] uses. *)
Definition autoFires (powerId : string) (c : State) : option Z :=
  match findPower powerId (availablePowers (shopState c)) with
  | Some power =>
      match usesRemaining power with
      | Some (Num n) => if 0 <? n then Some n else None
      | _ => None
      end
  | None => None
  end.

(** The lives are between one and the maximum, which is one or three. *)
Definition livesOk (s : State) : Prop :=
  1 <= lives s <= maxLives s /\ (maxLives s = 1 \/ maxLives s = 3).

(** The player keeps its size and its column; while a game runs it stands
    on the ground line or is above it, and a grounded player is on the line
    with no jump counted. *)
Definition playerOk (s : State) : Prop :=
  height (player s) = 70%Q /\ width (player s) = 60%Q
  /\ pos_x (position (player s)) = 100%Q
  /\ (isPlaying (gameState s) = true ->
      (pos_y (position (player s))
       <= GAME_CONFIG.GROUND_Y - height (player s))%Q
      /\ (jumpCount (player s) = 0 \/ jumpCount (player s) = 1)
      /\ (isGrounded (player s) = true ->
          jumpCount (player s) = 0
          /\ (pos_y (position (player s))
              == GAME_CONFIG.GROUND_Y - height (player s))%Q)).

(** The spawn cursor is ahead of the point 16 pixels inside the right edge
    of the view. *)
Definition cursorAhead (s : State) : Prop :=
  (worldOffset s + GAME_CONFIG.CANVAS_WIDTH - 16 < nextObstacleX s)%Q.

(** Height of the player above the ground line [k] frames into a jump. *)
Definition jumpHeight (k : nat) : Q :=
  (11 * inject_Z (Z.of_nat k)
   - inject_Z (Z.of_nat k) * (inject_Z (Z.of_nat k) + 1) / 4)%Q.

(* ================================================================= *)
(** * Properties *)

(** ** Speed model *)

Lemma getGameSpeed_ramp (s : Q) :
  (s <= 4000 -> getGameSpeed s == 4 + s * 0.003)%Q.
Proof.
  intros Hs. unfold getGameSpeed.
  apply Q.min_l. unfold GAME_CONFIG.BASE_SCROLL_SPEED,
    GAME_CONFIG.SPEED_INCREASE_RATE, GAME_CONFIG.MAX_SCROLL_SPEED.
  Lqa.lra.
Qed.

Lemma getGameSpeed_ceiling (s : Q) :
  (4000 <= s -> getGameSpeed s == 16)%Q.
Proof.
  intros Hs. unfold getGameSpeed.
  apply Q.min_r. unfold GAME_CONFIG.BASE_SCROLL_SPEED,
    GAME_CONFIG.SPEED_INCREASE_RATE, GAME_CONFIG.MAX_SCROLL_SPEED.
  Lqa.lra.
Qed.

Lemma getGameSpeed_bounds (s : Q) :
  (0 <= s -> 4 <= getGameSpeed s <= 16)%Q.
Proof.
  intros Hs. unfold getGameSpeed. split.
  - apply Q.min_glb; unfold GAME_CONFIG.BASE_SCROLL_SPEED,
      GAME_CONFIG.SPEED_INCREASE_RATE, GAME_CONFIG.MAX_SCROLL_SPEED; Lqa.lra.
  - apply Q.le_min_r.
Qed.

(** C7: for a non-negative score the scroll speed is
    [min (BASE_SPEED + s * SPEED_RAMP) MAX_SPEED] with the constants 4, 0.003
    and 16: a linear ramp up to the score 4000 and the ceiling 16 from there
    on; at the score 2000 it is 10. *)
Theorem getGameSpeed_spec (s : Q) :
  (0 <= s)%Q ->
  getGameSpeed s = Qmin (4 + s * 0.003) 16
  /\ (GAME_CONFIG.BASE_SCROLL_SPEED == 4
      /\ GAME_CONFIG.SPEED_INCREASE_RATE == 3 # 1000
      /\ GAME_CONFIG.MAX_SCROLL_SPEED == 16)%Q
  /\ ((s <= 4000 -> getGameSpeed s == 4 + s * 0.003)
      /\ (4000 <= s -> getGameSpeed s == 16)
      /\ 4 <= getGameSpeed s <= 16)%Q
  /\ (getGameSpeed 2000 == Qmin (4 + 6) 16 /\ getGameSpeed 2000 == 10)%Q.
Proof.
  intros Hs. split; [reflexivity|]. split; [repeat split; reflexivity|].
  split.
  - split; [apply getGameSpeed_ramp|].
    split; [apply getGameSpeed_ceiling|].
    now apply getGameSpeed_bounds.
  - split; reflexivity.
Qed.

Lemma getGameSpeed_spec_witness :
  (0 <= 2000)%Q /\ (getGameSpeed 2000 == 10)%Q.
Proof.
  assert (0 <= 2000)%Q as Hscore by (unfold Qle; simpl; lia).
  split; [exact Hscore|].
  destruct (getGameSpeed_spec 2000 Hscore) as (_ & _ & _ & _ & H).
  exact H.
Defined.

(** ** Reading the persistence store *)

Lemma leadingDigits_not_digit (ch : ascii) (rest : string) :
  isDecimalDigit ch = false -> leadingDigits 10 (String ch rest) = [].
Proof.
  destruct ch as [[] [] [] [] [] [] [] []]; intros H;
    solve [reflexivity | discriminate H].
Qed.

Lemma parseInt_no_digit (v : string) :
  beginsWithDigit v = false -> parseInt v = NaN.
Proof.
  unfold beginsWithDigit, parseInt, stripSign, stripPrefix.
  destruct (trimStart v) as [|c1 r1]; [reflexivity|].
  destruct c1 as [[] [] [] [] [] [] [] []];
    try (intros H; discriminate H);
    try (intros _; reflexivity).
  - (* "+" *)
    destruct r1 as [|c2 r2]; [reflexivity|].
    destruct c2 as [[] [] [] [] [] [] [] []]; intros H;
      solve [reflexivity | discriminate H].
  - (* "-" *)
    destruct r1 as [|c2 r2]; [reflexivity|].
    destruct c2 as [[] [] [] [] [] [] [] []]; intros H;
      solve [reflexivity | discriminate H].
Qed.

Lemma readStored_absent (store : gmap string string) (key : string) :
  store !! key = None \/ store !! key = Some EmptyString ->
  readStored store key = Num 0.
Proof. unfold readStored. intros [-> | ->]; reflexivity. Qed.

Lemma readStored_present (store : gmap string string) (key v : string) :
  store !! key = Some v -> v <> EmptyString -> readStored store key = parseInt v.
Proof.
  unfold readStored. intros -> Hv. destruct v; [congruence | reflexivity].
Qed.

(** *** Reading back a written number *)

Lemma digitValue_pretty_N_char (d : N) :
  (d < 10)%N ->
  digitValue (pretty_N_char d) = Some (Z.of_N d)
  /\ isDecimalDigit (pretty_N_char d) = true.
Proof.
  intros Hd.
  assert (d = 0 \/ d = 1 \/ d = 2 \/ d = 3 \/ d = 4 \/ d = 5 \/ d = 6
          \/ d = 7 \/ d = 8 \/ d = 9)%N as Hcases by lia.
  repeat (destruct Hcases as [-> | Hcases]; [split; reflexivity|]).
  subst d. split; reflexivity.
Qed.

Lemma pretty_N_go_digits (x : N) :
  forall s : string,
    allDecimalDigits (pretty_N_go x s) = allDecimalDigits s
    /\ exists ds : list Z,
         leadingDigits 10 (pretty_N_go x s) = ds ++ leadingDigits 10 s
         /\ mathInt 10 ds = Z.of_N x.
Proof.
  induction (N.lt_wf_0 x) as [x _ IH]; intros s.
  destruct (N.eq_dec x 0%N) as [-> | Hx].
  - rewrite pretty_N_go_0. split; [reflexivity|]. exists []. split; reflexivity.
  - rewrite pretty_N_go_step by lia.
    assert (x `div` 10 < x)%N as Hlt by (apply N.div_lt; lia).
    assert (x `mod` 10 < 10)%N as Hmod by (apply N.mod_lt; lia).
    destruct (digitValue_pretty_N_char _ Hmod) as [Hval Hdig].
    destruct (IH _ Hlt (String (pretty_N_char (x `mod` 10)) s))
      as (Hall & ds & Hds & Hint).
    split.
    + rewrite Hall. simpl. now rewrite Hdig.
    + exists (ds ++ [Z.of_N (x `mod` 10)]). split.
      * rewrite Hds. simpl. rewrite Hval.
        replace (Z.of_N (x `mod` 10) <? 10) with true
          by (symmetry; apply Z.ltb_lt; lia).
        now rewrite <- app_assoc.
      * unfold mathInt in *. rewrite foldl_app. simpl. rewrite Hint.
        rewrite (N.div_mod x 10) at 3 by lia. lia.
Qed.

Lemma pretty_N_go_length (x : N) :
  forall s : string,
    (String.length s <= String.length (pretty_N_go x s))%nat.
Proof.
  induction (N.lt_wf_0 x) as [x _ IH]; intros s.
  destruct (N.eq_dec x 0%N) as [-> | Hx]; [now rewrite pretty_N_go_0|].
  rewrite pretty_N_go_step by lia.
  etransitivity; [|apply IH; apply N.div_lt; lia]. simpl. lia.
Qed.

Lemma pretty_N_go_nonempty (x : N) (s : string) :
  (0 < x)%N -> pretty_N_go x s <> EmptyString.
Proof.
  intros Hx E. rewrite pretty_N_go_step in E by lia.
  pose proof (pretty_N_go_length (x `div` 10)
                (String (pretty_N_char (x `mod` 10)) s)) as Hlen.
  rewrite E in Hlen. simpl in Hlen. lia.
Qed.

Lemma trimStart_digit (c : ascii) (r : string) :
  isDecimalDigit c = true -> trimStart (String c r) = String c r.
Proof.
  destruct c as [[] [] [] [] [] [] [] []]; intros H;
    solve [reflexivity | discriminate H].
Qed.

Lemma stripSign_digit (c : ascii) (r : string) :
  isDecimalDigit c = true -> stripSign (String c r) = (1, String c r).
Proof.
  destruct c as [[] [] [] [] [] [] [] []]; intros H;
    solve [reflexivity | discriminate H].
Qed.

Lemma stripPrefix_digits (s : string) :
  allDecimalDigits s = true -> stripPrefix s = (10, s).
Proof.
  destruct s as [|c r]; [reflexivity|]. simpl.
  destruct c as [[] [] [] [] [] [] [] []]; intros H;
    try discriminate H; try reflexivity.
  destruct r as [|c2 r2]; [reflexivity|]. simpl in H.
  destruct c2 as [[] [] [] [] [] [] [] []];
    solve [reflexivity | discriminate H].
Qed.

Lemma leadingDigits_digit (c : ascii) (r : string) :
  isDecimalDigit c = true -> leadingDigits 10 (String c r) <> [].
Proof.
  destruct c as [[] [] [] [] [] [] [] []]; intros H;
    solve [discriminate H | simpl; discriminate].
Qed.

(** A non-empty string of decimal digits, with or without a minus sign,
    parses to the number it denotes. *)
Lemma parseInt_decimal (s : string) :
  s <> EmptyString -> allDecimalDigits s = true ->
  parseInt s = Num (mathInt 10 (leadingDigits 10 s))
  /\ parseInt (String "-" s) = Num (- mathInt 10 (leadingDigits 10 s)).
Proof.
  destruct s as [|c r]; [congruence|]. intros _ Hall.
  assert (isDecimalDigit c = true) as Hc
    by (simpl in Hall; now apply andb_true_iff in Hall as [Hc _]).
  pose proof (leadingDigits_digit c r Hc) as Hne.
  split; unfold parseInt.
  - rewrite (trimStart_digit c r Hc), (stripSign_digit c r Hc),
      (stripPrefix_digits _ Hall).
    destruct (leadingDigits 10 (String c r)) as [|d ds]; [congruence|].
    now rewrite Z.mul_1_l.
  - change (trimStart (String "-" (String c r)))
      with (String "-" (String c r)).
    change (stripSign (String "-" (String c r))) with (-1, String c r).
    cbv iota beta. rewrite (stripPrefix_digits _ Hall).
    destruct (leadingDigits 10 (String c r)) as [|d ds]; [congruence|].
    f_equal; lia.
Qed.

(** Reading back what [toString] wrote gives the number that was written. *)
Lemma parseInt_toString (z : Z) : parseInt (toString (Num z)) = Num z.
Proof.
  assert (forall p : positive,
             pretty (N.pos p) <> EmptyString
             /\ allDecimalDigits (pretty (N.pos p)) = true
             /\ mathInt 10 (leadingDigits 10 (pretty (N.pos p)))
                = Z.pos p) as Hpos.
  { intros p. unfold pretty, pretty_N. simpl.
    destruct (pretty_N_go_digits (N.pos p) EmptyString) as (Hall & ds & Hds & Hint).
    split; [apply pretty_N_go_nonempty; lia|]. split; [exact Hall|].
    rewrite Hds. simpl. rewrite app_nil_r. exact Hint. }
  destruct z as [|p|p]; [reflexivity| |]; simpl;
    unfold pretty, pretty_Z, pretty_positive;
    destruct (Hpos p) as (Hne & Hall & Hval);
    destruct (parseInt_decimal _ Hne Hall) as [H1 H2].
  - etransitivity; [exact H1|]. now rewrite Hval.
  - etransitivity; [exact H2|]. now rewrite Hval.
Qed.

Lemma wellFormedNumber_toString (z : Z) :
  wellFormedNumber (toString (Num z)) = true.
Proof.
  assert (forall p : positive,
             exists c r, pretty (N.pos p) = String c r
                         /\ allDecimalDigits (String c r) = true) as Hpos.
  { intros p. unfold pretty, pretty_N. simpl.
    destruct (pretty_N_go_digits (N.pos p) EmptyString) as (Hall & _).
    pose proof (pretty_N_go_nonempty (N.pos p) EmptyString) as Hne.
    destruct (pretty_N_go (N.pos p) EmptyString) as [|c r];
      [exfalso; apply Hne; [lia | reflexivity]|].
    exists c, r. split; [reflexivity | exact Hall]. }
  destruct z as [|p|p]; [reflexivity| |];
    destruct (Hpos p) as (c & r & Heq & Hall).
  - change (toString (Num (Z.pos p))) with (pretty (N.pos p)).
    rewrite Heq. unfold wellFormedNumber.
    destruct c as [[] [] [] [] [] [] [] []]; try exact Hall;
      simpl in Hall; discriminate Hall.
  - change (toString (Num (Z.neg p))) with (String "-" (pretty (N.pos p))).
    rewrite Heq. exact Hall.
Qed.

Lemma readStored_written (store : gmap string string) (key : string) (z : Z) :
  store !! key = Some (toString (Num z)) -> readStored store key = Num z.
Proof.
  intros H. rewrite (readStored_present _ _ _ H); [apply parseInt_toString|].
  intros E. pose proof (wellFormedNumber_toString z) as Hw.
  rewrite E in Hw. discriminate Hw.
Qed.

(** C9, as stated, fails: a stored value that is not a well-formed number
    need not read as 0.  The store below holds the text abc under the key
    of the total currency; it reads as [NaN]. *)
Lemma readStored_malformed_counterexample :
  ~ (forall (store : gmap string string) (key v : string),
        store !! key = Some v -> wellFormedNumber v = false ->
        readStored store key = Num 0).
Proof.
  intros H.
  specialize (H (<["dogeTotalCoins" := "abc"]> ∅) "dogeTotalCoins" "abc").
  rewrite lookup_insert_eq in H.
  specialize (H eq_refl eq_refl). discriminate H.
Qed.

(** C9, amended: a read yields 0 when the key is absent or the stored string
    is empty, the two cases that the fallback of the initialisers covers; a
    read is a total function and raises nothing; any other stored string is
    handed to [parseInt] as it is, so that a non-empty string that does not
    begin, after optional white space and a sign, with a decimal digit reads
    as [NaN] and not as 0. *)
Theorem readStored_fallback (store : gmap string string) (key : string) :
  (store !! key = None \/ store !! key = Some EmptyString ->
   readStored store key = Num 0)
  /\ (forall v : string,
        store !! key = Some v -> v <> EmptyString ->
        readStored store key = parseInt v)
  /\ (forall v : string,
        store !! key = Some v -> v <> EmptyString -> beginsWithDigit v = false ->
        readStored store key = NaN /\ readStored store key <> Num 0).
Proof.
  split; [apply readStored_absent|]. split.
  - intros v Hv Hne. exact (readStored_present _ _ _ Hv Hne).
  - intros v Hv Hne Hd.
    rewrite (readStored_present _ _ _ Hv Hne), (parseInt_no_digit _ Hd).
    split; [reflexivity | discriminate].
Qed.

Lemma readStored_fallback_witness :
  readStored ∅ "dogeHighScore" = Num 0
  /\ readStored (<["dogeHighScore" := "bone"]> ∅) "dogeHighScore" = NaN.
Proof.
  split.
  - destruct (readStored_fallback ∅ "dogeHighScore") as [H _].
    apply H. left. reflexivity.
  - destruct (readStored_fallback (<["dogeHighScore" := "bone"]> ∅)
                "dogeHighScore") as (_ & _ & H).
    apply (H "bone"); [apply lookup_insert_eq | discriminate | reflexivity].
Defined.

(** ** Weighted selection *)

(** The loop never breaks at an index whose weight is not positive, as long
    as the draw is above the weight accumulated before the loop. *)
Lemma selectLoop_positive (weights : list Q) :
  forall (r : Q) (i0 : nat) (cum : Q) (i : nat),
    (cum < r)%Q ->
    selectLoop weights r i0 cum = Some i ->
    (i0 <= i)%nat
    /\ exists w, weights !! (i - i0)%nat = Some w /\ (0 < w)%Q.
Proof.
  induction weights as [|w rest IH]; intros r i0 cum i Hlt Hsel;
    simpl in Hsel; [discriminate|].
  destruct (Qle_bool r (cum + w)) eqn:Hle.
  - injection Hsel as <-. split; [lia|].
    exists w. rewrite Nat.sub_diag. split; [reflexivity|].
    apply Qle_bool_iff in Hle. Lqa.lra.
  - assert (cum + w < r)%Q as Hlt'.
    { apply Qnot_le_lt. intros Hc. apply Qle_bool_iff in Hc. congruence. }
    destruct (IH r (S i0) (cum + w)%Q i Hlt' Hsel) as [Hge [w' [Hw' Hpos]]].
    split; [lia|]. exists w'. split; [|exact Hpos].
    replace (i - i0)%nat with (S (i - S i0)) by lia. exact Hw'.
Qed.

Lemma selectLoop_range (weights : list Q) :
  forall (r : Q) (i0 : nat) (cum : Q) (i : nat),
    selectLoop weights r i0 cum = Some i ->
    (i0 <= i < i0 + length weights)%nat.
Proof.
  induction weights as [|w rest IH]; intros r i0 cum i Hsel;
    simpl in Hsel; [discriminate|].
  destruct (Qle_bool r (cum + w)).
  - injection Hsel as <-. simpl. lia.
  - apply IH in Hsel. simpl. lia.
Qed.

Lemma selectIndex_bound (r : Q) :
  (selectIndex difficultyWeights r < 8)%nat.
Proof.
  unfold selectIndex.
  destruct (selectLoop difficultyWeights r 0 0) as [i|] eqn:Hsel;
    [|simpl; lia].
  apply selectLoop_range in Hsel. simpl in *. lia.
Qed.

(** C4: whatever the draw, the selected index is a valid index of the
    eight-entry placement table and the tier it designates has a positive
    weight; the two tiers of weight 0 (indices 6 and 7) are never chosen. *)
Theorem selectIndex_never_zero_weight (r : Q) :
  let i := selectIndex difficultyWeights r in
  (i < 8)%nat
  /\ i <> 6%nat /\ i <> 7%nat
  /\ (exists w, difficultyWeights !! i = Some w /\ (0 < w)%Q)
  /\ (forall x width : Q, is_Some (bonePositionOptions x width !! i))
  /\ length difficultyWeights = 8%nat
  /\ difficultyWeights !! 6%nat = Some 0.00%Q
  /\ difficultyWeights !! 7%nat = Some 0.00%Q.
Proof.
  intros i.
  assert (exists w, difficultyWeights !! i = Some w /\ (0 < w)%Q) as Hw.
  { subst i. unfold selectIndex.
    destruct (selectLoop difficultyWeights r 0 0) as [j|] eqn:Hsel.
    - destruct (Qlt_le_dec 0 r) as [Hpos | Hneg].
      + destruct (selectLoop_positive _ _ _ _ _ Hpos Hsel) as [_ Hex].
        rewrite Nat.sub_0_r in Hex. exact Hex.
      + assert (j = 0%nat) as ->.
        { simpl in Hsel.
          assert (Qle_bool r (0 + 0.45) = true) as Hb
            by (apply Qle_bool_iff; Lqa.lra).
          rewrite Hb in Hsel. congruence. }
        exists 0.45%Q. split; reflexivity.
    - exists 0.45%Q. split; reflexivity. }
  pose proof (selectIndex_bound r) as Hb. fold i in Hb.
  split; [exact Hb|].
  assert (i <> 6%nat /\ i <> 7%nat) as [H6 H7].
  { destruct Hw as [w [Hw Hpos]].
    split; intros ->; simpl in Hw; injection Hw as <-;
      vm_compute in Hpos; discriminate Hpos. }
  repeat split; try assumption; try reflexivity.
  intros x width.
  apply lookup_lt_is_Some. simpl. lia.
Qed.

(** ** Drawing random numbers does not touch the game state *)

Lemma withRandom_eq {A : Type} (f : nat -> A * nat) (s : State) :
  withRandom f s
  = (fst (f (randomCalls s)), setRandomCalls (snd (f (randomCalls s))) s).
Proof. unfold withRandom. destruct (f (randomCalls s)); reflexivity. Qed.

(** ** Currency exchange *)

Lemma exchange_failure (c s : State) :
  jsGt (Math_floor_div (totalCoinsCollected c) 1000) (Num 0) = false ->
  exchangeForDogevision c s
  = ({| success := false; dogevisionsAdded := Num 0; osSpent := Num 0 |}, s).
Proof. intros H. unfold exchangeForDogevision. now rewrite H. Qed.

Lemma exchange_success (c s : State) (T : Z) :
  totalCoinsCollected c = Num T -> 0 < T / 1000 ->
  let units := T / 1000 in
  let result := fst (exchangeForDogevision c s) in
  let s' := snd (exchangeForDogevision c s) in
  result = {| success := true; dogevisionsAdded := Num (units * 100);
              osSpent := Num (units * 1000) |}
  /\ totalCoinsCollected s' = Num (T - units * 1000)
  /\ dogevisions s' = jsAdd (dogevisions c) (Num (units * 100))
  /\ localStorage s' !! "dogeTotalCoins"
     = Some (toString (Num (T - units * 1000)))
  /\ localStorage s' !! "dogeDogevisions" = Some (toString (dogevisions s')).
Proof.
  intros HT Hpos. cbv zeta. unfold exchangeForDogevision.
  rewrite HT. cbn [Math_floor_div jsGt jsLt].
  replace (0 <? T / 1000) with true by (symmetry; apply Z.ltb_lt; lia).
  cbn [fst snd jsMul jsSub].
  repeat split.
  - unfold localStorage_setItem, setLocalStorage, setDogevisions,
      setTotalCoinsCollected. cbn.
    rewrite lookup_insert_ne by discriminate. apply lookup_insert_eq.
  - unfold localStorage_setItem, setLocalStorage, setDogevisions,
      setTotalCoinsCollected. cbn.
    apply lookup_insert_eq.
Qed.

(** C1, as stated, fails for a negative balance: with -5 in the store,
    [units = floor(-5 / 1000) = -1] is not 0, and yet the exchange returns
    the failure result, because its guard is [units > 0]. *)
Lemma exchange_negative_counterexample :
  ~ (forall (c s : State) (T : Z),
        totalCoinsCollected c = Num T ->
        T / 1000 <> 0 ->
        success (fst (exchangeForDogevision c s)) = true).
Proof.
  intros H.
  specialize (H (initialState (<["dogeTotalCoins" := "-5"]> ∅))
                (initialState (<["dogeTotalCoins" := "-5"]> ∅)) (-5)).
  specialize (H eq_refl). discriminate H. discriminate.
Qed.

(** C1, amended: with an integer balance [T] of total currency, the exchange
    computes [units = T / 1000] (rounded down).  With no positive unit
    ([units <= 0], that is [T < 1000], negative balances included) it
    returns the failure result with zero amounts and changes nothing;
    otherwise it returns the success result with [units * 1000] spent and
    [units * 100] credited, the total currency becomes [T - units * 1000]
    and the premium currency grows by [units * 100], both being written to
    the store, from which they read back unchanged.  From 2500: 2000 spent,
    200 credited, 500 left.  A balance that is [NaN] gives the failure
    result as well. *)
Theorem exchangeForDogevision_spec (c s : State) :
  let result := fst (exchangeForDogevision c s) in
  let s' := snd (exchangeForDogevision c s) in
  (forall T : Z,
      totalCoinsCollected c = Num T ->
      let units := T / 1000 in
      (units <= 0 ->
       result = {| success := false; dogevisionsAdded := Num 0;
                   osSpent := Num 0 |}
       /\ s' = s)
      /\ (0 < units ->
          result = {| success := true; dogevisionsAdded := Num (units * 100);
                      osSpent := Num (units * 1000) |}
          /\ totalCoinsCollected s' = Num (T - units * 1000)
          /\ dogevisions s' = jsAdd (dogevisions c) (Num (units * 100))
          /\ (forall P : Z, dogevisions c = Num P ->
                            dogevisions s' = Num (P + units * 100)
                            /\ readStored (localStorage s') "dogeDogevisions"
                               = Num (P + units * 100))
          /\ localStorage s' !! "dogeTotalCoins"
             = Some (toString (Num (T - units * 1000)))
          /\ localStorage s' !! "dogeDogevisions"
             = Some (toString (dogevisions s'))
          /\ readStored (localStorage s') "dogeTotalCoins"
             = Num (T - units * 1000))
      /\ (T = 2500 ->
          success result = true /\ osSpent result = Num 2000
          /\ dogevisionsAdded result = Num 200
          /\ totalCoinsCollected s' = Num 500))
  /\ (totalCoinsCollected c = NaN ->
      result = {| success := false; dogevisionsAdded := Num 0;
                  osSpent := Num 0 |}
      /\ s' = s).
Proof.
  intros result s'. split.
  - intros T HT units. split; [|split].
    + intros H0. subst result s'.
      rewrite exchange_failure; [split; reflexivity|].
      rewrite HT. cbn. fold units. apply Z.ltb_ge. exact H0.
    + intros Hpos.
      destruct (exchange_success c s T HT Hpos) as (Hr & Ht & Hd & Hl1 & Hl2).
      fold units in Hr, Ht, Hd, Hl1. fold result in Hr.
      fold s' in Ht, Hd, Hl1, Hl2.
      assert (forall P : Z, dogevisions c = Num P ->
                            dogevisions s' = Num (P + units * 100)) as HP
        by (intros P HP; rewrite Hd, HP; reflexivity).
      split; [exact Hr|]. split; [exact Ht|]. split; [exact Hd|].
      split; [|split; [exact Hl1|split; [exact Hl2|]]].
      * intros P HP0. split; [now apply HP|].
        apply readStored_written. rewrite Hl2, (HP P HP0). reflexivity.
      * now apply readStored_written.
    + intros ->.
      assert (0 < 2500 / 1000) as Hpos by reflexivity.
      destruct (exchange_success c s 2500 HT Hpos) as (Hr & Ht & _).
      fold result in Hr. fold s' in Ht. rewrite Hr, Ht. repeat split.
  - intros HT. subst result s'.
    rewrite exchange_failure; [split; reflexivity|].
    rewrite HT. reflexivity.
Qed.

Lemma exchangeForDogevision_spec_witness :
  let c := initialState (<["dogeTotalCoins" := "2500"]> ∅) in
  success (fst (exchangeForDogevision c c)) = true
  /\ osSpent (fst (exchangeForDogevision c c)) = Num 2000
  /\ dogevisionsAdded (fst (exchangeForDogevision c c)) = Num 200
  /\ totalCoinsCollected (snd (exchangeForDogevision c c)) = Num 500.
Proof.
  intros c.
  destruct (exchangeForDogevision_spec c c) as [H _].
  destruct (H 2500 eq_refl) as (_ & _ & H2500).
  apply H2500. reflexivity.
Defined.

(** The balance stays a non-negative integer: a fresh store starts it at
    0, and exchanging, buying and collecting keep it so. *)
Lemma initialState_balanceOk (store : gmap string string) :
  store !! "dogeTotalCoins" = None
  \/ (exists T : Z, 0 <= T
                    /\ store !! "dogeTotalCoins" = Some (toString (Num T))) ->
  balanceOk (initialState store).
Proof.
  intros [H | (T & HT & H)]; unfold balanceOk, initialState; cbn.
  - exists 0. split; [|lia]. apply readStored_absent. now left.
  - exists T. split; [|exact HT]. now apply readStored_written.
Qed.

Lemma exchange_balanceOk (c : State) :
  balanceOk c -> balanceOk (snd (exchangeForDogevision c c)).
Proof.
  intros (T & HT & Hnn).
  destruct (Z_le_gt_dec (T / 1000) 0) as [Hz | Hpos].
  - rewrite exchange_failure; [now exists T|].
    rewrite HT. cbn. apply Z.ltb_ge. exact Hz.
  - destruct (exchange_success c c T HT) as (_ & Ht & _); [lia|].
    exists (T - T / 1000 * 1000). split; [exact Ht|].
    rewrite (Z.div_mod T 1000) at 1 by lia.
    pose proof (Z.mod_pos_bound T 1000). lia.
Qed.

Lemma saveUses_totalCoins (powerId : string) (n : JSNumber) (s : State) :
  totalCoinsCollected (saveUses powerId n s) = totalCoinsCollected s.
Proof.
  unfold saveUses.
  repeat match goal with |- context [if ?b then _ else _] => destruct b end;
    reflexivity.
Qed.

Lemma buyPower_balanceOk (powerId : string) (c : State) :
  balanceOk c -> balanceOk (buyPower powerId c c).
Proof.
  intros (T & HT & Hnn). unfold buyPower.
  destruct (findPower powerId (availablePowers (shopState c))) as [power|];
    [|now exists T].
  rewrite HT. cbn [jsLt jsSub].
  destruct (T <? cost power) eqn:Hlt; [now exists T|].
  apply Z.ltb_ge in Hlt.
  exists (T - cost power). split; [|lia].
  unfold closeShop. cbn. apply saveUses_totalCoins.
Qed.

Lemma collectCoin_balanceOk (random : nat -> Q) (now : Z) (c : State)
    (i : nat) (coin : Collectible) (s : State) :
  balanceOk s -> balanceOk (collectCoin random now c i coin s).
Proof.
  intros (T & HT & Hnn). unfold collectCoin.
  destruct (collected coin || negb (active coin)); [now exists T|].
  rewrite withRandom_eq. cbn. rewrite HT.
  destruct (isPowerActive "double_collector" now (activePowers c));
    eexists; (split; [reflexivity | lia]).
Qed.

(** ** Powers: purchase and activation *)

Lemma usePower_no_uses (powerId : string) (now : Z) (c s : State) :
  match findPower powerId (availablePowers (shopState c)) with
  | Some power =>
      usesRemaining power = None \/ usesRemaining power = Some (Num 0)
  | None => True
  end ->
  usePower powerId now c s = s.
Proof.
  unfold usePower.
  destruct (findPower powerId (availablePowers (shopState c))) as [power|];
    [|reflexivity].
  intros [-> | ->]; reflexivity.
Qed.

Lemma buyPower_insufficient (powerId : string) (c s : State)
    (power : PowerUp) (T : Z) :
  findPower powerId (availablePowers (shopState c)) = Some power ->
  totalCoinsCollected c = Num T -> T < cost power ->
  buyPower powerId c s = s.
Proof.
  intros Hf HT Hlt. unfold buyPower. rewrite Hf, HT. cbn [jsLt].
  replace (T <? cost power) with true by (symmetry; apply Z.ltb_lt; lia).
  reflexivity.
Qed.

(** C8: using a power whose remaining uses are 0 or absent (or that is not
    in the catalogue), and buying a power with a balance strictly below its
    cost (or one that is not in the catalogue), return the state they were
    given: nothing changes, and as total functions they raise nothing. *)
Theorem power_noop (powerId : string) (now : Z) (c s : State) :
  (match findPower powerId (availablePowers (shopState c)) with
   | Some power =>
       usesRemaining power = None \/ usesRemaining power = Some (Num 0)
   | None => True
   end ->
   usePower powerId now c s = s)
  /\ (forall (power : PowerUp) (T : Z),
        findPower powerId (availablePowers (shopState c)) = Some power ->
        totalCoinsCollected c = Num T -> T < cost power ->
        buyPower powerId c s = s)
  /\ (findPower powerId (availablePowers (shopState c)) = None ->
      buyPower powerId c s = s).
Proof.
  split; [apply usePower_no_uses|]. split.
  - intros power T. apply buyPower_insufficient.
  - intros Hf. unfold buyPower. now rewrite Hf.
Qed.

Lemma power_noop_witness :
  let c := initialState (<["dogeTotalCoins" := "24"]> ∅) in
  usePower "double_collector" 1000 c c = c
  /\ buyPower "double_collector" c c = c.
Proof.
  intros c. split.
  - destruct (power_noop "double_collector" 1000 c c) as [H _].
    apply H. vm_compute. right. reflexivity.
  - destruct (power_noop "double_collector" 1000 c c) as [_ [H _]].
    eapply (H _ 24); [reflexivity | reflexivity | reflexivity].
Defined.

(** ** Jump *)

Lemma jump_grounded (random : nat -> Q) (c s : State) :
  isGrounded (player c) = true -> jumpCount (player c) = 0 ->
  let p' := player (jump random c s) in
  isGrounded p' = false /\ jumpCount p' = 1
  /\ vel_y (velocity p') = GAME_CONFIG.JUMP_FORCE
  /\ isJumping p' = true
  /\ position p' = position (player s)
  /\ vel_x (velocity p') = vel_x (velocity (player s))
  /\ width p' = width (player s) /\ height p' = height (player s)
  /\ maxJumps p' = maxJumps (player s).
Proof.
  intros Hg Hj. unfold jump. rewrite Hg, Hj. cbn [andb Z.eqb].
  rewrite withRandom_eq. cbn. repeat split.
Qed.

Lemma jump_refused (random : nat -> Q) (c s : State) :
  isGrounded (player c) = false \/ jumpCount (player c) <> 0 ->
  jump random c s = s.
Proof.
  intros H. unfold jump.
  destruct H as [-> | H]; [reflexivity|].
  apply Z.eqb_neq in H. rewrite H. now rewrite andb_false_r.
Qed.

(** C6: when the player is grounded with a jump count of 0, [jump] makes it
    airborne, sets the jump count to 1 and the vertical velocity to the
    upward impulse (-11), leaving its position untouched; in every other
    case [jump] returns the state unchanged. *)
Theorem jump_spec (random : nat -> Q) (c s : State) :
  (isGrounded (player c) = true -> jumpCount (player c) = 0 ->
   let p' := player (jump random c s) in
   isGrounded p' = false /\ jumpCount p' = 1
   /\ vel_y (velocity p') = GAME_CONFIG.JUMP_FORCE
   /\ (GAME_CONFIG.JUMP_FORCE == -11)%Q
   /\ position p' = position (player s)
   /\ vel_x (velocity p') = vel_x (velocity (player s)))
  /\ (isGrounded (player c) = false \/ jumpCount (player c) <> 0 ->
      jump random c s = s /\ player (jump random c s) = player s).
Proof.
  split.
  - intros Hg Hj.
    destruct (jump_grounded random c s Hg Hj)
      as (H1 & H2 & H3 & _ & H5 & H6 & _).
    repeat split; assumption || reflexivity.
  - intros H. rewrite (jump_refused random c s H). split; reflexivity.
Qed.

Lemma jump_spec_witness :
  let c := initialState ∅ in
  let airborne := jump (fun _ => 0%Q) c c in
  (isGrounded (player airborne) = false /\ jumpCount (player airborne) = 1
   /\ vel_y (velocity (player airborne)) = GAME_CONFIG.JUMP_FORCE)
  /\ jump (fun _ => 0%Q) airborne airborne = airborne.
Proof.
  intros c airborne. split.
  - destruct (jump_spec (fun _ => 0%Q) c c) as [H _].
    destruct (H eq_refl eq_refl) as (H1 & H2 & H3 & _).
    repeat split; assumption.
  - destruct (jump_spec (fun _ => 0%Q) airborne airborne) as [_ H].
    apply H. left. reflexivity.
Defined.

(** ** Collecting a bone *)

Lemma collectCoin_effect (random : nat -> Q) (now : Z) (c : State) (i : nat)
    (coin : Collectible) (s : State) :
  collected coin = false -> active coin = true ->
  let s' := collectCoin random now c i coin s in
  let double := isPowerActive "double_collector" now (activePowers c) in
  coins (gameState s') = coins (gameState s) + (if double then 2 else 1)
  /\ score (gameState s')
     = score (gameState s) + (if double then value coin * 2 else value coin)
  /\ totalCoinsCollected s'
     = jsAdd (totalCoinsCollected s) (Num (if double then 2 else 1))
  /\ localStorage s' !! "dogeTotalCoins"
     = Some (toString (totalCoinsCollected s'))
  /\ collectibles s' = alter markCollected i (collectibles s).
Proof.
  intros Hc Ha. cbv zeta. unfold collectCoin. rewrite Hc, Ha. cbn [orb negb].
  rewrite withRandom_eq. cbn.
  repeat split. apply lookup_insert_eq.
Qed.

(** C10: collecting an uncollected, active bone while the double collector
    is active adds 2 to the coins of the session and to the persisted total
    currency, and twice the value of the bone to the score; when the power
    is not active it adds 1 to each counter and the value to the score. *)
Theorem collectCoin_counters (random : nat -> Q) (now : Z) (c : State)
    (i : nat) (coin : Collectible) (s : State) :
  collected coin = false -> active coin = true ->
  let s' := collectCoin random now c i coin s in
  (isPowerActive "double_collector" now (activePowers c) = true ->
   coins (gameState s') = coins (gameState s) + 2
   /\ totalCoinsCollected s' = jsAdd (totalCoinsCollected s) (Num 2)
   /\ (forall T : Z, totalCoinsCollected s = Num T ->
                     totalCoinsCollected s' = Num (T + 2)
                     /\ localStorage s' !! "dogeTotalCoins"
                        = Some (pretty (T + 2)))
   /\ score (gameState s') = score (gameState s) + value coin * 2)
  /\ (isPowerActive "double_collector" now (activePowers c) = false ->
      coins (gameState s') = coins (gameState s) + 1
      /\ totalCoinsCollected s' = jsAdd (totalCoinsCollected s) (Num 1)
      /\ (forall T : Z, totalCoinsCollected s = Num T ->
                        totalCoinsCollected s' = Num (T + 1)
                        /\ localStorage s' !! "dogeTotalCoins"
                           = Some (pretty (T + 1)))
      /\ score (gameState s') = score (gameState s) + value coin).
Proof.
  intros Hc Ha s'.
  destruct (collectCoin_effect random now c i coin s Hc Ha)
    as (H1 & H2 & H3 & H4 & _).
  fold s' in H1, H2, H3, H4.
  split; intros Hd; rewrite Hd in H1, H2, H3;
    (split; [exact H1|]); (split; [exact H3|]); (split; [|exact H2]);
    intros T HT; rewrite HT in H3; cbn in H3;
    (split; [exact H3|]); rewrite H4, H3; reflexivity.
Qed.

Lemma collectCoin_counters_witness :
  let bone :=
    {| collectibleObject :=
         {| position := {| pos_x := 300; pos_y := 440 |};
            velocity := {| vel_x := 0; vel_y := 0 |};
            width := 65; height := 65; active := true |};
       collected := false; animation := 0; value := 10;
       magnetized := false |} in
  let c :=
    setActivePowers {["double_collector" := 31000]}
      (setCollectibles [bone] (initialState ∅)) in
  let s' := collectCoin (fun _ => 0%Q) 1000 c 0 bone c in
  coins (gameState s') = 2 /\ totalCoinsCollected s' = Num 2
  /\ score (gameState s') = 20.
Proof.
  intros bone c s'.
  destruct (collectCoin_counters (fun _ => 0%Q) 1000 c 0 bone c
              eq_refl eq_refl) as [H _].
  destruct (H eq_refl) as (H1 & H2 & _ & H4).
  repeat split; assumption.
Defined.

(** ** Lives *)

Lemma gameOver_effect (random : nat -> Q) (c s : State) :
  let s' := gameOver random c s in
  lives s' = 1 /\ maxLives s' = 1 /\ isInvulnerable s' = false
  /\ activePowers s' = ∅
  /\ isPlaying (gameState s') = false
  /\ gameOverFlag (gameState s') = true
  /\ highScore (gameState s')
     = Math_max (Num (score (gameState s))) (highScore (gameState s))
  /\ highCoins (gameState s')
     = Math_max (Num (coins (gameState s))) (highCoins (gameState s))
  /\ localStorage s' !! "dogeHighScore"
     = Some (toString (highScore (gameState s')))
  /\ localStorage s' !! "dogeHighCoins"
     = Some (toString (highCoins (gameState s')))
  /\ timers s' = timers s.
Proof.
  cbv zeta. unfold gameOver. rewrite withRandom_eq. cbn.
  repeat split.
  - rewrite lookup_insert_ne by discriminate. apply lookup_insert_eq.
  - apply lookup_insert_eq.
Qed.

Lemma loseLife_invulnerable (random : nat -> Q) (now : Z) (c s : State) :
  isInvulnerable c = true -> loseLife random now c s = s.
Proof. intros H. unfold loseLife. now rewrite H. Qed.

Lemma loseLife_decrement (random : nat -> Q) (now : Z) (c s : State) :
  isInvulnerable c = false -> 1 < lives c ->
  let s' := loseLife random now c s in
  lives s' = lives c - 1 /\ isInvulnerable s' = true
  /\ timers s' = timers s ++ [now + 2000]
  /\ maxLives s' = maxLives s /\ gameState s' = gameState s
  /\ activePowers s' = activePowers s.
Proof.
  intros Hi Hl. cbv zeta. unfold loseLife. rewrite Hi.
  replace (1 <? lives c) with true by (symmetry; apply Z.ltb_lt; lia).
  rewrite withRandom_eq. cbn. repeat split.
Qed.

Lemma loseLife_last (random : nat -> Q) (now : Z) (c s : State) :
  isInvulnerable c = false -> lives c <= 1 ->
  loseLife random now c s = gameOver random c s.
Proof.
  intros Hi Hl. unfold loseLife. rewrite Hi.
  replace (1 <? lives c) with false by (symmetry; apply Z.ltb_ge; lia).
  reflexivity.
Qed.

Lemma runTimers_before (now : Z) (s : State) :
  Forall (fun deadline => now < deadline) (timers s) -> runTimers now s = s.
Proof.
  intros H. unfold runTimers.
  replace (List.filter (fun deadline => deadline <=? now) (timers s))
    with (@nil Z); [reflexivity|].
  induction H as [|d ds Hd _ IH]; [reflexivity|]. simpl.
  replace (d <=? now) with false by (symmetry; apply Z.leb_gt; lia).
  exact IH.
Qed.

(** After a hit at [now] with no timer pending, the player stays
    invulnerable until [now + 2000] and is vulnerable again from then on. *)
Lemma invulnerability_window (random : nat -> Q) (now : Z) (s : State) :
  isInvulnerable s = false -> 1 < lives s -> timers s = [] ->
  let s' := loseLife random now s s in
  (forall t, t < now + 2000 -> runTimers t s' = s')
  /\ (forall t, now + 2000 <= t ->
                isInvulnerable (runTimers t s') = false
                /\ timers (runTimers t s') = []
                /\ lives (runTimers t s') = lives s - 1).
Proof.
  intros Hi Hl Ht s'.
  destruct (loseLife_decrement random now s s Hi Hl)
    as (H1 & H2 & H3 & _).
  fold s' in H1, H2, H3. rewrite Ht in H3. simpl in H3.
  split.
  - intros t Hlt. apply runTimers_before. rewrite H3.
    constructor; [lia | constructor].
  - intros t Hge. unfold runTimers. rewrite H3. simpl.
    replace (now + 2000 <=? t) with true by (symmetry; apply Z.leb_le; lia).
    replace (t <? now + 2000) with false by (symmetry; apply Z.ltb_ge; lia).
    cbn. repeat split. exact H1.
Qed.

(** C2: [loseLife] does nothing while the player is invulnerable; when the
    player is vulnerable with more than one life it removes exactly one life
    and makes the player invulnerable, a timer ending that state 2000 ms
    later; with exactly one life it is the game over, which leaves one life
    (never a negative count).  From three lives: a first hit leaves two
    lives and sets invulnerability, a hit inside the window changes nothing,
    and a hit after the window removes one more life. *)
Theorem loseLife_spec (random : nat -> Q) (now : Z) (c s : State) :
  (isInvulnerable c = true -> loseLife random now c s = s)
  /\ (isInvulnerable c = false -> 1 < lives c ->
      let s' := loseLife random now c s in
      lives s' = lives c - 1 /\ isInvulnerable s' = true
      /\ timers s' = timers s ++ [now + 2000])
  /\ (isInvulnerable c = false -> lives c = 1 ->
      let s' := loseLife random now c s in
      s' = gameOver random c s
      /\ lives s' = 1 /\ isPlaying (gameState s') = false
      /\ gameOverFlag (gameState s') = true)
  /\ (0 <= lives c -> 0 <= lives s -> 0 <= lives (loseLife random now c s))
  /\ (isInvulnerable c = false -> 1 < lives c -> timers c = [] ->
      let s' := loseLife random now c c in
      (forall t, t < now + 2000 -> isInvulnerable (runTimers t s') = true)
      /\ (forall t, now + 2000 <= t ->
                    isInvulnerable (runTimers t s') = false))
  /\ (lives c = 3 -> isInvulnerable c = false -> timers c = [] ->
      let s1 := loseLife random now c c in
      lives s1 = 2 /\ isInvulnerable s1 = true
      /\ (forall t, now <= t < now + 2000 ->
                    let s1' := runTimers t s1 in
                    loseLife random t s1' s1' = s1' /\ lives s1' = 2)
      /\ (forall t, now + 2000 <= t ->
                    let s2 := runTimers t s1 in
                    lives (loseLife random t s2 s2) = 1)).
Proof.
  split; [apply loseLife_invulnerable|].
  split.
  { intros Hi Hl.
    destruct (loseLife_decrement random now c s Hi Hl) as (H1 & H2 & H3 & _).
    repeat split; assumption. }
  split.
  { intros Hi Hl. cbv zeta.
    rewrite (loseLife_last random now c s Hi) by lia.
    destruct (gameOver_effect random c s) as (H1 & _ & _ & _ & H5 & H6 & _).
    repeat split; assumption. }
  split.
  { intros Hc Hs. destruct (isInvulnerable c) eqn:Hi.
    - now rewrite loseLife_invulnerable.
    - destruct (Z_lt_le_dec 1 (lives c)) as [Hl | Hl].
      + destruct (loseLife_decrement random now c s Hi Hl) as (H1 & _).
        rewrite H1. lia.
      + rewrite (loseLife_last random now c s Hi Hl).
        destruct (gameOver_effect random c s) as (H1 & _).
        rewrite H1. lia. }
  split.
  { intros Hi Hl Ht s'.
    destruct (invulnerability_window random now c Hi Hl Ht) as [Hin Hout].
    fold s' in Hin, Hout. split.
    - intros t Hlt. rewrite (Hin t Hlt).
      apply (loseLife_decrement random now c c Hi Hl).
    - intros t Hge. apply (Hout t Hge). }
  intros H3 Hi Ht s1.
  assert (1 < lives c) as Hl by lia.
  destruct (loseLife_decrement random now c c Hi Hl) as (H1 & H2 & _).
  fold s1 in H1, H2.
  destruct (invulnerability_window random now c Hi Hl Ht) as [Hin Hout].
  fold s1 in Hin, Hout.
  split; [lia|]. split; [exact H2|]. split.
  - intros t [_ Hlt]. cbv zeta. rewrite (Hin t Hlt).
    split; [now apply loseLife_invulnerable | lia].
  - intros t Hge s2.
    destruct (Hout t Hge) as (Hv & _ & Hlives). fold s2 in Hv, Hlives.
    assert (1 < lives s2) as Hl2 by lia.
    destruct (loseLife_decrement random t s2 s2 Hv Hl2) as (H & _).
    rewrite H. lia.
Qed.

Lemma loseLife_spec_witness :
  let c := setMaxLives 3 (setLives 3 (initialState ∅)) in
  let s1 := loseLife (fun _ => 0%Q) 1000 c c in
  lives s1 = 2 /\ isInvulnerable s1 = true
  /\ (forall t, 1000 <= t < 1000 + 2000 ->
                let s1' := runTimers t s1 in
                loseLife (fun _ => 0%Q) t s1' s1' = s1' /\ lives s1' = 2)
  /\ (forall t, 1000 + 2000 <= t ->
                let s2 := runTimers t s1 in
                lives (loseLife (fun _ => 0%Q) t s2 s2) = 1).
Proof.
  intros c.
  destruct (loseLife_spec (fun _ => 0%Q) 1000 c c) as (_ & _ & _ & _ & _ & H).
  apply H; reflexivity.
Defined.

(** *** Timers along a session

    The hypothesis of the window above, that no timer is pending when a
    vulnerable player is hit, holds in every state of a session. *)

(** What the invulnerability mechanism reads and writes. *)
Lemma gameLoop_guard (random : nat -> Q) (c s : State) :
  isInvulnerable (gameLoop random c s) = isInvulnerable s
  /\ timers (gameLoop random c s) = timers s.
Proof.
  unfold gameLoop. destruct (negb (isPlaying (gameState c))); [now split|].
  unfold scrollEntities, spawnObstacle.
  destruct (Qle_bool _ _); [rewrite !withRandom_eq|]; now split.
Qed.

Lemma jump_guard (random : nat -> Q) (c s : State) :
  isInvulnerable (jump random c s) = isInvulnerable s
  /\ timers (jump random c s) = timers s.
Proof.
  unfold jump.
  destruct (isGrounded (player c) && (jumpCount (player c) =? 0));
    [rewrite withRandom_eq|]; now split.
Qed.

Lemma collectCoin_guard (random : nat -> Q) (now : Z) (c : State) (i : nat)
    (coin : Collectible) (s : State) :
  isInvulnerable (collectCoin random now c i coin s) = isInvulnerable s
  /\ timers (collectCoin random now c i coin s) = timers s.
Proof.
  unfold collectCoin. destruct (collected coin || negb (active coin));
    [|rewrite withRandom_eq]; now split.
Qed.

Lemma touches_guard (random : nat -> Q) (now : Z) (c : State)
    (entries : list (nat * Collectible)) :
  forall s,
    isInvulnerable (foldl (touchCoin random now c) s entries)
    = isInvulnerable s
    /\ timers (foldl (touchCoin random now c) s entries) = timers s.
Proof.
  induction entries as [|[j cn] entries IH]; intros s; cbn [foldl];
    [now split|].
  destruct (IH (touchCoin random now c s (j, cn))) as [-> ->].
  unfold touchCoin.
  destruct (negb (collected cn) && active cn); [|now split].
  destruct (isPowerActive "magnetic_collector" now (activePowers c)).
  - destruct (withinRange _ _ _); [apply collectCoin_guard | now split].
  - destruct (checkCollision (player c) cn);
      [apply collectCoin_guard | now split].
Qed.

Lemma hits_settled (random : nat -> Q) (now : Z) (c : State)
    (obs : list Obstacle) :
  timersSettled c ->
  timersSettled (foldl (hitObstacle random now c) c obs).
Proof.
  intros Hc.
  destruct (isInvulnerable c) eqn:Hi.
  - (* every hit is ignored *)
    assert (forall s, foldl (hitObstacle random now c) s obs = s) as ->;
      [|exact Hc].
    induction obs as [|o obs IH]; intros s; simpl; [reflexivity|].
    rewrite IH. unfold hitObstacle.
    destruct (checkCollision (player c) o); [|reflexivity].
    now apply loseLife_invulnerable.
  - destruct Hc as [_ Hquiet]. specialize (Hquiet Hi).
    destruct (Z_lt_le_dec 1 (lives c)) as [Hl | Hl].
    + (* every hit schedules the same deadline *)
      assert (forall s,
                 Forall (fun t => t = now + 2000) (timers s) ->
                 (isInvulnerable s = false -> timers s = []) ->
                 timersSettled (foldl (hitObstacle random now c) s obs))
        as Hfold.
      { induction obs as [|o obs IH]; intros s Hall Hq; simpl.
        - split; [now exists (now + 2000) | exact Hq].
        - unfold hitObstacle at 2.
          destruct (checkCollision (player c) o); [|now apply IH].
          destruct (loseLife_decrement random now c s Hi Hl)
            as (_ & Hinv & Ht & _).
          apply IH.
          + rewrite Ht. apply Forall_app. split; [exact Hall|].
            now constructor.
          + rewrite Hinv. discriminate. }
      apply Hfold; [rewrite Hquiet; constructor | now intros _].
    + (* every hit ends the game *)
      assert (forall s,
                 timers s = [] -> isInvulnerable s = false ->
                 timersSettled (foldl (hitObstacle random now c) s obs))
        as Hfold.
      { induction obs as [|o obs IH]; intros s Ht Hv; simpl.
        - split; [exists 0; rewrite Ht; constructor | now intros _].
        - unfold hitObstacle at 2.
          destruct (checkCollision (player c) o); [|now apply IH].
          rewrite (loseLife_last random now c s Hi Hl).
          destruct (gameOver_effect random c s)
            as (_ & _ & Hv' & _ & _ & _ & _ & _ & _ & _ & Ht').
          apply IH; [now rewrite Ht' | exact Hv']. }
      now apply Hfold.
Qed.

Lemma runTimers_settled (now : Z) (s : State) :
  timersSettled s -> timersSettled (runTimers now s).
Proof.
  intros [[d Hd] Hq]. unfold runTimers.
  destruct (List.filter (fun deadline => deadline <=? now) (timers s))
    as [|t due] eqn:Hdue; [split; [now exists d | exact Hq]|].
  assert (List.filter (fun deadline => now <? deadline) (timers s) = [])
    as ->.
  { assert (d <= now) as Hle.
    { assert (In t (List.filter (fun deadline => deadline <=? now) (timers s)))
        as Hin by (rewrite Hdue; now left).
      apply filter_In in Hin as [Hin Hb]. apply Z.leb_le in Hb.
      rewrite Forall_forall in Hd. apply list_elem_of_In in Hin.
      now rewrite <- (Hd t Hin). }
    clear Hdue Hq. induction Hd as [|t' ts -> _ IH]; [reflexivity|]. simpl.
    replace (now <? d) with false by (symmetry; apply Z.ltb_ge; lia).
    exact IH. }
  split; [exists 0; constructor | now intros _].
Qed.

Lemma handle_settled (random : nat -> Q) (e : Event) (s : State) :
  timersSettled s -> timersSettled (handle random e s).
Proof.
  intros Hs. destruct e as [| |now|now|now]; simpl.
  - destruct (gameLoop_guard random s s) as [Hv Ht].
    unfold timersSettled. now rewrite Hv, Ht.
  - destruct (jump_guard random s s) as [Hv Ht].
    unfold timersSettled. now rewrite Hv, Ht.
  - unfold collisionEffect.
    destruct (negb (isPlaying (gameState s))); [exact Hs|].
    destruct (touches_guard random now s (imap pair (collectibles s))
                (foldl (hitObstacle random now s) s (obstacles s)))
      as [Hv Ht].
    unfold timersSettled. rewrite Hv, Ht. now apply hits_settled.
  - now apply runTimers_settled.
  - unfold checkPowerExpiration.
    repeat match goal with |- context [if ?b then _ else _] => destruct b end;
      exact Hs.
Qed.

Lemma usePower_guard (powerId : string) (now : Z) (c s : State) :
  isInvulnerable (usePower powerId now c s) = isInvulnerable s
  /\ timers (usePower powerId now c s) = timers s.
Proof.
  unfold usePower, saveUses.
  repeat match goal with
         | |- context [match ?x with _ => _ end] => destruct x
         end; now split.
Qed.

Lemma startGame_settled (now : Z) (c : State) :
  isInvulnerable c = false -> timersSettled c ->
  timersSettled (startGame now c c).
Proof.
  intros Hv [Hd Hq]. specialize (Hq Hv).
  assert (timers (startGame now c c) = []) as Ht.
  { unfold startGame, autoActivate.
    repeat match goal with
           | |- context [match ?x with _ => _ end] => destruct x
           end;
      rewrite ?(proj2 (usePower_guard _ _ _ _)); exact Hq. }
  split; [exists 0; rewrite Ht; constructor | now intros _].
Qed.

(** In every state reached from the start of a game, a vulnerable player
    has no timer pending. *)
Lemma session_settled (random : nat -> Q) (events : list Event)
    (now : Z) (c : State) :
  isInvulnerable c = false -> timersSettled c ->
  timersSettled (run random events (startGame now c c)).
Proof.
  intros Hv Hc.
  pose proof (startGame_settled now c Hv Hc) as Hstart.
  revert Hstart. generalize (startGame now c c).
  induction events as [|e rest IH]; intros s Hs; [exact Hs|].
  change (run random (e :: rest) s) with (run random rest (handle random e s)).
  apply IH. now apply handle_settled.
Qed.

Lemma initialState_settled (store : gmap string string) :
  isInvulnerable (initialState store) = false
  /\ timersSettled (initialState store).
Proof.
  split; [reflexivity|].
  split; [exists 0; constructor | reflexivity].
Qed.

(** ** The collision pass *)

Lemma Qlt_bool_iff (a b : Q) : Qlt_bool a b = true <-> (a < b)%Q.
Proof.
  unfold Qlt_bool. rewrite negb_true_iff. split.
  - intros H. apply Qnot_le_lt. intros Hc. apply Qle_bool_iff in Hc. congruence.
  - intros H. destruct (Qle_bool b a) eqn:E; [|reflexivity].
    apply Qle_bool_iff in E. Lqa.lra.
Qed.

Lemma checkCollision_spec (a b : GameObject) :
  checkCollision a b = true <-> intersects a b.
Proof.
  unfold checkCollision, intersects.
  rewrite !andb_true_iff, !Qlt_bool_iff. tauto.
Qed.

Lemma checkCollision_sym (a b : GameObject) :
  checkCollision a b = checkCollision b a.
Proof.
  apply eq_true_iff_eq. rewrite !checkCollision_spec.
  unfold intersects. tauto.
Qed.

(** Boxes that only share an edge do not collide. *)
Lemma checkCollision_touching (a b : GameObject) :
  (pos_x (position a) + width a == pos_x (position b))%Q ->
  checkCollision a b = false.
Proof.
  intros Hedge. destruct (checkCollision a b) eqn:E; [|reflexivity].
  apply checkCollision_spec in E. destruct E as (_ & H & _).
  rewrite Hedge in H. exfalso. revert H. apply Qlt_irrefl.
Qed.

Lemma withinRange_sqrt (dx dy : Q) :
  withinRange dx dy MAGNETIC_RANGE = true
  <-> (sqrt (Q2R (dx * dx + dy * dy)) <= 150)%R.
Proof.
  unfold withinRange, MAGNETIC_RANGE.
  change (Qle_bool 0 150) with true. cbn [andb].
  rewrite Qle_bool_iff.
  assert (0 <= Q2R (dx * dx + dy * dy))%R as Hnn.
  { replace 0%R with (Q2R 0) by (unfold Q2R; simpl; apply Rmult_0_l).
    apply Qle_Rle. Lqa.nra. }
  assert (Q2R (150 * 150) = (150 * 150)%R) as H150.
  { rewrite Q2R_mult. assert (Q2R 150 = 150%R) as -> by (unfold Q2R; simpl; field). reflexivity. }
  split.
  - intros H. apply Qle_Rle in H. rewrite H150 in H.
    rewrite <- (sqrt_square 150) by Lra.lra.
    now apply sqrt_le_1_alt.
  - intros H. apply Rle_Qle. rewrite H150.
    rewrite <- (sqrt_sqrt (Q2R (dx * dx + dy * dy))) by exact Hnn.
    apply Rmult_le_compat; try apply sqrt_pos; exact H.
Qed.

Lemma foldl_collect_untouched (wants : Collectible -> bool)
    (entries : list (nat * Collectible)) :
  forall (l : list Collectible) (i : nat),
    Forall (fun e => e.1 <> i) entries ->
    foldl (collectStep wants) l entries !! i = l !! i.
Proof.
  induction entries as [|[j cn] entries IH]; intros l i HF; simpl;
    [reflexivity|].
  inversion HF as [|? ? Hj HF']; subst. rewrite IH by exact HF'.
  unfold collectStep. simpl. destruct (wants cn); [|reflexivity].
  now apply list_lookup_alter_ne.
Qed.

Lemma foldl_collect_lookup (wants : Collectible -> bool)
    (l : list Collectible) (i : nat) (coin : Collectible) :
  l !! i = Some coin ->
  foldl (collectStep wants) l (imap pair l) !! i
  = Some (if wants coin then markCollected coin else coin).
Proof.
  intros Hi.
  pose proof (take_drop_middle l i coin Hi) as Hsplit.
  pose proof (lookup_lt_Some _ _ _ Hi) as Hlen.
  assert (length (take i l) = i) as Htake by (rewrite length_take; lia).
  rewrite <- Hsplit at 2.
  rewrite imap_app, foldl_app, imap_cons. simpl.
  rewrite Htake, Nat.add_0_r.
  rewrite foldl_collect_untouched.
  - unfold collectStep at 1. simpl.
    assert (foldl (collectStep wants) l (imap pair (take i l)) !! i = Some coin) as Hpre.
    { rewrite foldl_collect_untouched; [exact Hi|].
      apply Forall_forall. intros e He.
      apply elem_of_lookup_imap in He as (j & y & -> & Hj). simpl.
      apply lookup_lt_Some in Hj. rewrite length_take in Hj. lia. }
    destruct (wants coin); [|exact Hpre].
    rewrite list_lookup_alter_eq, Hpre. reflexivity.
  - apply Forall_forall. intros e He.
    apply elem_of_lookup_imap in He as (j & y & -> & Hj). simpl. lia.
Qed.

Lemma gameOver_collectibles (random : nat -> Q) (c s : State) :
  collectibles (gameOver random c s) = collectibles s.
Proof. unfold gameOver. rewrite withRandom_eq. reflexivity. Qed.

Lemma loseLife_collectibles (random : nat -> Q) (now : Z) (c s : State) :
  collectibles (loseLife random now c s) = collectibles s.
Proof.
  unfold loseLife. destruct (isInvulnerable c); [reflexivity|].
  destruct (1 <? lives c); [|apply gameOver_collectibles].
  rewrite withRandom_eq. reflexivity.
Qed.

Lemma hits_collectibles (random : nat -> Q) (now : Z) (c : State)
    (obs : list Obstacle) :
  forall s, collectibles (foldl (hitObstacle random now c) s obs)
            = collectibles s.
Proof.
  induction obs as [|o obs IH]; intros s; simpl; [reflexivity|].
  rewrite IH. unfold hitObstacle.
  destruct (checkCollision (player c) o); [|reflexivity].
  apply loseLife_collectibles.
Qed.

Lemma touchCoin_collectibles (random : nat -> Q) (now : Z) (c s : State)
    (entry : nat * Collectible) :
  collectibles (touchCoin random now c s entry)
  = collectStep (collectsCoin now c) (collectibles s) entry.
Proof.
  destruct entry as [j cn].
  unfold touchCoin, collectStep, collectsCoin. simpl.
  destruct (collected cn) eqn:Hc; [reflexivity|].
  destruct (active cn) eqn:Ha; [|reflexivity].
  cbn [negb andb].
  destruct (isPowerActive "magnetic_collector" now (activePowers c)).
  - destruct (withinRange _ _ _); [|reflexivity].
    apply (collectCoin_effect random now c j cn s Hc Ha).
  - destruct (checkCollision (player c) cn); [|reflexivity].
    apply (collectCoin_effect random now c j cn s Hc Ha).
Qed.

Lemma touches_collectibles (random : nat -> Q) (now : Z) (c : State)
    (entries : list (nat * Collectible)) :
  forall s, collectibles (foldl (touchCoin random now c) s entries)
            = foldl (collectStep (collectsCoin now c)) (collectibles s) entries.
Proof.
  induction entries as [|e entries IH]; intros s; simpl; [reflexivity|].
  now rewrite IH, touchCoin_collectibles.
Qed.

Lemma collisionEffect_collectibles (random : nat -> Q) (now : Z) (c : State)
    (i : nat) (coin : Collectible) :
  isPlaying (gameState c) = true ->
  collectibles c !! i = Some coin ->
  collectibles (collisionEffect random now c) !! i
  = Some (if collectsCoin now c coin then markCollected coin else coin).
Proof.
  intros Hp Hi. unfold collisionEffect. rewrite Hp. cbn [negb].
  rewrite touches_collectibles, hits_collectibles.
  now apply foldl_collect_lookup.
Qed.

Ltac halves := unfold Qdiv in *; change (/ 2)%Q with (1 # 2)%Q in *.

Lemma intersects_close (a b : GameObject) :
  intersects a b ->
  (squaredDistance a b
   < (width a + width b) / 2 * ((width a + width b) / 2)
     + (height a + height b) / 2 * ((height a + height b) / 2))%Q.
Proof.
  unfold intersects, squaredDistance, centerX, centerY.
  intros (H1 & H2 & H3 & H4). halves.
  set (dx := (pos_x (position a) + width a * (1 # 2)
              - (pos_x (position b) + width b * (1 # 2)))%Q).
  set (dy := (pos_y (position a) + height a * (1 # 2)
              - (pos_y (position b) + height b * (1 # 2)))%Q).
  set (W := ((width a + width b) * (1 # 2))%Q).
  set (H := ((height a + height b) * (1 # 2))%Q).
  assert (0 < (W - dx) * (W + dx))%Q as HX
    by (apply Qmult_lt_0_compat; unfold W, dx; Lqa.lra).
  assert (0 < (H - dy) * (H + dy))%Q as HY
    by (apply Qmult_lt_0_compat; unfold H, dy; Lqa.lra).
  Lqa.lra.
Qed.

Lemma markCollected_changes (coin : Collectible) :
  collected coin = false -> markCollected coin <> coin.
Proof. intros H E. rewrite <- E in H. discriminate H. Qed.

(** C5: in a collision pass of a running game, an uncollected active
    collectible is collected (its entry becomes the marked copy) exactly
    when, with the magnet active, the distance between the centre of the
    player and its own centre is at most 150, and, with the magnet inactive,
    its box intersects the box of the player.  At a distance of 140 the
    magnet collects it; at 160 it is left alone, with or without the magnet
    (without it, objects of the sizes of the game do not touch at 160). *)
Theorem collisionEffect_collection (random : nat -> Q) (now : Z) (c : State)
    (i : nat) (coin : Collectible) :
  isPlaying (gameState c) = true ->
  collectibles c !! i = Some coin ->
  collected coin = false -> active coin = true ->
  let s' := collisionEffect random now c in
  let isCollected := collectibles s' !! i = Some (markCollected coin) in
  let untouched := collectibles s' !! i = Some coin in
  (isCollected \/ untouched) /\ (isCollected -> ~ untouched)
  /\ (isPowerActive "magnetic_collector" now (activePowers c) = true ->
      (isCollected
       <-> (sqrt (Q2R (squaredDistance (player c) coin)) <= 150)%R)
      /\ (squaredDistance (player c) coin == 140 * 140 -> isCollected)%Q
      /\ (squaredDistance (player c) coin == 160 * 160 -> untouched)%Q)
  /\ (isPowerActive "magnetic_collector" now (activePowers c) = false ->
      (isCollected <-> intersects (player c) coin)
      /\ (width (player c) == 60 -> height (player c) == 70 ->
          width coin == 65 -> height coin == 65 ->
          squaredDistance (player c) coin == 160 * 160 -> untouched)%Q).
Proof.
  intros Hp Hi Hc Ha s' isCollected untouched.
  pose proof (collisionEffect_collectibles random now c i coin Hp Hi) as Hs.
  fold s' in Hs.
  pose proof (markCollected_changes coin Hc) as Hne.
  assert (isCollected <-> collectsCoin now c coin = true) as Hiff.
  { unfold isCollected. rewrite Hs.
    destruct (collectsCoin now c coin); split; congruence. }
  assert (untouched <-> collectsCoin now c coin = false) as Hun.
  { unfold untouched. rewrite Hs.
    destruct (collectsCoin now c coin); split; congruence. }
  split; [destruct (collectsCoin now c coin); tauto|].
  split; [rewrite Hiff, Hun; congruence|].
  unfold collectsCoin in Hiff, Hun. rewrite Hc, Ha in Hiff, Hun.
  cbn [negb andb] in Hiff, Hun.
  split; intros Hm; rewrite Hm in Hiff, Hun.
  - assert (isCollected
            <-> (squaredDistance (player c) coin <= 150 * 150)%Q) as Hq.
    { rewrite Hiff. unfold withinRange, MAGNETIC_RANGE.
      change (Qle_bool 0 150) with true. cbn [andb].
      apply Qle_bool_iff. }
    split; [rewrite Hiff; apply withinRange_sqrt|].
    split.
    + intros Hd. apply Hq. rewrite Hd. discriminate.
    + intros Hd. apply Hun.
      destruct (withinRange _ _ _) eqn:E; [|reflexivity].
      exfalso. assert isCollected as Hcol by (apply Hiff; reflexivity).
      apply Hq in Hcol. rewrite Hd in Hcol. apply Hcol. reflexivity.
  - split; [rewrite Hiff; apply checkCollision_spec|].
    intros Hw Hh Hcw Hch Hd. apply Hun.
    destruct (checkCollision (player c) coin) eqn:E; [|reflexivity].
    exfalso. apply checkCollision_spec, intersects_close in E.
    rewrite Hd, Hw, Hh, Hcw, Hch in E. revert E. apply Qle_not_lt.
    discriminate.
Qed.

Lemma collisionEffect_collection_witness :
  let start := initialState ∅ in
  let c :=
    setCollectibles [boneAt 237.5 432.5; boneAt 257.5 432.5]
      (setActivePowers {["magnetic_collector" := 999000]}
         (startGame 0 start start)) in
  let s' := collisionEffect (fun _ => 0%Q) 1000 c in
  collectibles s' !! 0%nat = Some (markCollected (boneAt 237.5 432.5))
  /\ collectibles s' !! 1%nat = Some (boneAt 257.5 432.5).
Proof.
  intros start c s'. split.
  - destruct (collisionEffect_collection (fun _ => 0%Q) 1000 c 0
                (boneAt 237.5 432.5) eq_refl eq_refl eq_refl eq_refl)
      as (_ & _ & H & _).
    destruct (H eq_refl) as (_ & H140 & _). apply H140. reflexivity.
  - destruct (collisionEffect_collection (fun _ => 0%Q) 1000 c 1
                (boneAt 257.5 432.5) eq_refl eq_refl eq_refl eq_refl)
      as (_ & _ & H & _).
    destruct (H eq_refl) as (_ & _ & H160). apply H160. reflexivity.
Defined.

(** ** The spawner *)

Lemma spawnObstacle_idle (random : nat -> Q) (c s : State) :
  spawnDue c = false -> spawnObstacle random c s = s.
Proof. unfold spawnDue, spawnObstacle. now intros ->. Qed.

Lemma spawnObstacle_due (random : nat -> Q) (c s : State) :
  spawnDue c = true ->
  exists (o : Obstacle) (b : Collectible),
    obstacles (spawnObstacle random c s) = obstacles s ++ [o]
    /\ collectibles (spawnObstacle random c s) = collectibles s ++ [b]
    /\ nextObstacleX (spawnObstacle random c s)
       = (nextObstacleX c + 60 + 200)%Q
    /\ worldOffset (spawnObstacle random c s) = worldOffset s
    /\ pos_x (position o) = (nextObstacleX c - worldOffset c)%Q
    /\ width o = 60%Q
    /\ collected b = false /\ active b = true.
Proof.
  unfold spawnDue, spawnObstacle. intros ->.
  rewrite !withRandom_eq. cbn.
  eexists. eexists. repeat split.
Qed.

Lemma advanceWorld_effect (c s : State) :
  obstacles (advanceWorld c s) = obstacles s
  /\ collectibles (advanceWorld c s) = collectibles s
  /\ nextObstacleX (advanceWorld c s) = nextObstacleX s
  /\ worldOffset (advanceWorld c s)
     = (worldOffset s + getGameSpeed (inject_Z (score (gameState c))))%Q.
Proof. repeat split. Qed.

Lemma scrollEntities_effect (c s : State) :
  obstacles (scrollEntities c s)
  = List.filter (fun obstacle : Obstacle => negb (isOffScreen obstacle))
      (List.map (scrollObstacle (getGameSpeed (inject_Z (score (gameState c)))))
         (obstacles s))
  /\ nextObstacleX (scrollEntities c s) = nextObstacleX s
  /\ worldOffset (scrollEntities c s) = worldOffset s.
Proof. repeat split. Qed.

Lemma gameOver_view (random : nat -> Q) (c s : State) :
  spawnerView (gameOver random c s) = spawnerView s.
Proof. unfold gameOver. rewrite withRandom_eq. reflexivity. Qed.

Lemma loseLife_view (random : nat -> Q) (now : Z) (c s : State) :
  spawnerView (loseLife random now c s) = spawnerView s.
Proof.
  unfold loseLife. destruct (isInvulnerable c); [reflexivity|].
  destruct (1 <? lives c); [|apply gameOver_view].
  rewrite withRandom_eq. reflexivity.
Qed.

Lemma collectCoin_view (random : nat -> Q) (now : Z) (c : State) (i : nat)
    (coin : Collectible) (s : State) :
  spawnerView (collectCoin random now c i coin s) = spawnerView s.
Proof.
  unfold collectCoin. destruct (collected coin || negb (active coin));
    [reflexivity|].
  rewrite withRandom_eq. reflexivity.
Qed.

Lemma jump_view (random : nat -> Q) (c s : State) :
  spawnerView (jump random c s) = spawnerView s.
Proof.
  unfold jump. destruct (isGrounded (player c) && (jumpCount (player c) =? 0));
    [|reflexivity].
  rewrite withRandom_eq. reflexivity.
Qed.

Lemma collisionEffect_view (random : nat -> Q) (now : Z) (c : State) :
  spawnerView (collisionEffect random now c) = spawnerView c.
Proof.
  unfold collisionEffect. destruct (negb (isPlaying (gameState c)));
    [reflexivity|].
  assert (forall obs s, spawnerView (foldl (hitObstacle random now c) s obs)
                        = spawnerView s) as Hhits.
  { induction obs as [|o obs IH]; intros s; simpl; [reflexivity|].
    rewrite IH. unfold hitObstacle.
    destruct (checkCollision (player c) o); [apply loseLife_view | reflexivity]. }
  assert (forall entries s,
             spawnerView (foldl (touchCoin random now c) s entries)
             = spawnerView s) as Htouch.
  { induction entries as [|[j cn] entries IH]; intros s; simpl; [reflexivity|].
    rewrite IH.
    destruct (negb (collected cn) && active cn); [|reflexivity].
    destruct (isPowerActive "magnetic_collector" now (activePowers c)).
    - destruct (withinRange _ _ _); [apply collectCoin_view | reflexivity].
    - destruct (checkCollision (player c) cn);
        [apply collectCoin_view | reflexivity]. }
  now rewrite Htouch, Hhits.
Qed.

Lemma runTimers_view (now : Z) (s : State) :
  spawnerView (runTimers now s) = spawnerView s.
Proof.
  unfold runTimers.
  destruct (List.filter (fun deadline => deadline <=? now) (timers s));
    reflexivity.
Qed.

Lemma checkPowerExpiration_view (now : Z) (s : State) :
  spawnerView (checkPowerExpiration now s) = spawnerView s.
Proof.
  unfold checkPowerExpiration.
  repeat match goal with |- context [if ?b then _ else _] => destruct b end;
    reflexivity.
Qed.

Lemma handle_view (random : nat -> Q) (e : Event) (s : State) :
  e <> Frame -> spawnerView (handle random e s) = spawnerView s.
Proof.
  destruct e; intros He; simpl; [congruence | apply jump_view
    | apply collisionEffect_view | apply runTimers_view
    | apply checkPowerExpiration_view].
Qed.

(** One event: what it creates and how far the cursor moves. *)
Lemma handle_spawn (random : nat -> Q) (e : Event) (s : State) :
  (e = Frame /\ isPlaying (gameState s) = true /\ spawnDue s = true
   /\ exists (o : Obstacle) (b : Collectible),
        obstaclesSpawned random e s = [o]
        /\ collectiblesSpawned random e s = [b]
        /\ width o = 60%Q
        /\ (worldX (worldOffset s) o == nextObstacleX s)%Q
        /\ nextObstacleX (handle random e s) = (nextObstacleX s + 60 + 200)%Q)
  \/ (obstaclesSpawned random e s = []
      /\ collectiblesSpawned random e s = []
      /\ nextObstacleX (handle random e s) = nextObstacleX s).
Proof.
  assert (e <> Frame ->
          obstaclesSpawned random e s = []
          /\ collectiblesSpawned random e s = []
          /\ nextObstacleX (handle random e s) = nextObstacleX s) as Hother.
  { intros He.
    assert (nextObstacleX (handle random e s) = nextObstacleX s) as Hn.
    { pose proof (handle_view random e s He) as Hv.
      unfold spawnerView in Hv. congruence. }
    destruct e; try congruence; repeat split; exact Hn. }
  destruct e; try (right; apply Hother; discriminate).
  clear Hother. simpl. unfold gameLoop.
  destruct (isPlaying (gameState s)) eqn:Hp; [|right; repeat split].
  cbn [negb].
  destruct (spawnDue s) eqn:Hd.
  - left. split; [reflexivity|]. split; [reflexivity|].
    split; [reflexivity|].
    destruct (spawnObstacle_due random s (advanceWorld s s) Hd)
      as (o & b & Ho & Hb & Hn & _ & Hx & Hw & _).
    exists o, b. rewrite Ho, Hb.
    rewrite !drop_app_length. repeat split; try assumption.
    unfold worldX. rewrite Hx. ring.
  - right. rewrite (spawnObstacle_idle random s _ Hd).
    rewrite !drop_all. repeat split.
Qed.

Lemma inject_Z_of_nat_S (k : nat) :
  (inject_Z (Z.of_nat (S k)) == inject_Z (Z.of_nat k) + 1)%Q.
Proof.
  rewrite Nat2Z.inj_succ. unfold Z.succ. rewrite inject_Z_plus. reflexivity.
Qed.

Lemma created_progression (random : nat -> Q) (events : list Event) :
  forall s : State,
    length (collectiblesCreated random events s)
    = length (obstaclesCreated random events s)
    /\ (nextObstacleX (run random events s)
        == nextObstacleX s
           + inject_Z (Z.of_nat (length (obstaclesCreated random events s)))
             * SPAWN_SPACING)%Q
    /\ (forall (k : nat) (x : Q),
          obstaclesCreated random events s !! k = Some x ->
          (x == nextObstacleX s + inject_Z (Z.of_nat k) * SPAWN_SPACING)%Q).
Proof.
  unfold SPAWN_SPACING.
  induction events as [|e rest IH]; intros s.
  - simpl. repeat split; [ring | intros k x Hk; discriminate Hk].
  - destruct (IH (handle random e s)) as (IHlen & IHcur & IHat).
    change (run random (e :: rest) s) with (run random rest (handle random e s)).
    cbn [obstaclesCreated collectiblesCreated].
    destruct (handle_spawn random e s)
      as [(_ & _ & _ & o & b & -> & -> & _ & Hx & Hn) | (-> & -> & Hn)].
    + cbn [List.map app length]. split; [now rewrite IHlen|]. split.
      * rewrite IHcur, Hn, inject_Z_of_nat_S. ring.
      * intros [|k] x Hk.
        -- injection Hk as <-. simpl. ring.
        -- apply IHat in Hk. rewrite Hk, Hn, inject_Z_of_nat_S. ring.
    + cbn [List.map app]. rewrite <- Hn. repeat split; assumption.
Qed.

Lemma frame_obstacles (random : nat -> Q) (s : State) :
  isPlaying (gameState s) = true ->
  obstacles (handle random Frame s)
  = List.filter (fun obstacle : Obstacle => negb (isOffScreen obstacle))
      (List.map
         (scrollObstacle (getGameSpeed (inject_Z (score (gameState s)))))
         (obstacles s ++ obstaclesSpawned random Frame s))
  /\ worldOffset (handle random Frame s)
     = (worldOffset s + getGameSpeed (inject_Z (score (gameState s))))%Q.
Proof.
  intros Hp. simpl. unfold gameLoop. rewrite Hp. cbn [negb].
  destruct (spawnDue s) eqn:Hd.
  - destruct (spawnObstacle_due random s (advanceWorld s s) Hd)
      as (o & b & Ho & _ & _ & Hw & _).
    split.
    + cbn [scrollEntities obstacles setGameState setParticles
           setCollectibles setObstacles]. rewrite Ho.
      rewrite drop_app_length. reflexivity.
    + change (worldOffset (scrollEntities s
                (spawnObstacle random s (advanceWorld s s))))
        with (worldOffset (spawnObstacle random s (advanceWorld s s))).
      rewrite Hw. reflexivity.
  - rewrite (spawnObstacle_idle random s _ Hd).
    rewrite drop_all, app_nil_r. split; reflexivity.
Qed.

Lemma frame_collectibles (random : nat -> Q) (s : State) :
  isPlaying (gameState s) = true ->
  collectibles (handle random Frame s)
  = List.filter
      (fun collectible : Collectible =>
         negb (isOffScreen collectible) && active collectible)
      (List.map
         (scrollCollectible (getGameSpeed (inject_Z (score (gameState s)))))
         (collectibles s ++ collectiblesSpawned random Frame s)).
Proof.
  intros Hp. simpl. unfold gameLoop. rewrite Hp. cbn [negb].
  destruct (spawnDue s) eqn:Hd.
  - destruct (spawnObstacle_due random s (advanceWorld s s) Hd)
      as (o & b & _ & Hb & _).
    cbn [scrollEntities collectibles setGameState setParticles
         setCollectibles setObstacles]. rewrite Hb.
    rewrite drop_app_length. reflexivity.
  - rewrite (spawnObstacle_idle random s _ Hd).
    rewrite drop_all, app_nil_r. reflexivity.
Qed.

(** A spawn step: a frame of a running game whose spawn is due. *)
Lemma spawn_step (random : nat -> Q) (s : State) :
  isPlaying (gameState s) = true -> spawnDue s = true ->
  exists (o : Obstacle) (b : Collectible),
    obstaclesSpawned random Frame s = [o]
    /\ collectiblesSpawned random Frame s = [b]
    /\ pos_x (position o) = (nextObstacleX s - worldOffset s)%Q
    /\ width o = 60%Q
    /\ collected b = false /\ active b = true
    /\ nextObstacleX (handle random Frame s)
       = (nextObstacleX s + 60 + 200)%Q.
Proof.
  intros Hp Hd.
  destruct (spawnObstacle_due random s (advanceWorld s s) Hd)
    as (o & b & Ho & Hb & Hn & _ & Hx & Hw & Hc & Ha).
  exists o, b. simpl. rewrite Hp, Ho, Hb, !drop_app_length.
  repeat split; try assumption.
  unfold gameLoop. rewrite Hp. cbn [negb].
  destruct (scrollEntities_effect s
              (spawnObstacle random s (advanceWorld s s))) as (_ & -> & _).
  exact Hn.
Qed.

(** Any other step: every event but a frame, a frame of a stopped game, a
    frame whose spawn is not due. *)
Lemma no_spawn_step (random : nat -> Q) (e : Event) (s : State) :
  e <> Frame \/ isPlaying (gameState s) = false \/ spawnDue s = false ->
  obstaclesSpawned random e s = []
  /\ collectiblesSpawned random e s = []
  /\ nextObstacleX (handle random e s) = nextObstacleX s.
Proof.
  intros H.
  assert (e <> Frame ->
          obstaclesSpawned random e s = []
          /\ collectiblesSpawned random e s = []
          /\ nextObstacleX (handle random e s) = nextObstacleX s) as Hother.
  { intros He.
    assert (nextObstacleX (handle random e s) = nextObstacleX s) as Hn.
    { pose proof (handle_view random e s He) as Hv.
      unfold spawnerView in Hv. congruence. }
    destruct e; try congruence; repeat split; exact Hn. }
  destruct e; try (apply Hother; discriminate). clear Hother.
  simpl. unfold gameLoop.
  destruct (isPlaying (gameState s)) eqn:Hp; [|repeat split].
  destruct H as [H | [H | H]]; [congruence | discriminate H |].
  cbn [negb]. rewrite (spawnObstacle_idle random s _ H).
  rewrite !drop_all. repeat split.
Qed.

(** C3: a spawn step (a frame of a running game whose cursor has been
    reached by the right edge of the view) creates exactly one obstacle, of
    width 60 and placed on the screen at the cursor less the world offset,
    and exactly one collectible, both appended to their arrays, and moves
    the spawn cursor by 60 + 200; no other step creates anything or moves
    the cursor.  Along any session, therefore, as many collectibles as
    obstacles are ever created, the cursor has advanced by 60 + 200 per
    obstacle created, and the world abscissas that the spawner gives to
    consecutive obstacles are exactly 60 + 200 apart. *)
Theorem spawner_pairing_and_spacing (random : nat -> Q)
    (events : list Event) (s : State) :
  let created := obstaclesCreated random events s in
  let final := run random events s in
  (forall s0 : State,
      isPlaying (gameState s0) = true -> spawnDue s0 = true ->
      exists (o : Obstacle) (b : Collectible),
        obstaclesSpawned random Frame s0 = [o]
        /\ collectiblesSpawned random Frame s0 = [b]
        /\ pos_x (position o) = (nextObstacleX s0 - worldOffset s0)%Q
        /\ width o = 60%Q
        /\ collected b = false /\ active b = true
        /\ nextObstacleX (handle random Frame s0)
           = (nextObstacleX s0 + 60 + 200)%Q
        /\ obstacles (handle random Frame s0)
           = List.filter
               (fun obstacle : Obstacle => negb (isOffScreen obstacle))
               (List.map
                  (scrollObstacle
                     (getGameSpeed (inject_Z (score (gameState s0)))))
                  (obstacles s0 ++ [o]))
        /\ collectibles (handle random Frame s0)
           = List.filter
               (fun collectible : Collectible =>
                  negb (isOffScreen collectible) && active collectible)
               (List.map
                  (scrollCollectible
                     (getGameSpeed (inject_Z (score (gameState s0)))))
                  (collectibles s0 ++ [b])))
  /\ (forall (e : Event) (s0 : State),
        e <> Frame \/ isPlaying (gameState s0) = false
        \/ spawnDue s0 = false ->
        obstaclesSpawned random e s0 = []
        /\ collectiblesSpawned random e s0 = []
        /\ nextObstacleX (handle random e s0) = nextObstacleX s0)
  /\ length (collectiblesCreated random events s) = length created
  /\ (nextObstacleX final
      == nextObstacleX s
         + inject_Z (Z.of_nat (length created)) * (60 + 200))%Q
  /\ (forall (k : nat) (x : Q),
        created !! k = Some x ->
        (x == nextObstacleX s + inject_Z (Z.of_nat k) * (60 + 200))%Q)
  /\ (forall (k : nat) (x y : Q),
        created !! k = Some x -> created !! S k = Some y ->
        (y - x == 60 + 200)%Q).
Proof.
  intros created final.
  destruct (created_progression random events s) as (Hlen & Hcur & Hat).
  fold created in Hlen, Hcur, Hat. fold final in Hcur.
  unfold SPAWN_SPACING in Hcur, Hat.
  split.
  { intros s0 Hp Hd.
    destruct (spawn_step random s0 Hp Hd)
      as (o & b & Ho & Hb & Hx & Hw & Hc & Ha & Hn).
    exists o, b.
    destruct (frame_obstacles random s0 Hp) as [Hobs _].
    pose proof (frame_collectibles random s0 Hp) as Hcol.
    rewrite Ho in Hobs. rewrite Hb in Hcol.
    repeat split; assumption. }
  split; [intros e s0; apply no_spawn_step|].
  split; [exact Hlen|]. split; [exact Hcur|]. split; [exact Hat|].
  intros k x y Hx Hy. apply Hat in Hx, Hy.
  rewrite Hx, Hy, inject_Z_of_nat_S. ring.
Qed.

Lemma spawner_pairing_and_spacing_witness :
  let start := initialState ∅ in
  let s := startGame 0 start start in
  let events := replicate 120 Frame ++ [Jump] ++ replicate 60 Frame in
  let created := obstaclesCreated (fun _ => 0%Q) events s in
  length created = 3%nat
  /\ length (collectiblesCreated (fun _ => 0%Q) events s) = length created
  /\ (forall (k : nat) (x y : Q),
        created !! k = Some x -> created !! S k = Some y ->
        (y - x == 60 + 200)%Q).
Proof.
  intros start s events created.
  destruct (spawner_pairing_and_spacing (fun _ => 0%Q) events s)
    as (_ & _ & H1 & _ & _ & H5).
  split; [vm_compute; reflexivity|]. split; [exact H1 | exact H5].
Defined.

(** ** Sample runs *)

Example parseInt_samples :
  parseInt "2500" = Num 2500 /\ parseInt "  -42px" = Num (-42)
  /\ parseInt "0x1F" = Num 31 /\ parseInt "3.7" = Num 3
  /\ parseInt "bone" = NaN /\ parseInt EmptyString = NaN /\ parseInt "0x" = NaN.
Proof. repeat split; reflexivity. Qed.

Example selectIndex_samples :
  List.map (selectIndex difficultyWeights)
    [0; 0.45; 0.46; 0.75; 0.76; 0.9; 0.91; 0.95; 0.96; 0.98; 0.99; 1]%Q
  = [0; 0; 1; 1; 2; 2; 3; 3; 4; 4; 5; 5]%nat.
Proof. reflexivity. Qed.

(** Scenario A: nothing to exchange. *)
Example exchange_with_no_currency :
  let c := initialState ∅ in
  exchangeForDogevision c c
  = ({| success := false; dogevisionsAdded := Num 0; osSpent := Num 0 |}, c).
Proof. reflexivity. Qed.

(** A purchase with enough currency, then the activation at the start of
    the next game: the guards of [buyPower] and [usePower] let them act. *)
Example buy_then_start :
  let c := initialState (<["dogeTotalCoins" := "120"]> ∅) in
  let bought := buyPower "three_lives" c c in
  let started := startGame 5000 bought bought in
  totalCoinsCollected bought = Num 20
  /\ localStorage bought !! "dogeThreeLivesUses" = Some "2"
  /\ lives started = 3 /\ maxLives started = 3
  /\ activePowers started !! "three_lives" = Some 1004000
  /\ localStorage started !! "dogeThreeLivesUses" = Some "1".
Proof. vm_compute. repeat split. Qed.

(** Scenario C: the last life is lost on a collision; the record is the
    larger of the score and the previous record. *)
Example last_life_game_over :
  let start := initialState (<["dogeHighScore" := "40"]> ∅) in
  let playing := run (fun _ => 0%Q) (replicate 50 Frame)
                   (startGame 0 start start) in
  let over := loseLife (fun _ => 0%Q) 900 playing playing in
  score (gameState playing) = 50
  /\ isPlaying (gameState over) = false
  /\ gameOverFlag (gameState over) = true
  /\ highScore (gameState over) = Num 50
  /\ localStorage over !! "dogeHighScore" = Some "50".
Proof. vm_compute. repeat split. Qed.

(* ================================================================= *)
(** * Further properties of the code *)

(** ** Collision test *)

(** X1: the collision test is symmetric, holds exactly when the two boxes
    overlap on both axes, and fails as soon as the boxes are apart or only
    touch on one axis. *)
Theorem checkCollision_overlap (a b : GameObject) :
  checkCollision a b = checkCollision b a
  /\ (checkCollision a b = true <-> intersects a b)
  /\ ((pos_x (position a) + width a <= pos_x (position b)
       \/ pos_x (position b) + width b <= pos_x (position a)
       \/ pos_y (position a) + height a <= pos_y (position b)
       \/ pos_y (position b) + height b <= pos_y (position a))%Q ->
      checkCollision a b = false).
Proof.
  split; [apply checkCollision_sym|]. split; [apply checkCollision_spec|].
  intros Hapart. destruct (checkCollision a b) eqn:E; [|reflexivity].
  apply checkCollision_spec in E. destruct E as (H1 & H2 & H3 & H4).
  exfalso. destruct Hapart as [H | [H | [H | H]]]; Lqa.lra.
Qed.

(** ** Speed model *)

(** X2: the speed never decreases when the score grows and never exceeds the
    ceiling, whatever the score; the percentage shown to the player stays
    between 25 and 100 for a non-negative score. *)
Theorem getGameSpeed_monotone (s1 s2 : Q) :
  (s1 <= s2)%Q ->
  (getGameSpeed s1 <= getGameSpeed s2)%Q
  /\ (getGameSpeed s2 <= GAME_CONFIG.MAX_SCROLL_SPEED)%Q
  /\ ((0 <= s1)%Q ->
      25 <= speedPercentage (getGameSpeed s1) <= 100).
Proof.
  intros Hle. unfold getGameSpeed, GAME_CONFIG.BASE_SCROLL_SPEED,
    GAME_CONFIG.SPEED_INCREASE_RATE, GAME_CONFIG.MAX_SCROLL_SPEED.
  split; [|split].
  - apply Q.min_le_compat_r. Lqa.lra.
  - apply Q.le_min_r.
  - intros H0. unfold speedPercentage, Math_round,
      GAME_CONFIG.MAX_SCROLL_SPEED.
    set (v := Qmin (4 + s1 * 0.003) 16).
    assert (4 <= v <= 16)%Q as [Hlo Hhi].
    { split; [apply Q.min_glb; Lqa.lra | apply Q.le_min_r]. }
    assert (v / 16 * 100 == v * (25 # 4))%Q as Heq by (field).
    split.
    + apply (Qfloor_resp_le 25 (v / 16 * 100 + 0.5)). rewrite Heq. Lqa.lra.
    + assert (Qfloor (v / 16 * 100 + 0.5) <= Qfloor (100 + (1#2)))%Z as H.
      { apply Qfloor_resp_le. rewrite Heq. Lqa.lra. }
      exact H.
Qed.

Lemma getGameSpeed_monotone_witness :
  (getGameSpeed 1000 <= getGameSpeed 3000)%Q
  /\ 25 <= speedPercentage (getGameSpeed 1000) <= 100.
Proof.
  destruct (getGameSpeed_monotone 1000 3000) as (H1 & _ & H3).
  - unfold Qle. simpl. lia.
  - split; [exact H1|]. apply H3. unfold Qle. simpl. lia.
Defined.

(** ** Particles *)

Lemma life_stepped (n : nat) (p : Particle) :
  life (Nat.iter n stepParticle p) = life p - Z.of_nat n.
Proof.
  induction n as [|n IH]; [simpl; lia|].
  rewrite Nat2Z.inj_succ. simpl. rewrite IH. lia.
Qed.

Lemma updateParticles_survivors (n : nat) (ps : list Particle) :
  updateParticles
    (List.map (Nat.iter n stepParticle)
       (List.filter (fun p => Z.of_nat n <? life p) ps))
  = List.map (Nat.iter (S n) stepParticle)
      (List.filter (fun p => Z.of_nat (S n) <? life p) ps).
Proof.
  unfold updateParticles.
  induction ps as [|p ps IH]; [reflexivity|].
  cbn [List.filter].
  destruct (Z.of_nat n <? life p) eqn:Hn.
  - cbn [List.map List.filter].
    change (stepParticle (Nat.iter n stepParticle p))
      with (Nat.iter (S n) stepParticle p).
    rewrite life_stepped.
    destruct (Z.of_nat (S n) <? life p) eqn:HS.
    + replace (0 <? life p - Z.of_nat (S n)) with true
        by (symmetry; apply Z.ltb_lt; apply Z.ltb_lt in HS; lia).
      cbn [List.map]. now rewrite IH.
    + replace (0 <? life p - Z.of_nat (S n)) with false
        by (symmetry; apply Z.ltb_ge; apply Z.ltb_ge in HS; lia).
      exact IH.
  - replace (Z.of_nat (S n) <? life p) with false
      by (symmetry; apply Z.ltb_ge; apply Z.ltb_ge in Hn; lia).
    exact IH.
Qed.

Lemma updateParticles_iter (n : nat) (ps : list Particle) :
  Nat.iter (S n) updateParticles ps
  = List.map (Nat.iter (S n) stepParticle)
      (List.filter (fun p => Z.of_nat (S n) <? life p) ps).
Proof.
  induction n as [|n IH].
  - cbn [Nat.iter nat_rect]. unfold updateParticles.
    induction ps as [|p ps IHps]; [reflexivity|].
    cbn [List.map List.filter].
    change (life (stepParticle p)) with (life p - 1).
    destruct (Z.of_nat 1 <? life p) eqn:H1.
    + replace (0 <? life p - 1) with true
        by (symmetry; apply Z.ltb_lt; apply Z.ltb_lt in H1; lia).
      cbn [List.map]. now rewrite IHps.
    + replace (0 <? life p - 1) with false
        by (symmetry; apply Z.ltb_ge; apply Z.ltb_ge in H1; lia).
      exact IHps.
  - change (Nat.iter (S (S n)) updateParticles ps)
      with (updateParticles (Nat.iter (S n) updateParticles ps)).
    rewrite IH. apply updateParticles_survivors.
Qed.

(** X3: after [n] updates (at least one), the particles left are exactly
    those whose life exceeded [n], each moved [n] times; all of them have
    life left; and particles created by [createParticle], which start with
    a life of 30, are all gone after 30 updates. *)
Theorem particles_lifetime (n : nat) (ps : list Particle) :
  Nat.iter (S n) updateParticles ps
  = List.map (Nat.iter (S n) stepParticle)
      (List.filter (fun p => Z.of_nat (S n) <? life p) ps)
  /\ Forall (fun p => 0 < life p) (Nat.iter (S n) updateParticles ps)
  /\ (forall (random : nat -> Q) (pos : Position) (col : string) (k : nat),
        life (fst (createParticle random pos col k)) = 30)
  /\ (Forall (fun p => life p <= 30) ps ->
      Nat.iter 30 updateParticles ps = []
      /\ (Forall (fun p => life p = 30) ps ->
          length (Nat.iter 29 updateParticles ps) = length ps)).
Proof.
  split; [apply updateParticles_iter|]. split; [|split].
  - rewrite updateParticles_iter. apply Forall_forall. intros q Hq.
    apply list_elem_of_In, in_map_iff in Hq as (p & <- & Hp).
    apply filter_In in Hp as [_ Hp]. apply Z.ltb_lt in Hp.
    rewrite life_stepped. lia.
  - reflexivity.
  - intros Hall. split.
    + rewrite (updateParticles_iter 29).
      replace (List.filter (fun p => Z.of_nat 30 <? life p) ps)
        with (@nil Particle); [reflexivity|].
      induction Hall as [|p ps Hp _ IH]; [reflexivity|]. cbn [List.filter].
      replace (Z.of_nat 30 <? life p) with false
        by (symmetry; apply Z.ltb_ge; lia).
      exact IH.
    + intros H30. rewrite (updateParticles_iter 28), length_map.
      f_equal. clear Hall.
      induction H30 as [|p ps Hp _ IH]; [reflexivity|]. cbn [List.filter].
      replace (Z.of_nat 29 <? life p) with true
        by (symmetry; apply Z.ltb_lt; lia).
      now rewrite IH.
Qed.

(** ** Pruning at the end of a frame *)

Lemma isOffScreen_spec (obj : GameObject) :
  isOffScreen obj = false <-> (-100 <= pos_x (position obj) + width obj)%Q.
Proof.
  unfold isOffScreen, Qlt_bool. rewrite negb_false_iff. apply Qle_bool_iff.
Qed.

Lemma kept_by_filter {A : Type} (f : A -> bool) (g : A -> A) (l : list A)
    (x : A) :
  x ∈ l ->
  g x ∈ List.filter f (List.map g l) <-> f (g x) = true.
Proof.
  intros Hx. rewrite list_elem_of_In, filter_In. split; [tauto|].
  intros Hf. split; [|exact Hf]. apply in_map. now apply list_elem_of_In.
Qed.

Lemma from_filter {A : Type} (f : A -> bool) (g : A -> A) (l : list A)
    (y : A) :
  y ∈ List.filter f (List.map g l) -> exists x : A, x ∈ l /\ y = g x.
Proof.
  rewrite list_elem_of_In, filter_In, in_map_iff.
  intros [(x & <- & Hx) _]. exists x. split; [|reflexivity].
  now apply list_elem_of_In.
Qed.

(** X4: a frame of a running game moves every obstacle and every
    collectible, those just spawned included, to the left by the speed of
    the frame, and then prunes.  An obstacle is kept exactly when its right
    edge is then at -100 or beyond, a collectible exactly when that holds
    and it is active (so a collected bone is gone after the next frame);
    what is kept stays in its order, and nothing else enters the arrays. *)
Theorem frame_prunes (random : nat -> Q) (s : State) :
  isPlaying (gameState s) = true ->
  let speed := getGameSpeed (inject_Z (score (gameState s))) in
  let s' := gameLoop random s s in
  (forall o : Obstacle,
      o ∈ obstacles s ++ obstaclesSpawned random Frame s ->
      (scrollObstacle speed o ∈ obstacles s'
       <-> (-100 <= pos_x (position o) - speed + width o)%Q))
  /\ (forall o' : Obstacle,
        o' ∈ obstacles s' ->
        exists o : Obstacle,
          o ∈ obstacles s ++ obstaclesSpawned random Frame s
          /\ o' = scrollObstacle speed o)
  /\ (forall b : Collectible,
        b ∈ collectibles s ++ collectiblesSpawned random Frame s ->
        (scrollCollectible speed b ∈ collectibles s'
         <-> (-100 <= pos_x (position b) - speed + width b)%Q
             /\ active b = true))
  /\ (forall b' : Collectible,
        b' ∈ collectibles s' ->
        exists b : Collectible,
          b ∈ collectibles s ++ collectiblesSpawned random Frame s
          /\ b' = scrollCollectible speed b)
  /\ obstacles s'
     = List.filter (fun o : Obstacle => negb (isOffScreen o))
         (List.map (scrollObstacle speed)
            (obstacles s ++ obstaclesSpawned random Frame s))
  /\ collectibles s'
     = List.filter
         (fun b : Collectible => negb (isOffScreen b) && active b)
         (List.map (scrollCollectible speed)
            (collectibles s ++ collectiblesSpawned random Frame s))
  /\ (forall b : Collectible,
        b ∈ collectibles s -> active b = false ->
        ~ scrollCollectible speed b ∈ collectibles s').
Proof.
  intros Hp speed s'.
  destruct (frame_obstacles random s Hp) as [Hobs _].
  pose proof (frame_collectibles random s Hp) as Hcol.
  change (handle random Frame s) with s' in Hobs, Hcol. fold speed in Hobs, Hcol.
  assert (forall b : Collectible,
             b ∈ collectibles s ++ collectiblesSpawned random Frame s ->
             (scrollCollectible speed b ∈ collectibles s'
              <-> (-100 <= pos_x (position b) - speed + width b)%Q
                  /\ active b = true)) as Hkept.
  { intros b Hb. rewrite Hcol, (kept_by_filter _ _ _ _ Hb).
    rewrite andb_true_iff, negb_true_iff, isOffScreen_spec. reflexivity. }
  split.
  { intros o Ho. rewrite Hobs, (kept_by_filter _ _ _ _ Ho).
    rewrite negb_true_iff, isOffScreen_spec. reflexivity. }
  split; [intros o' Ho'; rewrite Hobs in Ho'; exact (from_filter _ _ _ _ Ho')|].
  split; [exact Hkept|].
  split; [intros b' Hb'; rewrite Hcol in Hb'; exact (from_filter _ _ _ _ Hb')|].
  split; [exact Hobs|]. split; [exact Hcol|].
  intros b Hb Hoff Hin.
  apply Hkept in Hin as [_ Hact]; [congruence|].
  apply elem_of_app. now left.
Qed.

Lemma frame_prunes_witness :
  let start := initialState ∅ in
  let rockAt x :=
    {| obstacleObject :=
         {| position := {| pos_x := x; pos_y := 440 |};
            velocity := {| vel_x := 0; vel_y := 0 |};
            width := 60; height := 60; active := true |};
       obstacleType := rock; rotation := 0; rotationSpeed := 0 |} in
  let s := setObstacles [rockAt (-150)%Q; rockAt (-160)%Q]
             (startGame 0 start start) in
  let s' := gameLoop (fun _ => 0%Q) s s in
  scrollObstacle (getGameSpeed 0) (rockAt (-150)%Q) ∈ obstacles s'
  /\ ~ scrollObstacle (getGameSpeed 0) (rockAt (-160)%Q) ∈ obstacles s'.
Proof.
  intros start rockAt s s'.
  destruct (frame_prunes (fun _ => 0%Q) s eq_refl) as (H & _).
  split.
  - apply (H (rockAt (-150)%Q)).
    + apply elem_of_app. left. apply list_elem_of_here.
    + vm_compute. discriminate.
  - intros Hin. apply (H (rockAt (-160)%Q)) in Hin.
    + vm_compute in Hin. apply Hin. reflexivity.
    + apply elem_of_app. left. apply list_elem_of_further, list_elem_of_here.
Defined.

(** ** The expiry sweep *)

Lemma sweep_kept (now : Z) (m : gmap string Z) (key : string) (e : Z) :
  filter (fun kv : string * Z => now < kv.2) m !! key = Some e
  <-> m !! key = Some e /\ now < e.
Proof. apply map_lookup_filter_Some. Qed.

Lemma sweep_nothing_due (now : Z) (m : gmap string Z) :
  (forall key e, m !! key = Some e -> now < e) ->
  filter (fun kv : string * Z => now < kv.2) m = m
  /\ filter (fun kv : string * Z => kv.2 <= now) m = ∅.
Proof.
  intros H. split.
  - apply map_eq. intros key. destruct (m !! key) as [e|] eqn:Hk.
    + apply sweep_kept. split; [exact Hk | now apply (H key)].
    + apply map_lookup_filter_None. left. exact Hk.
  - apply map_empty. intros key. apply map_lookup_filter_None.
    destruct (m !! key) as [e|] eqn:Hk; [right | now left].
    intros x Hx. injection Hx as <-. simpl. specialize (H key e Hk). lia.
Qed.

Lemma setActivePowers_same (s : State) : setActivePowers (activePowers s) s = s.
Proof. destruct s; reflexivity. Qed.

Lemma checkPowerExpiration_nothing_due (now : Z) (s : State) :
  (forall key e, activePowers s !! key = Some e -> now < e) ->
  checkPowerExpiration now s = s.
Proof.
  intros H. destruct (sweep_nothing_due now (activePowers s) H) as [Hk He].
  unfold checkPowerExpiration. rewrite Hk, He.
  rewrite lookup_empty.
  rewrite (bool_decide_eq_false_2 (is_Some (@None Z)))
    by apply is_Some_None.
  rewrite bool_decide_eq_true_2 by reflexivity.
  apply setActivePowers_same.
Qed.

Lemma checkPowerExpiration_fields (now : Z) (s : State) :
  let s' := checkPowerExpiration now s in
  activePowers s' = filter (fun kv : string * Z => now < kv.2) (activePowers s)
  /\ lives s'
     = (if bool_decide
             (is_Some (filter (fun kv : string * Z => kv.2 <= now)
                         (activePowers s) !! "three_lives"))
        then 1 else lives s)
  /\ maxLives s'
     = (if bool_decide
             (is_Some (filter (fun kv : string * Z => kv.2 <= now)
                         (activePowers s) !! "three_lives"))
        then 1 else maxLives s)
  /\ totalCoinsCollected s' = totalCoinsCollected s
  /\ dogevisions s' = dogevisions s
  /\ localStorage s' = localStorage s
  /\ gameState s' = gameState s
  /\ List.map (fun p => (id p, usesRemaining p))
       (availablePowers (shopState s'))
     = List.map (fun p => (id p, usesRemaining p))
         (availablePowers (shopState s))
  /\ isOpen (shopState s') = isOpen (shopState s)
  /\ player s' = player s.
Proof.
  cbv zeta. unfold checkPowerExpiration.
  destruct (bool_decide (is_Some _)); destruct (bool_decide (_ = ∅));
    cbn; repeat split;
    rewrite List.map_map; reflexivity.
Qed.

(** X7: the sweep keeps exactly the powers whose expiry is still ahead, so
    what the game treats as active, now or later, is the same before and
    after it; when the three-lives power is among the expired ones the
    lives go back to one; with nothing expired the state is unchanged, and
    sweeping twice at the same instant is sweeping once. *)
Theorem checkPowerExpiration_sweep (now : Z) (s : State) :
  let s' := checkPowerExpiration now s in
  (forall (key : string) (e : Z),
      activePowers s' !! key = Some e
      <-> activePowers s !! key = Some e /\ now < e)
  /\ (forall (key : string) (t : Z),
        now <= t ->
        isPowerActive key t (activePowers s')
        = isPowerActive key t (activePowers s))
  /\ ((exists e, activePowers s !! "three_lives" = Some e /\ e <= now) ->
      lives s' = 1 /\ maxLives s' = 1)
  /\ ((forall e, activePowers s !! "three_lives" = Some e -> now < e) ->
      lives s' = lives s /\ maxLives s' = maxLives s)
  /\ ((forall key e, activePowers s !! key = Some e -> now < e) -> s' = s)
  /\ checkPowerExpiration now s' = s'
  /\ totalCoinsCollected s' = totalCoinsCollected s
  /\ localStorage s' = localStorage s.
Proof.
  intros s'.
  destruct (checkPowerExpiration_fields now s)
    as (Hact & Hl & Hm & Ht & _ & Hst & _).
  fold s' in Hact, Hl, Hm, Ht, Hst.
  assert (forall key e, activePowers s' !! key = Some e
                        <-> activePowers s !! key = Some e /\ now < e) as Hk.
  { intros key e. rewrite Hact. apply sweep_kept. }
  split; [exact Hk|]. split.
  { intros key t Hle. unfold isPowerActive.
    destruct (activePowers s !! key) as [e|] eqn:Hs.
    - destruct (Z_lt_le_dec now e) as [Hlt | Hge].
      + now rewrite (proj2 (Hk key e) (conj Hs Hlt)).
      + destruct (activePowers s' !! key) as [e'|] eqn:Hs'.
        * apply Hk in Hs' as [Hs' Hlt]. rewrite Hs in Hs'.
          injection Hs' as ->. lia.
        * replace (t <? e) with false by (symmetry; apply Z.ltb_ge; lia).
          now rewrite andb_false_r.
    - destruct (activePowers s' !! key) as [e'|] eqn:Hs'; [|reflexivity].
      apply Hk in Hs' as [Hs' _]. now rewrite Hs in Hs'. }
  split.
  { intros (e & He & Hle).
    assert (is_Some (filter (fun kv : string * Z => kv.2 <= now)
                       (activePowers s) !! "three_lives")) as Hsome.
    { exists e. apply map_lookup_filter_Some. split; [exact He | exact Hle]. }
    rewrite Hl, Hm, bool_decide_eq_true_2 by exact Hsome. split; reflexivity. }
  split.
  { intros Hnot.
    assert (~ is_Some (filter (fun kv : string * Z => kv.2 <= now)
                         (activePowers s) !! "three_lives")) as Hnone.
    { intros [e He]. apply map_lookup_filter_Some in He as [He Hle].
      simpl in Hle. specialize (Hnot e He). lia. }
    rewrite Hl, Hm, bool_decide_eq_false_2 by exact Hnone.
    split; reflexivity. }
  split; [apply checkPowerExpiration_nothing_due|].
  split; [|split; assumption].
  apply checkPowerExpiration_nothing_due.
  intros key e He. now apply Hk in He as [_ He].
Qed.

(** ** Game over *)

Lemma gameOver_fields (random : nat -> Q) (c s : State) :
  let s' := gameOver random c s in
  activePowers s' = ∅ /\ lives s' = 1 /\ maxLives s' = 1
  /\ isInvulnerable s' = false
  /\ availablePowers (shopState s')
     = List.map (withPowerActive false) (availablePowers (shopState s))
  /\ isOpen (shopState s') = isOpen (shopState s)
  /\ gameState s'
     = {| isPlaying := false; score := score (gameState s);
          coins := coins (gameState s);
          highScore := Math_max (Num (score (gameState s)))
                         (highScore (gameState s));
          highCoins := Math_max (Num (coins (gameState s)))
                         (highCoins (gameState s));
          gameOverFlag := true; level := level (gameState s) |}
  /\ localStorage s'
     = <["dogeHighCoins" :=
           toString (Math_max (Num (coins (gameState s)))
                       (highCoins (gameState s)))]>
         (<["dogeHighScore" :=
              toString (Math_max (Num (score (gameState s)))
                          (highScore (gameState s)))]> (localStorage s))
  /\ totalCoinsCollected s' = totalCoinsCollected s
  /\ dogevisions s' = dogevisions s
  /\ player s' = player s
  /\ spawnerView s' = spawnerView s
  /\ collectibles s' = collectibles s
  /\ timers s' = timers s.
Proof.
  cbv zeta. unfold gameOver. rewrite withRandom_eq. cbn. repeat split.
Qed.



(** ** Exchanging twice *)

(** X10: an exchange leaves less than 1000 of the total currency, spends
    ten times what it credits, and an exchange made right after it fails
    and changes nothing. *)
Theorem exchange_exhausts (c : State) (T : Z) :
  totalCoinsCollected c = Num T -> 0 <= T ->
  let result := fst (exchangeForDogevision c c) in
  let s1 := snd (exchangeForDogevision c c) in
  totalCoinsCollected s1 = Num (T mod 1000)
  /\ (exists spent credited : Z,
        osSpent result = Num spent /\ dogevisionsAdded result = Num credited
        /\ spent = 10 * credited /\ T = spent + T mod 1000)
  /\ exchangeForDogevision s1 s1
     = ({| success := false; dogevisionsAdded := Num 0; osSpent := Num 0 |},
        s1).
Proof.
  intros HT Hnn result s1.
  pose proof (Z.div_mod T 1000 ltac:(lia)) as Hdm.
  pose proof (Z.mod_pos_bound T 1000 ltac:(lia)) as Hmod.
  assert (0 <= T / 1000) as Hq by (apply Z.div_pos; lia).
  assert (totalCoinsCollected s1 = Num (T mod 1000)
          /\ exists spent credited : Z,
               osSpent result = Num spent
               /\ dogevisionsAdded result = Num credited
               /\ spent = 10 * credited /\ T = spent + T mod 1000)
    as [Htot Hres].
  { destruct (Z.eq_dec (T / 1000) 0) as [H0 | Hne].
    - subst result s1. rewrite exchange_failure
        by (rewrite HT; cbn; rewrite H0; reflexivity).
      cbn. split.
      + rewrite HT. f_equal. lia.
      + exists 0, 0. repeat split. lia.
    - destruct (exchange_success c c T HT) as (Hr & Ht & _); [lia|].
      fold result in Hr. fold s1 in Ht. split.
      + rewrite Ht. f_equal. lia.
      + exists (T / 1000 * 1000), (T / 1000 * 100). rewrite Hr.
        repeat split; lia. }
  split; [exact Htot|]. split; [exact Hres|].
  apply exchange_failure. rewrite Htot. cbn.
  rewrite Z.div_small by lia. reflexivity.
Qed.

Lemma exchange_exhausts_witness :
  let c := initialState (<["dogeTotalCoins" := "2500"]> ∅) in
  let s1 := snd (exchangeForDogevision c c) in
  totalCoinsCollected s1 = Num (2500 mod 1000)
  /\ exchangeForDogevision s1 s1
     = ({| success := false; dogevisionsAdded := Num 0; osSpent := Num 0 |},
        s1).
Proof.
  intros c s1.
  destruct (exchange_exhausts c 2500) as (H1 & _ & H3);
    [reflexivity | lia |].
  split; [exact H1 | exact H3].
Defined.

(** ** The catalogue of powers *)

Lemma purchased_id (powerId : string) (n : JSNumber) (p : PowerUp) :
  id (purchased powerId n p) = id p.
Proof. unfold purchased. now destruct (String.eqb (id p) powerId). Qed.

Lemma activated_id (powerId : string) (n : JSNumber) (p : PowerUp) :
  id (activated powerId n p) = id p.
Proof. unfold activated. now destruct (String.eqb (id p) powerId). Qed.

(** Looking a power up after the catalogue was rewritten by a function that
    keeps the identifiers. *)
Lemma findPower_map (f : PowerUp -> PowerUp) (powerId : string)
    (powers : list PowerUp) :
  (forall p, id (f p) = id p) ->
  findPower powerId (List.map f powers) = f <$> findPower powerId powers.
Proof.
  intros Hid. unfold findPower.
  induction powers as [|p powers IH]; [reflexivity|].
  cbn [List.map find]. rewrite Hid.
  destruct (String.eqb (id p) powerId); [reflexivity | exact IH].
Qed.

Lemma findPower_id (powerId : string) (powers : list PowerUp) (p : PowerUp) :
  findPower powerId powers = Some p -> id p = powerId.
Proof.
  intros H. apply find_some in H as [_ H]. now apply String.eqb_eq.
Qed.

Lemma findPower_purchased (powerId other : string) (n : JSNumber)
    (powers : list PowerUp) :
  findPower other (List.map (purchased powerId n) powers)
  = if String.eqb other powerId
    then purchased powerId n <$> findPower other powers
    else findPower other powers.
Proof.
  rewrite findPower_map by apply purchased_id.
  destruct (String.eqb other powerId) eqn:E; [reflexivity|].
  destruct (findPower other powers) as [p|] eqn:Hf; [|reflexivity].
  cbn. f_equal. unfold purchased.
  rewrite (findPower_id _ _ _ Hf), E. reflexivity.
Qed.

Lemma findPower_activated (powerId other : string) (n : JSNumber)
    (powers : list PowerUp) :
  findPower other (List.map (activated powerId n) powers)
  = if String.eqb other powerId
    then activated powerId n <$> findPower other powers
    else findPower other powers.
Proof.
  rewrite findPower_map by apply activated_id.
  destruct (String.eqb other powerId) eqn:E; [reflexivity|].
  destruct (findPower other powers) as [p|] eqn:Hf; [|reflexivity].
  cbn. f_equal. unfold activated.
  rewrite (findPower_id _ _ _ Hf), E. reflexivity.
Qed.

Lemma saveUses_store (powerId : string) (n : JSNumber) (s : State) :
  localStorage (saveUses powerId n s)
  = match usesKey powerId with
    | Some key => <[key := toString n]> (localStorage s)
    | None => localStorage s
    end.
Proof.
  unfold saveUses, usesKey.
  repeat match goal with |- context [if ?b then _ else _] => destruct b end;
    reflexivity.
Qed.

(** [saveUses] writes to the store and to nothing else. *)
Lemma saveUses_only_store (powerId : string) (n : JSNumber) (s : State) :
  saveUses powerId n s
  = setLocalStorage (localStorage (saveUses powerId n s)) s.
Proof.
  unfold saveUses.
  repeat match goal with |- context [if ?b then _ else _] => destruct b end;
    try reflexivity.
  destruct s; reflexivity.
Qed.

(** ** A purchase that goes through *)

Lemma buyPower_funded (powerId : string) (c : State) (power : PowerUp)
    (T : Z) :
  findPower powerId (availablePowers (shopState c)) = Some power ->
  totalCoinsCollected c = Num T -> cost power <= T ->
  let newUses := jsAdd (numOr (usesRemaining power) 0)
                       (numOr (Num <$> maxUses power) 1) in
  let s' := buyPower powerId c c in
  totalCoinsCollected s' = Num (T - cost power)
  /\ availablePowers (shopState s')
     = List.map (purchased powerId newUses) (availablePowers (shopState c))
  /\ isOpen (shopState s') = false
  /\ localStorage s'
     = match usesKey powerId with
       | Some key =>
           <[key := toString newUses]>
             (<["dogeTotalCoins" := pretty (T - cost power)]> (localStorage c))
       | None => <["dogeTotalCoins" := pretty (T - cost power)]> (localStorage c)
       end
  /\ dogevisions s' = dogevisions c /\ lives s' = lives c
  /\ maxLives s' = maxLives c /\ activePowers s' = activePowers c
  /\ gameState s' = gameState c /\ player s' = player c.
Proof.
  intros Hf HT Hle. cbv zeta. unfold buyPower. rewrite Hf, HT.
  cbn [jsLt jsSub].
  replace (T <? cost power) with false by (symmetry; apply Z.ltb_ge; lia).
  set (newUses := jsAdd _ _).
  rewrite (saveUses_only_store powerId newUses).
  rewrite saveUses_store. unfold closeShop. cbn.
  repeat split.
Qed.

Lemma numOr_Num (n d : Z) : d = 0 -> numOr (Some (Num n)) d = Num n.
Proof.
  intros ->. unfold numOr, truthy.
  destruct (n =? 0) eqn:E; [|reflexivity].
  apply Z.eqb_eq in E. now subst.
Qed.

Lemma usesKey_cases (powerId key : string) :
  usesKey powerId = Some key ->
  key = "dogeDoubleCollectorUses" \/ key = "dogeMagneticCollectorUses"
  \/ key = "dogeThreeLivesUses".
Proof.
  unfold usesKey.
  repeat match goal with |- context [if ?b then _ else _] => destruct b end;
    intros H; inversion H; tauto.
Qed.

Lemma usesKey_not_balance (powerId key : string) :
  usesKey powerId = Some key ->
  key <> "dogeTotalCoins" /\ key <> "dogeDogevisions"
  /\ key <> "dogeHighScore" /\ key <> "dogeHighCoins".
Proof.
  intros H. apply usesKey_cases in H as [-> | [-> | ->]];
    repeat split; discriminate.
Qed.

(** X5: buying a power of the catalogue with enough currency takes its cost
    off the balance and adds its uses per purchase to its remaining uses;
    both numbers are in the store and read back from it; the power is
    owned, the other powers are untouched and the shop is closed. *)
Theorem buyPower_purchase (powerId : string) (c : State) (power : PowerUp)
    (T n m : Z) (key : string) :
  findPower powerId (availablePowers (shopState c)) = Some power ->
  totalCoinsCollected c = Num T -> cost power <= T ->
  usesRemaining power = Some (Num n) -> maxUses power = Some m -> m <> 0 ->
  usesKey powerId = Some key ->
  let s' := buyPower powerId c c in
  totalCoinsCollected s' = Num (T - cost power)
  /\ readStored (localStorage s') "dogeTotalCoins" = Num (T - cost power)
  /\ (exists p' : PowerUp,
        findPower powerId (availablePowers (shopState s')) = Some p'
        /\ usesRemaining p' = Some (Num (n + m))
        /\ owned p' = true /\ cost p' = cost power)
  /\ readStored (localStorage s') key = Num (n + m)
  /\ (forall other : string,
        other <> powerId ->
        findPower other (availablePowers (shopState s'))
        = findPower other (availablePowers (shopState c)))
  /\ isOpen (shopState s') = false
  /\ dogevisions s' = dogevisions c.
Proof.
  intros Hf HT Hle Hn Hm Hm0 Hkey s'.
  destruct (buyPower_funded powerId c power T Hf HT Hle)
    as (Htot & Hpow & Hopen & Hstore & Hdoge & _).
  fold s' in Htot, Hpow, Hopen, Hstore, Hdoge.
  rewrite Hn, Hm, Hkey in *.
  assert (jsAdd (numOr (Some (Num n)) 0) (numOr (Num <$> Some m) 1)
          = Num (n + m)) as Huses.
  { rewrite numOr_Num by reflexivity. cbn. unfold truthy.
    replace (m =? 0) with false by (symmetry; now apply Z.eqb_neq).
    reflexivity. }
  rewrite Huses in Hpow, Hstore.
  destruct (usesKey_not_balance _ _ Hkey) as (Hk1 & _).
  split; [exact Htot|]. split.
  { apply readStored_written. rewrite Hstore.
    rewrite lookup_insert_ne by exact Hk1. apply lookup_insert_eq. }
  split.
  { exists (purchased powerId (Num (n + m)) power).
    rewrite Hpow, findPower_purchased, String.eqb_refl, Hf.
    split; [reflexivity|]. unfold purchased.
    rewrite (findPower_id _ _ _ Hf), String.eqb_refl. repeat split. }
  split.
  { apply readStored_written. rewrite Hstore. apply lookup_insert_eq. }
  split.
  { intros other Hne. rewrite Hpow, findPower_purchased.
    replace (String.eqb other powerId) with false
      by (symmetry; now apply String.eqb_neq).
    reflexivity. }
  split; [exact Hopen | exact Hdoge].
Qed.

Lemma buyPower_purchase_witness :
  let c := initialState (<["dogeTotalCoins" := "60"]> ∅) in
  let s' := buyPower "magnetic_collector" c c in
  totalCoinsCollected s' = Num 10
  /\ readStored (localStorage s') "dogeMagneticCollectorUses" = Num 2.
Proof.
  intros c s'.
  destruct (buyPower_purchase "magnetic_collector" c
              {| id := "magnetic_collector"; cost := 50; owned := false;
                 powerActive := false; duration := Some 999;
                 usesRemaining := Some (Num 0); maxUses := Some 2 |}
              60 0 2 "dogeMagneticCollectorUses")
    as (H1 & _ & _ & H4 & _);
    [reflexivity | reflexivity | simpl; lia | reflexivity | reflexivity
    | lia | reflexivity |].
  split; [exact H1 | exact H4].
Defined.

(** ** An activation that goes through *)

(** The effect of an activation whose guard, read from the snapshot [c],
    lets it through, on the pending state [s]. *)
Lemma usePower_fires (powerId : string) (now : Z) (c s : State)
    (power : PowerUp) (n : Z) :
  findPower powerId (availablePowers (shopState c)) = Some power ->
  usesRemaining power = Some (Num n) -> 0 < n ->
  let s' := usePower powerId now c s in
  availablePowers (shopState s')
  = List.map (activated powerId (Num (n - 1))) (availablePowers (shopState s))
  /\ isOpen (shopState s') = isOpen (shopState s)
  /\ activePowers s'
     = match duration power with
       | Some d => if d =? 0 then activePowers s
                   else <[powerId := now + d * 1000]> (activePowers s)
       | None => activePowers s
       end
  /\ lives s' = (if String.eqb powerId "three_lives" then 3 else lives s)
  /\ maxLives s' = (if String.eqb powerId "three_lives" then 3 else maxLives s)
  /\ localStorage s'
     = match usesKey powerId with
       | Some key => <[key := pretty (n - 1)]> (localStorage s)
       | None => localStorage s
       end
  /\ totalCoinsCollected s' = totalCoinsCollected s
  /\ dogevisions s' = dogevisions s
  /\ gameState s' = gameState s /\ player s' = player s
  /\ isInvulnerable s' = isInvulnerable s
  /\ spawnerView s' = spawnerView s
  /\ collectibles s' = collectibles s
  /\ particles s' = particles s /\ currentSpeed s' = currentSpeed s
  /\ timers s' = timers s.
Proof.
  intros Hf Hn Hpos. cbv zeta. unfold usePower. rewrite Hf, Hn.
  unfold truthy, jsLe.
  replace (n =? 0) with false by (symmetry; apply Z.eqb_neq; lia).
  replace (n <=? 0) with false by (symmetry; apply Z.leb_gt; lia).
  cbn [negb orb jsSub].
  rewrite (saveUses_only_store powerId (Num (n - 1))), saveUses_store.
  destruct (duration power) as [d|]; [destruct (d =? 0)|];
    destruct (String.eqb powerId "three_lives");
    cbn; repeat split.
Qed.

(** X6: using a power that has uses left takes one use (in the catalogue
    and in the store), marks the power active and makes it active from now
    until its duration has elapsed; the three-lives power also sets the
    lives to three; the other powers and the balances are untouched. *)
Theorem usePower_activation (powerId : string) (now : Z) (c : State)
    (power : PowerUp) (n d : Z) :
  findPower powerId (availablePowers (shopState c)) = Some power ->
  usesRemaining power = Some (Num n) -> 0 < n ->
  duration power = Some d -> 0 < d -> 0 <= now ->
  let s' := usePower powerId now c c in
  (exists p' : PowerUp,
      findPower powerId (availablePowers (shopState s')) = Some p'
      /\ usesRemaining p' = Some (Num (n - 1)) /\ powerActive p' = true)
  /\ (forall key : string,
        usesKey powerId = Some key ->
        readStored (localStorage s') key = Num (n - 1))
  /\ activePowers s' !! powerId = Some (now + d * 1000)
  /\ (forall t : Z,
        isPowerActive powerId t (activePowers s')
        = bool_decide (t < now + d * 1000))
  /\ (forall other : string,
        other <> powerId ->
        activePowers s' !! other = activePowers c !! other
        /\ findPower other (availablePowers (shopState s'))
           = findPower other (availablePowers (shopState c)))
  /\ (lives s' = if String.eqb powerId "three_lives" then 3 else lives c)
  /\ (maxLives s' = if String.eqb powerId "three_lives" then 3 else maxLives c)
  /\ totalCoinsCollected s' = totalCoinsCollected c
  /\ dogevisions s' = dogevisions c.
Proof.
  intros Hf Hn Hpos Hd Hdpos Hnow s'.
  destruct (usePower_fires powerId now c c power n Hf Hn Hpos)
    as (Hpow & _ & Hact & Hl & Hm & Hstore & Ht & Hdg & _).
  fold s' in Hpow, Hact, Hl, Hm, Hstore, Ht, Hdg.
  rewrite Hd in Hact.
  replace (d =? 0) with false in Hact by (symmetry; apply Z.eqb_neq; lia).
  split.
  { exists (activated powerId (Num (n - 1)) power).
    rewrite Hpow, findPower_activated, String.eqb_refl, Hf.
    split; [reflexivity|]. unfold activated.
    rewrite (findPower_id _ _ _ Hf), String.eqb_refl. split; reflexivity. }
  split.
  { intros key Hkey. apply readStored_written. rewrite Hstore, Hkey.
    apply lookup_insert_eq. }
  split; [rewrite Hact; apply lookup_insert_eq|].
  split.
  { intros t. unfold isPowerActive. rewrite Hact, lookup_insert_eq.
    replace (now + d * 1000 =? 0) with false
      by (symmetry; apply Z.eqb_neq; lia).
    cbn [negb andb].
    destruct (Z.ltb_spec t (now + d * 1000));
      [now rewrite bool_decide_eq_true_2
      | rewrite bool_decide_eq_false_2; [reflexivity | lia]]. }
  split.
  { intros other Hne. split.
    - rewrite Hact. apply lookup_insert_ne. congruence.
    - rewrite Hpow, findPower_activated.
      replace (String.eqb other powerId) with false
        by (symmetry; now apply String.eqb_neq).
      reflexivity. }
  repeat split; assumption.
Qed.

Lemma usePower_activation_witness :
  let c := initialState (<["dogeThreeLivesUses" := "2"]> ∅) in
  let s' := usePower "three_lives" 5000 c c in
  activePowers s' !! "three_lives" = Some (5000 + 999 * 1000)
  /\ lives s' = 3
  /\ readStored (localStorage s') "dogeThreeLivesUses" = Num 1.
Proof.
  intros c s'.
  destruct (usePower_activation "three_lives" 5000 c
              {| id := "three_lives"; cost := 100; owned := false;
                 powerActive := false; duration := Some 999;
                 usesRemaining := Some (Num 2); maxUses := Some 2 |}
              2 999)
    as (_ & H2 & H3 & _ & _ & H6 & _);
    [reflexivity | reflexivity | lia | reflexivity | lia | lia |].
  split; [exact H3|]. split; [exact H6|].
  apply H2. reflexivity.
Defined.

(** ** Starting a game *)

Lemma autoFires_Some (powerId : string) (c : State) (n : Z) :
  autoFires powerId c = Some n ->
  exists power : PowerUp,
    findPower powerId (availablePowers (shopState c)) = Some power
    /\ usesRemaining power = Some (Num n) /\ 0 < n.
Proof.
  unfold autoFires.
  destruct (findPower powerId (availablePowers (shopState c))) as [power|];
    [|discriminate].
  destruct (usesRemaining power) as [[|m]|] eqn:Hu; try discriminate.
  destruct (0 <? m) eqn:E; [|discriminate].
  intros H. injection H as <-. exists power. apply Z.ltb_lt in E.
  repeat split; [exact Hu | exact E].
Qed.

Lemma autoActivate_spec (powerId : string) (now : Z) (c s : State) :
  autoActivate powerId now c s
  = match autoFires powerId c with
    | Some _ => usePower powerId now c s
    | None => s
    end.
Proof.
  unfold autoActivate, autoFires.
  destruct (findPower powerId (availablePowers (shopState c))) as [power|];
    [|reflexivity].
  destruct (usesRemaining power) as [[|m]|]; try reflexivity.
  unfold truthy, jsGt, jsLt.
  destruct (0 <? m) eqn:E.
  - apply Z.ltb_lt in E.
    replace (m =? 0) with false by (symmetry; apply Z.eqb_neq; lia).
    reflexivity.
  - now rewrite andb_false_r.
Qed.

(** What one automatic activation changes in the pending state. *)
Lemma autoActivate_step (k : string) (now : Z) (c s : State) :
  let s1 := autoActivate k now c s in
  (forall other : string,
      findPower other (availablePowers (shopState s1))
      = match autoFires k c with
        | Some n =>
            if String.eqb other k
            then activated k (Num (n - 1))
                   <$> findPower other (availablePowers (shopState s))
            else findPower other (availablePowers (shopState s))
        | None => findPower other (availablePowers (shopState s))
        end)
  /\ (forall other : string,
        activePowers s1 !! other
        = match autoFires k c,
                findPower k (availablePowers (shopState c)) with
          | Some n, Some power =>
              match duration power with
              | Some d =>
                  if (d =? 0) || negb (String.eqb other k)
                  then activePowers s !! other
                  else Some (now + d * 1000)
              | None => activePowers s !! other
              end
          | _, _ => activePowers s !! other
          end)
  /\ (forall key : string,
        localStorage s1 !! key
        = match autoFires k c with
          | Some n =>
              if bool_decide (usesKey k = Some key)
              then Some (pretty (n - 1))
              else localStorage s !! key
          | None => localStorage s !! key
          end)
  /\ lives s1
     = match autoFires k c with
       | Some _ => if String.eqb k "three_lives" then 3 else lives s
       | None => lives s
       end
  /\ maxLives s1
     = match autoFires k c with
       | Some _ => if String.eqb k "three_lives" then 3 else maxLives s
       | None => maxLives s
       end
  /\ isOpen (shopState s1) = isOpen (shopState s)
  /\ totalCoinsCollected s1 = totalCoinsCollected s
  /\ dogevisions s1 = dogevisions s
  /\ gameState s1 = gameState s /\ player s1 = player s
  /\ isInvulnerable s1 = isInvulnerable s
  /\ spawnerView s1 = spawnerView s
  /\ collectibles s1 = collectibles s
  /\ particles s1 = particles s /\ currentSpeed s1 = currentSpeed s
  /\ timers s1 = timers s.
Proof.
  cbv zeta. rewrite autoActivate_spec.
  destruct (autoFires k c) as [n|] eqn:Hfire; [|repeat split].
  destruct (autoFires_Some k c n Hfire) as (power & Hf & Hn & Hpos).
  destruct (usePower_fires k now c s power n Hf Hn Hpos)
    as (Hpow & Hopen & Hact & Hl & Hm & Hst & Ht & Hd & Hg & Hp & Hv & Hsv
        & Hco & Hpa & Hcs & Htm).
  rewrite Hf.
  split; [intros other; rewrite Hpow; apply findPower_activated|].
  split.
  { intros other. rewrite Hact.
    destruct (duration power) as [d|]; [|reflexivity].
    destruct (d =? 0); [reflexivity|]. cbn [orb].
    destruct (String.eqb other k) eqn:E; cbn [negb].
    - apply String.eqb_eq in E as ->. apply lookup_insert_eq.
    - apply lookup_insert_ne. apply String.eqb_neq in E. congruence. }
  split.
  { intros key. rewrite Hst.
    destruct (usesKey k) as [key'|] eqn:Hk.
    - destruct (decide (key' = key)) as [-> | Hne].
      + rewrite bool_decide_eq_true_2 by reflexivity. apply lookup_insert_eq.
      + rewrite bool_decide_eq_false_2 by congruence.
        now apply lookup_insert_ne.
    - rewrite bool_decide_eq_false_2 by discriminate. reflexivity. }
  repeat split; assumption.
Qed.

(** X9: starting a game resets the session (score, coins, player on the
    ground line, empty arrays, world offset, spawn cursor, speed, shop
    closed) and, for each power of the catalogue that has uses left, takes
    one use (in the catalogue and in the store) and activates it from now on;
    a power without uses is left as it was.  The game starts with three
    lives when the three-lives power had a use, with one life otherwise. *)
Theorem startGame_resets_and_activates (now : Z) (c : State) :
  let s' := startGame now c c in
  (isPlaying (gameState s') = true /\ gameOverFlag (gameState s') = false
   /\ score (gameState s') = 0 /\ coins (gameState s') = 0
   /\ highScore (gameState s') = highScore (gameState c)
   /\ highCoins (gameState s') = highCoins (gameState c))
  /\ (position (player s')
      = {| pos_x := 100; pos_y := GAME_CONFIG.GROUND_Y - 70 |}
      /\ velocity (player s') = {| vel_x := 0; vel_y := 0 |}
      /\ isGrounded (player s') = true /\ jumpCount (player s') = 0
      /\ height (player s') = height (player c)
      /\ maxJumps (player s') = maxJumps (player c))
  /\ (obstacles s' = [] /\ collectibles s' = [] /\ particles s' = []
      /\ worldOffset s' = 0%Q
      /\ nextObstacleX s' = (GAME_CONFIG.CANVAS_WIDTH + 100)%Q
      /\ currentSpeed s' = GAME_CONFIG.BASE_SCROLL_SPEED
      /\ isOpen (shopState s') = false /\ isInvulnerable s' = false)
  /\ (lives s' = match autoFires "three_lives" c with
                 | Some _ => 3 | None => 1 end
      /\ maxLives s' = lives s')
  /\ (totalCoinsCollected s' = totalCoinsCollected c
      /\ dogevisions s' = dogevisions c)
  /\ (forall powerId : string,
        powerId ∈ catalogueIds ->
        findPower powerId (availablePowers (shopState s'))
        = match autoFires powerId c with
          | Some n =>
              activated powerId (Num (n - 1))
                <$> findPower powerId (availablePowers (shopState c))
          | None => findPower powerId (availablePowers (shopState c))
          end
        /\ activePowers s' !! powerId
           = match autoFires powerId c,
                   findPower powerId (availablePowers (shopState c)) with
             | Some n, Some power =>
                 match duration power with
                 | Some d => if d =? 0 then activePowers c !! powerId
                             else Some (now + d * 1000)
                 | None => activePowers c !! powerId
                 end
             | _, _ => activePowers c !! powerId
             end
        /\ (forall key : string,
              usesKey powerId = Some key ->
              localStorage s' !! key
              = match autoFires powerId c with
                | Some n => Some (pretty (n - 1))
                | None => localStorage c !! key
                end)).
Proof.
  intros s'. subst s'. unfold startGame.
  set (s0 := setIsInvulnerable false _).
  set (s1 := autoActivate "double_collector" now c s0).
  set (s2 := autoActivate "magnetic_collector" now c s1).
  destruct (autoActivate_step "double_collector" now c s0)
    as (P1 & A1 & S1 & L1 & M1 & O1 & T1 & D1 & G1 & Y1 & V1 & W1 & C1
        & Q1 & R1 & _).
  fold s1 in P1, A1, S1, L1, M1, O1, T1, D1, G1, Y1, V1, W1, C1, Q1, R1.
  destruct (autoActivate_step "magnetic_collector" now c s1)
    as (P2 & A2 & S2 & L2 & M2 & O2 & T2 & D2 & G2 & Y2 & V2 & W2 & C2
        & Q2 & R2 & _).
  fold s2 in P2, A2, S2, L2, M2, O2, T2, D2, G2, Y2, V2, W2, C2, Q2, R2.
  destruct (autoActivate_step "three_lives" now c s2)
    as (P3 & A3 & S3 & L3 & M3 & O3 & T3 & D3 & G3 & Y3 & V3 & W3 & C3
        & Q3 & R3 & _).
  split; [rewrite G3, G2, G1; repeat split|].
  split; [rewrite Y3, Y2, Y1; repeat split|].
  split.
  { unfold spawnerView in W1, W2, W3.
    assert (obstacles (autoActivate "three_lives" now c s2) = obstacles s0
            /\ worldOffset (autoActivate "three_lives" now c s2)
               = worldOffset s0
            /\ nextObstacleX (autoActivate "three_lives" now c s2)
               = nextObstacleX s0) as (Ho & Hw & Hn)
      by (repeat split; congruence).
    rewrite Ho, Hw, Hn, C3, C2, C1, O3, O2, O1, V3, V2, V1.
    rewrite Q3, Q2, Q1, R3, R2, R1.
    repeat split. }
  split.
  { rewrite L3, M3, L2, M2, L1, M1. cbn [String.eqb Ascii.eqb Bool.eqb].
    destruct (autoFires "three_lives" c); [split; reflexivity|].
    destruct (autoFires "magnetic_collector" c);
      destruct (autoFires "double_collector" c); split; reflexivity. }
  split; [rewrite T3, T2, T1, D3, D2, D1; split; reflexivity|].
  intros powerId Hin.
  assert (powerId = "double_collector" \/ powerId = "magnetic_collector"
          \/ powerId = "three_lives") as Hcases.
  { unfold catalogueIds in Hin.
    repeat (apply elem_of_cons in Hin as [-> | Hin]; [tauto|]).
    now apply elem_of_nil in Hin. }
  destruct Hcases as [-> | [-> | ->]];
    (split; [|split]).
  - rewrite P3, P2, P1. cbn [String.eqb Ascii.eqb Bool.eqb].
    destruct (autoFires "three_lives" c);
      destruct (autoFires "magnetic_collector" c);
      destruct (autoFires "double_collector" c); reflexivity.
  - rewrite A3, A2, A1. cbn [String.eqb Ascii.eqb Bool.eqb negb orb].
    rewrite ?orb_true_r, ?orb_false_r. cbv beta iota.
    repeat match goal with
           | |- context [autoFires ?p c] => destruct (autoFires p c)
           | |- context [findPower ?p ?l] => destruct (findPower p l)
           | |- context [duration ?p] => destruct (duration p)
           | |- context [?d =? 0] => destruct (d =? 0)
           end; reflexivity.
  - intros key Hkey. injection Hkey as <-. rewrite S3, S2, S1.
    rewrite (bool_decide_eq_true_2 (usesKey "double_collector" = _))
      by reflexivity.
    rewrite (bool_decide_eq_false_2 (usesKey "magnetic_collector" = _))
      by discriminate.
    rewrite (bool_decide_eq_false_2 (usesKey "three_lives" = _))
      by discriminate.
    destruct (autoFires "three_lives" c);
      destruct (autoFires "magnetic_collector" c);
      destruct (autoFires "double_collector" c); reflexivity.
  - rewrite P3, P2, P1. cbn [String.eqb Ascii.eqb Bool.eqb].
    destruct (autoFires "three_lives" c);
      destruct (autoFires "magnetic_collector" c);
      destruct (autoFires "double_collector" c); reflexivity.
  - rewrite A3, A2, A1. cbn [String.eqb Ascii.eqb Bool.eqb negb orb].
    rewrite ?orb_true_r, ?orb_false_r. cbv beta iota.
    repeat match goal with
           | |- context [autoFires ?p c] => destruct (autoFires p c)
           | |- context [findPower ?p ?l] => destruct (findPower p l)
           | |- context [duration ?p] => destruct (duration p)
           | |- context [?d =? 0] => destruct (d =? 0)
           end; reflexivity.
  - intros key Hkey. injection Hkey as <-. rewrite S3, S2, S1.
    rewrite (bool_decide_eq_false_2 (usesKey "double_collector" = _))
      by discriminate.
    rewrite (bool_decide_eq_true_2 (usesKey "magnetic_collector" = _))
      by reflexivity.
    rewrite (bool_decide_eq_false_2 (usesKey "three_lives" = _))
      by discriminate.
    destruct (autoFires "three_lives" c);
      destruct (autoFires "magnetic_collector" c);
      destruct (autoFires "double_collector" c); reflexivity.
  - rewrite P3, P2, P1. cbn [String.eqb Ascii.eqb Bool.eqb].
    destruct (autoFires "three_lives" c);
      destruct (autoFires "magnetic_collector" c);
      destruct (autoFires "double_collector" c); reflexivity.
  - rewrite A3, A2, A1. cbn [String.eqb Ascii.eqb Bool.eqb negb orb].
    rewrite ?orb_true_r, ?orb_false_r. cbv beta iota.
    repeat match goal with
           | |- context [autoFires ?p c] => destruct (autoFires p c)
           | |- context [findPower ?p ?l] => destruct (findPower p l)
           | |- context [duration ?p] => destruct (duration p)
           | |- context [?d =? 0] => destruct (d =? 0)
           end; reflexivity.
  - intros key Hkey. injection Hkey as <-. rewrite S3, S2, S1.
    rewrite (bool_decide_eq_false_2 (usesKey "double_collector" = _))
      by discriminate.
    rewrite (bool_decide_eq_false_2 (usesKey "magnetic_collector" = _))
      by discriminate.
    rewrite (bool_decide_eq_true_2 (usesKey "three_lives" = _))
      by reflexivity.
    destruct (autoFires "three_lives" c);
      destruct (autoFires "magnetic_collector" c);
      destruct (autoFires "double_collector" c); reflexivity.
Qed.

(** ** The store and the state agree *)

Lemma readStored_toString (store : gmap string string) (key : string)
    (x : JSNumber) :
  readStored (<[key := toString x]> store) key = x.
Proof.
  destruct x as [|z].
  - unfold readStored. rewrite lookup_insert_eq. reflexivity.
  - apply readStored_written. apply lookup_insert_eq.
Qed.

Lemma readStored_other (store : gmap string string) (key key' v : string) :
  key <> key' -> readStored (<[key := v]> store) key' = readStored store key'.
Proof. intros H. unfold readStored. now rewrite lookup_insert_ne. Qed.

Lemma storeAgrees_iff (s : State) :
  storeAgrees s
  <-> readStored (localStorage s) "dogeTotalCoins" = totalCoinsCollected s
      /\ readStored (localStorage s) "dogeDogevisions" = dogevisions s
      /\ readStored (localStorage s) "dogeHighScore" = highScore (gameState s)
      /\ readStored (localStorage s) "dogeHighCoins" = highCoins (gameState s)
      /\ List.map (fun p => (id p, usesRemaining p))
           (availablePowers (shopState s))
         = [ ("double_collector",
              Some (readStored (localStorage s) "dogeDoubleCollectorUses"));
             ("magnetic_collector",
              Some (readStored (localStorage s) "dogeMagneticCollectorUses"));
             ("three_lives",
              Some (readStored (localStorage s) "dogeThreeLivesUses")) ].
Proof.
  unfold storeAgrees, persisted. cbn. split.
  - intros H. injection H as H1 H2 H3 H4 H5. repeat split; congruence.
  - intros (H1 & H2 & H3 & H4 & H5). now rewrite H1, H2, H3, H4, H5.
Qed.

(** What an operation must leave alone for the agreement to carry over. *)
Lemma storeAgrees_same (s s' : State) :
  localStorage s' = localStorage s ->
  totalCoinsCollected s' = totalCoinsCollected s ->
  dogevisions s' = dogevisions s ->
  highScore (gameState s') = highScore (gameState s) ->
  highCoins (gameState s') = highCoins (gameState s) ->
  List.map (fun p => (id p, usesRemaining p)) (availablePowers (shopState s'))
  = List.map (fun p => (id p, usesRemaining p)) (availablePowers (shopState s)) ->
  storeAgrees s -> storeAgrees s'.
Proof.
  intros HL HT HD HS HC HU. unfold storeAgrees, persisted.
  rewrite HL, HT, HD, HS, HC, HU. trivial.
Qed.

Lemma uses_withPowerActive (b : bool) (powers : list PowerUp) :
  List.map (fun p => (id p, usesRemaining p))
    (List.map (withPowerActive b) powers)
  = List.map (fun p => (id p, usesRemaining p)) powers.
Proof. rewrite List.map_map. reflexivity. Qed.

Lemma jump_store (random : nat -> Q) (c s : State) :
  storeAgrees s -> storeAgrees (jump random c s).
Proof.
  unfold jump. destruct (isGrounded (player c) && (jumpCount (player c) =? 0));
    [|trivial].
  rewrite withRandom_eq. apply storeAgrees_same; reflexivity.
Qed.

Lemma gameLoop_store (random : nat -> Q) (c s : State) :
  storeAgrees s -> storeAgrees (gameLoop random c s).
Proof.
  unfold gameLoop. destruct (negb (isPlaying (gameState c))); [trivial|].
  unfold scrollEntities, spawnObstacle.
  destruct (Qle_bool _ _); [rewrite !withRandom_eq|];
    apply storeAgrees_same; reflexivity.
Qed.

Lemma runTimers_store (now : Z) (s : State) :
  storeAgrees s -> storeAgrees (runTimers now s).
Proof.
  unfold runTimers.
  destruct (List.filter (fun deadline => deadline <=? now) (timers s));
    [trivial|]. apply storeAgrees_same; reflexivity.
Qed.

Lemma checkPowerExpiration_store (now : Z) (s : State) :
  storeAgrees s -> storeAgrees (checkPowerExpiration now s).
Proof.
  destruct (checkPowerExpiration_fields now s)
    as (_ & _ & _ & HT & HD & HL & HG & HU & _).
  apply storeAgrees_same; try assumption; now rewrite HG.
Qed.

Lemma gameOver_store (random : nat -> Q) (c s : State) :
  storeAgrees s -> storeAgrees (gameOver random c s).
Proof.
  intros H. apply storeAgrees_iff in H as (H1 & H2 & H3 & H4 & H5).
  destruct (gameOver_fields random c s)
    as (_ & _ & _ & _ & HP & _ & HG & HL & HT & HD & _).
  apply storeAgrees_iff. rewrite HL, HT, HD, HG, HP, uses_withPowerActive.
  cbn [highScore highCoins].
  rewrite readStored_toString.
  rewrite !(readStored_other _ "dogeHighCoins") by discriminate.
  rewrite readStored_toString.
  rewrite !(readStored_other _ "dogeHighScore") by discriminate.
  repeat split; assumption.
Qed.

Lemma loseLife_store (random : nat -> Q) (now : Z) (c s : State) :
  storeAgrees s -> storeAgrees (loseLife random now c s).
Proof.
  unfold loseLife. destruct (isInvulnerable c); [trivial|].
  destruct (1 <? lives c); [|apply gameOver_store].
  rewrite withRandom_eq. apply storeAgrees_same; reflexivity.
Qed.

Lemma collectCoin_store (random : nat -> Q) (now : Z) (c : State) (i : nat)
    (coin : Collectible) (s : State) :
  storeAgrees s -> storeAgrees (collectCoin random now c i coin s).
Proof.
  intros H. unfold collectCoin.
  destruct (collected coin || negb (active coin)); [exact H|].
  rewrite withRandom_eq.
  apply storeAgrees_iff in H as (H1 & H2 & H3 & H4 & H5).
  apply storeAgrees_iff.
  cbn [localStorage totalCoinsCollected dogevisions gameState highScore
       highCoins shopState availablePowers setParticles setRandomCalls
       setTotalCoinsCollected localStorage_setItem setLocalStorage
       setGameState setCollectibles fst snd particles].
  rewrite readStored_toString.
  rewrite !(readStored_other _ "dogeTotalCoins") by discriminate.
  repeat split; assumption.
Qed.

Lemma collisionEffect_store (random : nat -> Q) (now : Z) (c : State) :
  storeAgrees c -> storeAgrees (collisionEffect random now c).
Proof.
  unfold collisionEffect. destruct (negb (isPlaying (gameState c)));
    [trivial|].
  assert (forall obs s, storeAgrees s ->
                        storeAgrees (foldl (hitObstacle random now c) s obs))
    as Hhits.
  { induction obs as [|o obs IH]; intros s Hs; simpl; [exact Hs|].
    apply IH. unfold hitObstacle.
    destruct (checkCollision (player c) o);
      [now apply loseLife_store | exact Hs]. }
  assert (forall entries s,
             storeAgrees s ->
             storeAgrees (foldl (touchCoin random now c) s entries))
    as Htouch.
  { induction entries as [|[j cn] entries IH]; intros s Hs; simpl;
      [exact Hs|].
    apply IH.
    destruct (negb (collected cn) && active cn); [|exact Hs].
    destruct (isPowerActive "magnetic_collector" now (activePowers c)).
    - destruct (withinRange _ _ _); [now apply collectCoin_store | exact Hs].
    - destruct (checkCollision (player c) cn);
        [now apply collectCoin_store | exact Hs]. }
  intros Hc. apply Htouch, Hhits, Hc.
Qed.

Lemma handle_store (random : nat -> Q) (e : Event) (s : State) :
  storeAgrees s -> storeAgrees (handle random e s).
Proof.
  destruct e; simpl;
    [apply gameLoop_store | apply jump_store | apply collisionEffect_store
    | apply runTimers_store | apply checkPowerExpiration_store].
Qed.

Lemma exchange_store (c s : State) :
  storeAgrees s -> storeAgrees (snd (exchangeForDogevision c s)).
Proof.
  intros H. unfold exchangeForDogevision.
  destruct (jsGt _ _); [|exact H].
  apply storeAgrees_iff in H as (H1 & H2 & H3 & H4 & H5).
  apply storeAgrees_iff.
  cbn [snd localStorage totalCoinsCollected dogevisions gameState shopState
       setTotalCoinsCollected setDogevisions localStorage_setItem
       setLocalStorage].
  rewrite readStored_toString.
  rewrite !(readStored_other _ "dogeDogevisions") by discriminate.
  rewrite readStored_toString.
  rewrite !(readStored_other _ "dogeTotalCoins") by discriminate.
  repeat split; assumption.
Qed.

(** The catalogue of a state that agrees with its store. *)
Lemma storeAgrees_catalogue (s : State) :
  storeAgrees s ->
  exists p1 p2 p3 : PowerUp,
    availablePowers (shopState s) = [p1; p2; p3]
    /\ id p1 = "double_collector" /\ id p2 = "magnetic_collector"
    /\ id p3 = "three_lives".
Proof.
  intros H. apply storeAgrees_iff in H as (_ & _ & _ & _ & H5).
  destruct (availablePowers (shopState s)) as [|p1 [|p2 [|p3 [|p4 l]]]];
    try discriminate H5.
  cbn in H5. injection H5 as E1 _ E2 _ E3 _.
  exists p1, p2, p3. repeat split; assumption.
Qed.

Lemma uses_rewritten (f : JSNumber -> PowerUp -> PowerUp) (powerId : string)
    (n : JSNumber) (p1 p2 p3 : PowerUp) :
  (forall p, id (f n p) = id p) ->
  (forall p, usesRemaining (f n p)
             = if String.eqb (id p) powerId then Some n else usesRemaining p) ->
  List.map (fun p => (id p, usesRemaining p)) (List.map (f n) [p1; p2; p3])
  = List.map (fun p => (id p,
                        if String.eqb (id p) powerId then Some n
                        else usesRemaining p)) [p1; p2; p3].
Proof. intros Hid Hu. cbn. now rewrite !Hid, !Hu. Qed.

Lemma purchased_uses (powerId : string) (n : JSNumber) (p : PowerUp) :
  usesRemaining (purchased powerId n p)
  = if String.eqb (id p) powerId then Some n else usesRemaining p.
Proof. unfold purchased. destruct (String.eqb (id p) powerId); reflexivity. Qed.

Lemma activated_uses (powerId : string) (n : JSNumber) (p : PowerUp) :
  usesRemaining (activated powerId n p)
  = if String.eqb (id p) powerId then Some n else usesRemaining p.
Proof. unfold activated. destruct (String.eqb (id p) powerId); reflexivity. Qed.

(** Writing the uses of one power to the catalogue and to the store. *)
Lemma storeAgrees_uses (f : JSNumber -> PowerUp -> PowerUp)
    (powerId : string) (n : JSNumber) (s s' : State) :
  (forall p, id (f n p) = id p) ->
  (forall p, usesRemaining (f n p)
             = if String.eqb (id p) powerId then Some n else usesRemaining p) ->
  availablePowers (shopState s')
  = List.map (f n) (availablePowers (shopState s)) ->
  localStorage s'
  = match usesKey powerId with
    | Some key => <[key := toString n]> (localStorage s)
    | None => localStorage s
    end ->
  totalCoinsCollected s' = totalCoinsCollected s ->
  dogevisions s' = dogevisions s ->
  highScore (gameState s') = highScore (gameState s) ->
  highCoins (gameState s') = highCoins (gameState s) ->
  storeAgrees s -> storeAgrees s'.
Proof.
  intros Hid Hu HP HL HT HD HS HC H.
  destruct (storeAgrees_catalogue s H) as (p1 & p2 & p3 & Hl & I1 & I2 & I3).
  apply storeAgrees_iff in H as (H1 & H2 & H3 & H4 & H5).
  apply storeAgrees_iff. rewrite HP, HL, HT, HD, HS, HC, Hl.
  rewrite Hl in H5. cbn in H5. injection H5 as _ U1 _ U2 _ U3.
  rewrite (uses_rewritten f powerId n p1 p2 p3 Hid Hu).
  cbn [List.map]. rewrite I1, I2, I3, U1, U2, U3.
  unfold usesKey.
  destruct (String.eqb_spec "double_collector" powerId) as [<-|N1].
  { cbn. rewrite readStored_toString.
    rewrite !(readStored_other _ "dogeDoubleCollectorUses") by discriminate.
    repeat split; assumption. }
  rewrite (proj2 (String.eqb_neq powerId "double_collector"))
    by congruence.
  destruct (String.eqb_spec "magnetic_collector" powerId) as [<-|N2].
  { cbn. rewrite readStored_toString.
    rewrite !(readStored_other _ "dogeMagneticCollectorUses") by discriminate.
    repeat split; assumption. }
  rewrite (proj2 (String.eqb_neq powerId "magnetic_collector"))
    by congruence.
  destruct (String.eqb_spec "three_lives" powerId) as [<-|N3].
  { cbn. rewrite readStored_toString.
    rewrite !(readStored_other _ "dogeThreeLivesUses") by discriminate.
    repeat split; assumption. }
  rewrite (proj2 (String.eqb_neq powerId "three_lives")) by congruence.
  repeat split; assumption.
Qed.

Lemma buyPower_store (powerId : string) (c s : State) :
  storeAgrees s -> storeAgrees (buyPower powerId c s).
Proof.
  intros H. unfold buyPower.
  destruct (findPower powerId (availablePowers (shopState c))) as [power|];
    [|exact H].
  destruct (jsLt _ _); [exact H|].
  set (newTotal := jsSub (totalCoinsCollected c) (Num (cost power))).
  set (n := jsAdd _ _).
  set (s1 := localStorage_setItem "dogeTotalCoins" (toString newTotal)
               (setTotalCoinsCollected newTotal s)).
  assert (storeAgrees s1) as H1.
  { apply storeAgrees_iff in H as (H1 & H2 & H3 & H4 & H5).
    apply storeAgrees_iff. subst s1.
    cbn [localStorage totalCoinsCollected dogevisions gameState shopState
         setTotalCoinsCollected localStorage_setItem setLocalStorage].
    rewrite readStored_toString.
    rewrite !(readStored_other _ "dogeTotalCoins") by discriminate.
    repeat split; assumption. }
  apply (storeAgrees_uses (purchased powerId) powerId n s1);
    [apply purchased_id | apply purchased_uses | | | | | | | exact H1];
    rewrite saveUses_only_store; try reflexivity.
  cbn [closeShop setShopState localStorage setLocalStorage].
  apply saveUses_store.
Qed.

Lemma usePower_store (powerId : string) (now : Z) (c s : State) :
  storeAgrees s -> storeAgrees (usePower powerId now c s).
Proof.
  intros H. unfold usePower.
  destruct (findPower powerId (availablePowers (shopState c))) as [power|];
    [|exact H].
  destruct (usesRemaining power) as [uses|]; [|exact H].
  destruct (negb (truthy uses) || jsLe uses (Num 0)); [exact H|].
  set (n := jsSub uses (Num 1)).
  set (s1 := if String.eqb powerId "three_lives" then _ else _).
  assert (storeAgrees s1) as H1.
  { subst s1.
    destruct (String.eqb powerId "three_lives"), (duration power) as [d|];
      try destruct (negb (d =? 0));
      (apply (storeAgrees_same s); [reflexivity .. | exact H]). }
  apply (storeAgrees_uses (activated powerId) powerId n s1);
    [apply activated_id | apply activated_uses | | | | | | | exact H1];
    rewrite saveUses_only_store; try reflexivity.
  cbn [setShopState localStorage setLocalStorage].
  apply saveUses_store.
Qed.

Lemma startGame_store (now : Z) (c s : State) :
  storeAgrees s -> storeAgrees (startGame now c s).
Proof.
  intros H. unfold startGame.
  set (s0 := setIsInvulnerable false _).
  assert (storeAgrees s0) as H0
    by (apply (storeAgrees_same s); [reflexivity .. | exact H]).
  clearbody s0.
  assert (forall k s1, storeAgrees s1 -> storeAgrees (autoActivate k now c s1))
    as Hauto.
  { intros k s1 H1. rewrite autoActivate_spec.
    destruct (autoFires k c); [now apply usePower_store | exact H1]. }
  now repeat apply Hauto.
Qed.

Lemma openShop_store (s : State) : storeAgrees s -> storeAgrees (openShop s).
Proof. apply storeAgrees_same; reflexivity. Qed.

Lemma closeShop_store (s : State) : storeAgrees s -> storeAgrees (closeShop s).
Proof. apply storeAgrees_same; reflexivity. Qed.

Lemma handleKeyDown_store (random : nat -> Q) (code : string) (now : Z)
    (c : State) :
  storeAgrees c -> storeAgrees (handleKeyDown random code now c).
Proof.
  intros H. unfold handleKeyDown.
  set (s1 := if String.eqb code "Space" then _ else _).
  assert (storeAgrees s1) as H1.
  { subst s1. destruct (String.eqb code "Space"); [|exact H].
    destruct (isPlaying (gameState c)); [now apply jump_store|].
    destruct (negb (isOpen (shopState c)));
      [now apply startGame_store | exact H]. }
  destruct (String.eqb code "KeyS" && negb (isPlaying (gameState c)));
    [|exact H1].
  destruct (isOpen (shopState c));
    [now apply closeShop_store | now apply openShop_store].
Qed.

Lemma perform_store (random : nat -> Q) (a : Action) (s : State) :
  storeAgrees s -> storeAgrees (perform random a s).
Proof.
  destruct a; simpl;
    [apply handle_store | apply handleKeyDown_store | apply buyPower_store
    | apply usePower_store | apply exchange_store | apply openShop_store
    | apply closeShop_store | apply startGame_store].
Qed.

Lemma performAll_store (random : nat -> Q) (actions : list Action)
    (s : State) :
  storeAgrees s -> storeAgrees (performAll random actions s).
Proof.
  revert s. induction actions as [|a actions IH]; intros s H; simpl;
    [exact H|].
  apply IH, perform_store, H.
Qed.

Lemma uses_find (powerId : string) (l l' : list PowerUp) :
  List.map (fun p => (id p, usesRemaining p)) l
  = List.map (fun p => (id p, usesRemaining p)) l' ->
  usesRemaining <$> findPower powerId l
  = usesRemaining <$> findPower powerId l'.
Proof.
  unfold findPower. revert l'.
  induction l as [|p l IH]; intros [|q l'] E; try discriminate E;
    [reflexivity|].
  cbn in E. injection E as Ei Eu El. cbn. rewrite Ei.
  destruct (String.eqb (id q) powerId); [cbn; congruence | now apply IH].
Qed.

(** X11: whatever is done from a freshly loaded state (frames, jumps,
    collision passes, timers, sweeps, key presses, purchases, uses of a
    power, exchanges, opening and closing the shop, new games), a reload from
    the store reads back the balances, the records and the remaining uses
    that the state holds. *)
Theorem reload_restores (random : nat -> Q) (store : gmap string string)
    (actions : list Action) :
  let s := performAll random actions (initialState store) in
  let reloaded := initialState (localStorage s) in
  totalCoinsCollected reloaded = totalCoinsCollected s
  /\ dogevisions reloaded = dogevisions s
  /\ highScore (gameState reloaded) = highScore (gameState s)
  /\ highCoins (gameState reloaded) = highCoins (gameState s)
  /\ (forall powerId : string,
        usesRemaining <$> findPower powerId (availablePowers (shopState reloaded))
        = usesRemaining <$> findPower powerId (availablePowers (shopState s))).
Proof.
  intros s reloaded.
  assert (storeAgrees s) as H by (apply performAll_store; reflexivity).
  unfold storeAgrees in H. fold reloaded in H.
  repeat split;
    [exact (f_equal p_totalCoins H) | exact (f_equal p_dogevisions H)
    | exact (f_equal p_highScore H) | exact (f_equal p_highCoins H) |].
  intros powerId. apply uses_find. exact (f_equal p_uses H).
Qed.

(** ** The collision pass as a whole *)

Lemma collectCoin_keeps (random : nat -> Q) (now : Z) (c : State) (i : nat)
    (coin : Collectible) (s : State) :
  lives (collectCoin random now c i coin s) = lives s
  /\ maxLives (collectCoin random now c i coin s) = maxLives s
  /\ isPlaying (gameState (collectCoin random now c i coin s))
     = isPlaying (gameState s)
  /\ gameOverFlag (gameState (collectCoin random now c i coin s))
     = gameOverFlag (gameState s)
  /\ highScore (gameState (collectCoin random now c i coin s))
     = highScore (gameState s)
  /\ highCoins (gameState (collectCoin random now c i coin s))
     = highCoins (gameState s)
  /\ activePowers (collectCoin random now c i coin s) = activePowers s.
Proof.
  unfold collectCoin. destruct (collected coin || negb (active coin));
    [|rewrite withRandom_eq]; repeat split.
Qed.

Lemma touchCoin_collects (random : nat -> Q) (now : Z) (c s : State)
    (j : nat) (coin : Collectible) :
  touchCoin random now c s (j, coin)
  = if collectsCoin now c coin then collectCoin random now c j coin s else s.
Proof.
  unfold touchCoin, collectsCoin.
  destruct (negb (collected coin) && active coin); [|reflexivity].
  cbn [andb].
  destruct (isPowerActive "magnetic_collector" now (activePowers c));
    reflexivity.
Qed.

Lemma collectsCoin_fresh (now : Z) (c : State) (coin : Collectible) :
  collectsCoin now c coin = true ->
  collected coin = false /\ active coin = true.
Proof.
  unfold collectsCoin. intros H.
  apply andb_prop in H as [H _]. apply andb_prop in H as [H1 H2].
  split; [now apply negb_true_iff in H1 | exact H2].
Qed.

Lemma touches_keeps (random : nat -> Q) (now : Z) (c : State)
    (entries : list (nat * Collectible)) :
  forall s,
    lives (foldl (touchCoin random now c) s entries) = lives s
    /\ maxLives (foldl (touchCoin random now c) s entries) = maxLives s
    /\ isPlaying (gameState (foldl (touchCoin random now c) s entries))
       = isPlaying (gameState s)
    /\ gameOverFlag (gameState (foldl (touchCoin random now c) s entries))
       = gameOverFlag (gameState s)
    /\ highScore (gameState (foldl (touchCoin random now c) s entries))
       = highScore (gameState s)
    /\ highCoins (gameState (foldl (touchCoin random now c) s entries))
       = highCoins (gameState s)
    /\ activePowers (foldl (touchCoin random now c) s entries)
       = activePowers s.
Proof.
  induction entries as [|[j cn] entries IH]; intros s; cbn [foldl];
    [repeat split|].
  destruct (IH (touchCoin random now c s (j, cn)))
    as (-> & -> & -> & -> & -> & -> & ->).
  rewrite touchCoin_collects.
  destruct (collectsCoin now c cn); [apply collectCoin_keeps | repeat split].
Qed.

Lemma touches_counters (random : nat -> Q) (now : Z) (c : State)
    (entries : list (nat * Collectible)) :
  forall s,
    coins (gameState (foldl (touchCoin random now c) s entries))
    = coins (gameState s)
      + (if isPowerActive "double_collector" now (activePowers c)
         then 2 else 1)
        * Z.of_nat (length (List.filter (collectsCoin now c)
                              (List.map snd entries)))
    /\ score (gameState (foldl (touchCoin random now c) s entries))
       = score (gameState s)
         + (if isPowerActive "double_collector" now (activePowers c)
            then 2 else 1)
           * fold_right Z.add 0
               (List.map value
                  (List.filter (collectsCoin now c) (List.map snd entries)))
    /\ (forall T : Z,
          totalCoinsCollected s = Num T ->
          totalCoinsCollected (foldl (touchCoin random now c) s entries)
          = Num (T + (if isPowerActive "double_collector" now (activePowers c)
                      then 2 else 1)
                     * Z.of_nat (length (List.filter (collectsCoin now c)
                                           (List.map snd entries))))).
Proof.
  induction entries as [|[j cn] entries IH]; intros s; cbn [foldl].
  - cbn. split; [lia|]. split; [lia|]. intros T ->. f_equal. lia.
  - destruct (IH (touchCoin random now c s (j, cn))) as (Hc & Hs & Ht).
    rewrite Hc, Hs. clear Hc Hs. rewrite touchCoin_collects in *.
    cbn [List.map snd List.filter].
    destruct (collectsCoin now c cn) eqn:Hw.
    + destruct (collectsCoin_fresh now c cn Hw) as [Hf Ha].
      destruct (collectCoin_effect random now c j cn s Hf Ha)
        as (Hc & Hs & Htot & _).
      rewrite Hc, Hs. cbn [length List.map fold_right].
      split; [lia|]. split.
      { destruct (isPowerActive "double_collector" now (activePowers c)); lia. }
      intros T HT. rewrite (Ht (T + (if isPowerActive "double_collector" now
                                          (activePowers c) then 2 else 1))).
      * f_equal. lia.
      * rewrite Htot, HT. reflexivity.
    + split; [reflexivity|]. split; [reflexivity|]. exact Ht.
Qed.

Lemma imap_snd {A : Type} (l : list A) (f : nat -> A -> nat * A) :
  (forall i x, (f i x).2 = x) -> List.map snd (imap f l) = l.
Proof.
  revert f. induction l as [|x l IH]; intros f Hf; [reflexivity|].
  cbn. rewrite Hf. f_equal. apply IH. intros i y. apply Hf.
Qed.

Lemma loseLife_keeps (random : nat -> Q) (now : Z) (c s : State) :
  coins (gameState (loseLife random now c s)) = coins (gameState s)
  /\ score (gameState (loseLife random now c s)) = score (gameState s)
  /\ totalCoinsCollected (loseLife random now c s) = totalCoinsCollected s.
Proof.
  unfold loseLife. destruct (isInvulnerable c); [repeat split|].
  destruct (1 <? lives c); [rewrite withRandom_eq; repeat split|].
  destruct (gameOver_fields random c s)
    as (_ & _ & _ & _ & _ & _ & HG & _ & HT & _).
  rewrite HG, HT. repeat split.
Qed.

Lemma hits_keeps (random : nat -> Q) (now : Z) (c : State)
    (obs : list Obstacle) :
  forall s,
    coins (gameState (foldl (hitObstacle random now c) s obs))
    = coins (gameState s)
    /\ score (gameState (foldl (hitObstacle random now c) s obs))
       = score (gameState s)
    /\ totalCoinsCollected (foldl (hitObstacle random now c) s obs)
       = totalCoinsCollected s.
Proof.
  induction obs as [|o obs IH]; intros s; cbn [foldl]; [repeat split|].
  destruct (IH (hitObstacle random now c s o)) as (-> & -> & ->).
  unfold hitObstacle.
  destruct (checkCollision (player c) o);
    [apply loseLife_keeps | repeat split].
Qed.

(** X13: in one collision pass of a running game every bone that the pass
    decides to collect is counted once: the bones of the session grow by
    one per bone (two under the double collector), the score by the value
    of each (doubled under the double collector), and the persistent total
    by as much as the bones of the session, whatever the obstacles do in
    the same pass. *)
Theorem collisionEffect_counters (random : nat -> Q) (now : Z) (c : State) :
  isPlaying (gameState c) = true ->
  let s' := collisionEffect random now c in
  let taken := List.filter (collectsCoin now c) (collectibles c) in
  let k := if isPowerActive "double_collector" now (activePowers c)
           then 2 else 1 in
  coins (gameState s')
  = coins (gameState c) + k * Z.of_nat (length taken)
  /\ score (gameState s')
     = score (gameState c) + k * fold_right Z.add 0 (List.map value taken)
  /\ (forall T : Z,
        totalCoinsCollected c = Num T ->
        totalCoinsCollected s' = Num (T + k * Z.of_nat (length taken)))
  /\ (taken = [] ->
      coins (gameState s') = coins (gameState c)
      /\ score (gameState s') = score (gameState c)
      /\ totalCoinsCollected s' = totalCoinsCollected c).
Proof.
  intros Hp s' taken k. subst s'. unfold collisionEffect. rewrite Hp.
  cbn [negb].
  set (s1 := foldl (hitObstacle random now c) c (obstacles c)).
  destruct (hits_keeps random now c (obstacles c) c) as (Hc & Hs & Ht).
  fold s1 in Hc, Hs, Ht.
  destruct (touches_counters random now c (imap pair (collectibles c)) s1)
    as (Kc & Ks & Kt).
  rewrite imap_snd in Kc, Ks, Kt by reflexivity.
  fold taken k in Kc, Ks, Kt.
  rewrite Hc in Kc. rewrite Hs in Ks. rewrite Ht in Kt.
  split; [exact Kc|]. split; [exact Ks|]. split; [exact Kt|].
  intros E. rewrite Kc, Ks, E. cbn. split; [lia|]. split; [lia|].
  destruct (totalCoinsCollected c) as [|T] eqn:HT.
  - clear Kc Ks Kt. rewrite <- Ht.
    assert (forall entries s,
               List.filter (collectsCoin now c) (List.map snd entries) = [] ->
               totalCoinsCollected (foldl (touchCoin random now c) s entries)
               = totalCoinsCollected s) as Hnone.
    { induction entries as [|[j cn] entries IH]; intros s Hf; cbn [foldl];
        [reflexivity|].
      cbn [List.map snd List.filter] in Hf.
      destruct (collectsCoin now c cn) eqn:Hw; [discriminate Hf|].
      rewrite (IH _ Hf), touchCoin_collects, Hw. reflexivity. }
    apply Hnone. rewrite imap_snd by reflexivity. exact E.
  - rewrite (Kt T eq_refl). rewrite E. cbn. f_equal. lia.
Qed.

Lemma collisionEffect_counters_witness :
  let start := initialState ∅ in
  let s := startGame 0 start start in
  let c := setCollectibles [boneAt 100 400; boneAt 600 400] s in
  coins (gameState (collisionEffect (fun _ => 0%Q) 0 c)) = 1
  /\ score (gameState (collisionEffect (fun _ => 0%Q) 0 c)) = 10.
Proof.
  intros start s c.
  destruct (collisionEffect_counters (fun _ => 0%Q) 0 c eq_refl)
    as (Hc & Hs & _).
  split; [exact Hc | exact Hs].
Defined.

(** *** Obstacles hit in one pass *)

Lemma hits_iter (random : nat -> Q) (now : Z) (c : State)
    (obs : list Obstacle) :
  forall s,
    foldl (hitObstacle random now c) s obs
    = Nat.iter
        (length (List.filter
                   (fun o : Obstacle => checkCollision (player c) o) obs))
        (loseLife random now c) s.
Proof.
  induction obs as [|o obs IH]; intros s; cbn [foldl List.filter];
    [reflexivity|].
  rewrite IH. unfold hitObstacle.
  destruct (checkCollision (player c) o); [|reflexivity].
  cbn [length]. now rewrite Nat.iter_succ_r.
Qed.

Lemma Math_max_idem (a b : JSNumber) :
  Math_max a (Math_max a b) = Math_max a b.
Proof. destruct a, b; cbn; try reflexivity. f_equal. lia. Qed.

Lemma loseLife_decrements (random : nat -> Q) (now : Z) (c : State)
    (n : nat) :
  isInvulnerable c = false -> 1 < lives c ->
  forall s,
    let s' := Nat.iter (S n) (loseLife random now c) s in
    lives s' = lives c - 1 /\ isInvulnerable s' = true
    /\ timers s' = timers s ++ replicate (S n) (now + 2000)
    /\ maxLives s' = maxLives s /\ gameState s' = gameState s
    /\ activePowers s' = activePowers s.
Proof.
  intros Hi Hl. induction n as [|n IH]; intros s.
  - exact (loseLife_decrement random now c s Hi Hl).
  - cbv zeta. rewrite Nat.iter_succ_r.
    destruct (IH (loseLife random now c s)) as (H1 & H2 & H3 & H4 & H5 & H6).
    destruct (loseLife_decrement random now c s Hi Hl)
      as (_ & _ & K3 & K4 & K5 & K6).
    rewrite H3, H4, H5, H6, K3, K4, K5, K6, <- app_assoc.
    repeat split; assumption.
Qed.

Lemma gameOver_repeated (random : nat -> Q) (c : State) (n : nat) :
  forall s,
    let s' := Nat.iter (S n) (gameOver random c) s in
    activePowers s' = ∅ /\ lives s' = 1 /\ maxLives s' = 1
    /\ isInvulnerable s' = false
    /\ gameState s'
       = {| isPlaying := false; score := score (gameState s);
            coins := coins (gameState s);
            highScore := Math_max (Num (score (gameState s)))
                           (highScore (gameState s));
            highCoins := Math_max (Num (coins (gameState s)))
                           (highCoins (gameState s));
            gameOverFlag := true; level := level (gameState s) |}
    /\ timers s' = timers s.
Proof.
  induction n as [|n IH]; intros s.
  - destruct (gameOver_fields random c s)
      as (H1 & H2 & H3 & H4 & _ & _ & H7 & _ & _ & _ & _ & _ & _ & H14).
    repeat split; assumption.
  - cbv zeta. rewrite Nat.iter_succ_r.
    destruct (IH (gameOver random c s)) as (H1 & H2 & H3 & H4 & H5 & H6).
    destruct (gameOver_fields random c s)
      as (_ & _ & _ & _ & _ & _ & K7 & _ & _ & _ & _ & _ & _ & K14).
    rewrite H5, H6, K7, K14. cbn [score coins highScore highCoins level].
    rewrite !Math_max_idem. repeat split; assumption.
Qed.

Lemma loseLife_ignored (random : nat -> Q) (now : Z) (c : State) (n : nat) :
  isInvulnerable c = true ->
  forall s, Nat.iter n (loseLife random now c) s = s.
Proof.
  intros Hi. induction n as [|n IH]; intros s; [reflexivity|].
  rewrite Nat.iter_succ_r, IH. now apply loseLife_invulnerable.
Qed.

Lemma loseLife_ends (random : nat -> Q) (now : Z) (c : State) (n : nat) :
  isInvulnerable c = false -> lives c <= 1 ->
  forall s,
    Nat.iter n (loseLife random now c) s = Nat.iter n (gameOver random c) s.
Proof.
  intros Hi Hl. induction n as [|n IH]; intros s; [reflexivity|].
  rewrite !Nat.iter_succ_r, IH. f_equal. now apply loseLife_last.
Qed.

(** X14: the obstacles of one collision pass of a running game.  With no
    obstacle touched, or an invulnerable player, nothing changes for the
    lives.  With a vulnerable player who has more than one life, any number
    of obstacles touched in the same pass costs exactly one life, makes the
    player invulnerable and schedules one timer per obstacle, all for two
    seconds later.  With a vulnerable player on the last life the game is
    over: the records are computed from the score and the bones that the
    session had before the pass. *)
Theorem collisionEffect_lives (random : nat -> Q) (now : Z) (c : State) :
  isPlaying (gameState c) = true ->
  let s' := collisionEffect random now c in
  let hits := List.filter (fun o : Obstacle => checkCollision (player c) o)
                (obstacles c) in
  (hits = [] \/ isInvulnerable c = true ->
   lives s' = lives c /\ maxLives s' = maxLives c
   /\ isInvulnerable s' = isInvulnerable c /\ timers s' = timers c
   /\ isPlaying (gameState s') = true
   /\ activePowers s' = activePowers c)
  /\ (hits <> [] -> isInvulnerable c = false -> 1 < lives c ->
      lives s' = lives c - 1 /\ maxLives s' = maxLives c
      /\ isInvulnerable s' = true
      /\ timers s' = timers c ++ replicate (length hits) (now + 2000)
      /\ isPlaying (gameState s') = true
      /\ activePowers s' = activePowers c)
  /\ (hits <> [] -> isInvulnerable c = false -> lives c <= 1 ->
      isPlaying (gameState s') = false /\ gameOverFlag (gameState s') = true
      /\ lives s' = 1 /\ maxLives s' = 1 /\ isInvulnerable s' = false
      /\ timers s' = timers c /\ activePowers s' = ∅
      /\ highScore (gameState s')
         = Math_max (Num (score (gameState c))) (highScore (gameState c))
      /\ highCoins (gameState s')
         = Math_max (Num (coins (gameState c))) (highCoins (gameState c))).
Proof.
  intros Hp s' hits. subst s'. unfold collisionEffect. rewrite Hp.
  cbn [negb].
  set (s1 := foldl (hitObstacle random now c) c (obstacles c)).
  destruct (touches_keeps random now c (imap pair (collectibles c)) s1)
    as (-> & -> & -> & -> & -> & -> & ->).
  destruct (touches_guard random now c (imap pair (collectibles c)) s1)
    as (-> & ->).
  subst s1. rewrite hits_iter. fold hits.
  split; [|split].
  - intros [E | Hi].
    + rewrite E. cbn. repeat split. exact Hp.
    + rewrite (loseLife_ignored random now c _ Hi). repeat split. exact Hp.
  - intros Hne Hi Hl. destruct hits as [|o rest]; [congruence|].
    cbn [length].
    destruct (loseLife_decrements random now c (length rest) Hi Hl c)
      as (H1 & H2 & H3 & H4 & H5 & H6).
    rewrite H1, H2, H3, H4, H5, H6. repeat split. exact Hp.
  - intros Hne Hi Hl. destruct hits as [|o rest]; [congruence|].
    cbn [length]. rewrite (loseLife_ends random now c _ Hi Hl).
    destruct (gameOver_repeated random c (length rest) c)
      as (H1 & H2 & H3 & H4 & H5 & H6).
    rewrite H1, H2, H3, H4, H5, H6. repeat split.
Qed.

Lemma collisionEffect_lives_witness :
  let start := initialState (<["dogeThreeLivesUses" := "1"]> ∅) in
  let s := startGame 0 start start in
  let rock x :=
    {| obstacleObject :=
         {| position := {| pos_x := x; pos_y := 440 |};
            velocity := {| vel_x := 0; vel_y := 0 |};
            width := 60; height := 60; active := true |};
       obstacleType := rock; rotation := 0; rotationSpeed := 0 |} in
  let c := setObstacles [rock 90%Q; rock 120%Q] s in
  lives c = 3
  /\ lives (collisionEffect (fun _ => 0%Q) 700 c) = 2
  /\ timers (collisionEffect (fun _ => 0%Q) 700 c) = [2700; 2700].
Proof.
  intros start s rock c.
  destruct (collisionEffect_lives (fun _ => 0%Q) 700 c eq_refl)
    as (_ & H & _).
  destruct H as (H1 & _ & _ & H4 & _);
    [discriminate | reflexivity | reflexivity |].
  split; [reflexivity|]. split; [exact H1 | exact H4].
Defined.

(** ** The lives along a session *)

Lemma livesOk_cases (s s' : State) :
  livesOk s ->
  (lives s' = lives s /\ maxLives s' = maxLives s)
  \/ (lives s' = 3 /\ maxLives s' = 3)
  \/ (lives s' = 1 /\ maxLives s' = 1)
  \/ (lives s' = lives s - 1 /\ 1 < lives s /\ maxLives s' = maxLives s) ->
  livesOk s'.
Proof. unfold livesOk. lia. Qed.

Lemma jump_lives (random : nat -> Q) (c s : State) :
  lives (jump random c s) = lives s
  /\ maxLives (jump random c s) = maxLives s.
Proof.
  unfold jump.
  destruct (isGrounded (player c) && (jumpCount (player c) =? 0));
    [rewrite withRandom_eq|]; now split.
Qed.

Lemma gameLoop_lives (random : nat -> Q) (c s : State) :
  lives (gameLoop random c s) = lives s
  /\ maxLives (gameLoop random c s) = maxLives s.
Proof.
  unfold gameLoop. destruct (negb (isPlaying (gameState c))); [now split|].
  unfold scrollEntities, spawnObstacle.
  destruct (Qle_bool _ _); [rewrite !withRandom_eq|]; now split.
Qed.

Lemma runTimers_lives (now : Z) (s : State) :
  lives (runTimers now s) = lives s
  /\ maxLives (runTimers now s) = maxLives s.
Proof.
  unfold runTimers.
  destruct (List.filter (fun deadline => deadline <=? now) (timers s));
    now split.
Qed.

Lemma buyPower_lives (powerId : string) (c s : State) :
  lives (buyPower powerId c s) = lives s
  /\ maxLives (buyPower powerId c s) = maxLives s.
Proof.
  unfold buyPower.
  destruct (findPower powerId (availablePowers (shopState c))); [|now split].
  destruct (jsLt _ _); [now split|].
  rewrite saveUses_only_store. now split.
Qed.

Lemma exchange_lives (c s : State) :
  lives (snd (exchangeForDogevision c s)) = lives s
  /\ maxLives (snd (exchangeForDogevision c s)) = maxLives s.
Proof. unfold exchangeForDogevision. destruct (jsGt _ _); now split. Qed.

Lemma usePower_lives (powerId : string) (now : Z) (c s : State) :
  (lives (usePower powerId now c s) = lives s
   /\ maxLives (usePower powerId now c s) = maxLives s)
  \/ (lives (usePower powerId now c s) = 3
      /\ maxLives (usePower powerId now c s) = 3).
Proof.
  unfold usePower.
  destruct (findPower powerId (availablePowers (shopState c))) as [power|];
    [|now left].
  destruct (usesRemaining power) as [uses|]; [|now left].
  destruct (negb (truthy uses) || jsLe uses (Num 0)); [now left|].
  rewrite saveUses_only_store.
  destruct (String.eqb powerId "three_lives"); [now right|].
  left. destruct (duration power) as [d|]; [destruct (negb (d =? 0))|];
    now split.
Qed.

Lemma usePower_livesOk (powerId : string) (now : Z) (c s : State) :
  livesOk s -> livesOk (usePower powerId now c s).
Proof.
  intros H. apply (livesOk_cases s); [exact H|].
  destruct (usePower_lives powerId now c s) as [K | K]; tauto.
Qed.

Lemma startGame_livesOk (now : Z) (c s : State) :
  livesOk (startGame now c s).
Proof.
  unfold startGame.
  set (s0 := setIsInvulnerable false _).
  assert (livesOk s0) as H0 by (unfold livesOk; cbn; lia).
  clearbody s0.
  assert (forall k s1, livesOk s1 -> livesOk (autoActivate k now c s1))
    as Hauto.
  { intros k s1 H1. rewrite autoActivate_spec.
    destruct (autoFires k c); [now apply usePower_livesOk | exact H1]. }
  now repeat apply Hauto.
Qed.

Lemma collisionEffect_livesOk (random : nat -> Q) (now : Z) (c : State) :
  livesOk c -> livesOk (collisionEffect random now c).
Proof.
  intros H. unfold collisionEffect.
  destruct (negb (isPlaying (gameState c))); [exact H|].
  set (s1 := foldl (hitObstacle random now c) c (obstacles c)).
  destruct (touches_keeps random now c (imap pair (collectibles c)) s1)
    as (Hl & Hm & _).
  apply (livesOk_cases c); [exact H|]. rewrite Hl, Hm. subst s1.
  rewrite hits_iter.
  destruct (length _) as [|n]; [left; now split|].
  destruct (isInvulnerable c) eqn:Hi.
  { rewrite (loseLife_ignored random now c _ Hi). left. now split. }
  destruct (Z_lt_le_dec 1 (lives c)) as [Hlt | Hle].
  - destruct (loseLife_decrements random now c n Hi Hlt c)
      as (H1 & _ & _ & H4 & _).
    right. right. right. repeat split; assumption.
  - rewrite (loseLife_ends random now c _ Hi Hle).
    destruct (gameOver_repeated random c n c) as (_ & H2 & H3 & _).
    right. right. left. now split.
Qed.

Lemma checkPowerExpiration_livesOk (now : Z) (s : State) :
  livesOk s -> livesOk (checkPowerExpiration now s).
Proof.
  intros H. apply (livesOk_cases s); [exact H|].
  destruct (checkPowerExpiration_fields now s) as (_ & Hl & Hm & _).
  rewrite Hl, Hm. destruct (bool_decide _); [right; right; left|left];
    now split.
Qed.

Lemma handle_livesOk (random : nat -> Q) (e : Event) (s : State) :
  livesOk s -> livesOk (handle random e s).
Proof.
  intros H. destruct e as [| |now|now|now]; simpl.
  - apply (livesOk_cases s); [exact H|]. left. apply gameLoop_lives.
  - apply (livesOk_cases s); [exact H|]. left. apply jump_lives.
  - now apply collisionEffect_livesOk.
  - apply (livesOk_cases s); [exact H|]. left. apply runTimers_lives.
  - now apply checkPowerExpiration_livesOk.
Qed.

Lemma handleKeyDown_livesOk (random : nat -> Q) (code : string) (now : Z)
    (c : State) :
  livesOk c -> livesOk (handleKeyDown random code now c).
Proof.
  intros H. unfold handleKeyDown.
  set (s1 := if String.eqb code "Space" then _ else _).
  assert (livesOk s1) as H1.
  { subst s1. destruct (String.eqb code "Space"); [|exact H].
    destruct (isPlaying (gameState c)).
    - apply (livesOk_cases c); [exact H|]. left. apply jump_lives.
    - destruct (negb (isOpen (shopState c)));
        [apply startGame_livesOk | exact H]. }
  destruct (String.eqb code "KeyS" && negb (isPlaying (gameState c)));
    [|exact H1].
  destruct (isOpen (shopState c)); exact H1.
Qed.

Lemma perform_livesOk (random : nat -> Q) (a : Action) (s : State) :
  livesOk s -> livesOk (perform random a s).
Proof.
  intros H. destruct a; simpl.
  - now apply handle_livesOk.
  - now apply handleKeyDown_livesOk.
  - apply (livesOk_cases s); [exact H|]. left. apply buyPower_lives.
  - now apply usePower_livesOk.
  - apply (livesOk_cases s); [exact H|]. left. apply exchange_lives.
  - exact H.
  - exact H.
  - apply startGame_livesOk.
Qed.

(** X12: in every state reached from a freshly loaded one, whatever is
    done, the player has at least one life and at most the maximum, and the
    maximum is one or three. *)
Theorem lives_within_bounds (random : nat -> Q) (store : gmap string string)
    (actions : list Action) :
  let s := performAll random actions (initialState store) in
  1 <= lives s <= maxLives s /\ (maxLives s = 1 \/ maxLives s = 3).
Proof.
  intros s. change (livesOk s). subst s.
  assert (livesOk (initialState store)) as H0
    by (unfold livesOk; cbn; lia).
  revert H0. generalize (initialState store).
  induction actions as [|a actions IH]; intros s H; simpl; [exact H|].
  apply IH, perform_livesOk, H.
Qed.

(** ** Frames *)

Lemma gameLoop_frame (random : nat -> Q) (s : State) :
  isPlaying (gameState s) = true ->
  player (gameLoop random s s) = integratePlayer (player s)
  /\ score (gameState (gameLoop random s s)) = score (gameState s) + 1
  /\ isPlaying (gameState (gameLoop random s s)) = true
  /\ coins (gameState (gameLoop random s s)) = coins (gameState s)
  /\ currentSpeed (gameLoop random s s)
     = getGameSpeed (inject_Z (score (gameState s)))
  /\ worldOffset (gameLoop random s s)
     = (worldOffset s + getGameSpeed (inject_Z (score (gameState s))))%Q.
Proof.
  intros Hp. unfold gameLoop. rewrite Hp. cbn [negb].
  unfold scrollEntities, spawnObstacle.
  destruct (Qle_bool _ _); [rewrite !withRandom_eq|]; cbn; rewrite ?Hp;
    repeat split.
Qed.

Lemma run_app (random : nat -> Q) (l1 l2 : list Event) (s : State) :
  run random (l1 ++ l2) s = run random l2 (run random l1 s).
Proof. unfold run. apply foldl_app. Qed.

Lemma replicate_S_end {A : Type} (n : nat) (x : A) :
  replicate (S n) x = replicate n x ++ [x].
Proof. induction n as [|n IH]; [reflexivity|]. cbn. now rewrite <- IH. Qed.

Lemma frames_effect (random : nat -> Q) (s : State) (n : nat) :
  isPlaying (gameState s) = true ->
  player (run random (replicate n Frame) s)
  = Nat.iter n integratePlayer (player s)
  /\ score (gameState (run random (replicate n Frame) s))
     = score (gameState s) + Z.of_nat n
  /\ isPlaying (gameState (run random (replicate n Frame) s)) = true
  /\ coins (gameState (run random (replicate n Frame) s))
     = coins (gameState s).
Proof.
  intros Hp. induction n as [|n (IH1 & IH2 & IH3 & IH4)].
  - cbn. repeat split; [lia | exact Hp].
  - rewrite replicate_S_end, run_app.
    change (run random [Frame] ?x) with (gameLoop random x x).
    destruct (gameLoop_frame random _ IH3) as (H1 & H2 & H3 & H4 & _).
    rewrite H1, H2, H3, H4, IH1, IH2, IH4. cbn [Nat.iter nat_rect].
    repeat split. lia.
Qed.

(** X18: [n] frames of a running game add exactly [n] to the score and
    leave the game running and the bones of the session alone; the world
    has then scrolled by at least 4 and at most 16 pixels per frame, and
    the speed shown is the one of the score before the last frame. *)
Theorem frames_progress (random : nat -> Q) (s : State) (n : nat) :
  isPlaying (gameState s) = true -> 0 <= score (gameState s) ->
  let s' := run random (replicate n Frame) s in
  score (gameState s') = score (gameState s) + Z.of_nat n
  /\ isPlaying (gameState s') = true
  /\ coins (gameState s') = coins (gameState s)
  /\ (worldOffset s + 4 * inject_Z (Z.of_nat n) <= worldOffset s')%Q
  /\ (worldOffset s' <= worldOffset s + 16 * inject_Z (Z.of_nat n))%Q
  /\ (forall m : nat,
        n = S m ->
        currentSpeed s'
        = getGameSpeed (inject_Z (score (gameState s) + Z.of_nat m))).
Proof.
  intros Hp Hs s'. subst s'.
  destruct (frames_effect random s n Hp) as (_ & H2 & H3 & H4).
  split; [exact H2|]. split; [exact H3|]. split; [exact H4|].
  assert ((worldOffset s + 4 * inject_Z (Z.of_nat n)
           <= worldOffset (run random (replicate n Frame) s))%Q
          /\ (worldOffset (run random (replicate n Frame) s)
              <= worldOffset s + 16 * inject_Z (Z.of_nat n))%Q) as Hoff.
  { clear H2 H3 H4. induction n as [|n [IHl IHu]].
    - change (run random (replicate 0 Frame) s) with s.
      change (inject_Z (Z.of_nat 0)) with 0%Q. split; Lqa.lra.
    - rewrite replicate_S_end, run_app.
      change (run random [Frame] ?x) with (gameLoop random x x).
      destruct (frames_effect random s n Hp) as (_ & K2 & K3 & _).
      destruct (gameLoop_frame random _ K3) as (_ & _ & _ & _ & _ & H6).
      rewrite H6, inject_Z_of_nat_S.
      assert (0 <= inject_Z (score (gameState
                                      (run random (replicate n Frame) s))))%Q
        as Hnn.
      { rewrite K2. change 0%Q with (inject_Z 0). rewrite <- Zle_Qle. lia. }
      pose proof (getGameSpeed_bounds _ Hnn) as [Hlo Hhi].
      split; Lqa.lra. }
  split; [apply Hoff|]. split; [apply Hoff|].
  intros m ->. rewrite replicate_S_end, run_app.
  change (run random [Frame] ?x) with (gameLoop random x x).
  destruct (frames_effect random s m Hp) as (_ & K2 & K3 & _).
  destruct (gameLoop_frame random _ K3) as (_ & _ & _ & _ & H5 & _).
  now rewrite H5, K2.
Qed.

Lemma frames_progress_witness :
  let start := initialState ∅ in
  let s := startGame 0 start start in
  score (gameState (run (fun _ => 0%Q) (replicate 90 Frame) s)) = 90
  /\ isPlaying (gameState (run (fun _ => 0%Q) (replicate 90 Frame) s)) = true.
Proof.
  intros start s.
  destruct (frames_progress (fun _ => 0%Q) s 90 eq_refl) as (H1 & H2 & _).
  - vm_compute. discriminate.
  - split; [exact H1 | exact H2].
Defined.

(** ** The arc of a jump *)

Lemma jumpHeight_S (k : nat) :
  (jumpHeight (S k)
   == jumpHeight k + 11 - (inject_Z (Z.of_nat k) + 1) * (1 # 2))%Q.
Proof. unfold jumpHeight. rewrite inject_Z_of_nat_S. field. Qed.

Lemma jumpHeight_range (k : nat) :
  (1 <= k <= 42)%nat -> (0 < jumpHeight k /\ jumpHeight k <= 115.5)%Q.
Proof.
  intros Hk.
  assert (forallb (fun k => Qlt_bool 0 (jumpHeight k)
                            && Qle_bool (jumpHeight k) 115.5)
            (seq 1 42) = true) as Hall by (vm_compute; reflexivity).
  rewrite forallb_forall in Hall.
  specialize (Hall k). rewrite in_seq in Hall.
  assert (Qlt_bool 0 (jumpHeight k) && Qle_bool (jumpHeight k) 115.5 = true)
    as Hb by (apply Hall; lia).
  apply andb_prop in Hb as [H1 H2].
  split; [now apply Qlt_bool_iff | now apply Qle_bool_iff].
Qed.

(** A player in the air, [k] frames after leaving the ground line with the
    jump force. *)
Lemma flight (p0 : Player) (k : nat) :
  (vel_y (velocity p0) == GAME_CONFIG.JUMP_FORCE)%Q ->
  (pos_y (position p0) == GAME_CONFIG.GROUND_Y - height p0)%Q ->
  (k <= 42)%nat ->
  (pos_y (position (Nat.iter k integratePlayer p0))
   == GAME_CONFIG.GROUND_Y - height p0 - jumpHeight k)%Q
  /\ (vel_y (velocity (Nat.iter k integratePlayer p0))
      == GAME_CONFIG.JUMP_FORCE + inject_Z (Z.of_nat k) * (1 # 2))%Q
  /\ height (Nat.iter k integratePlayer p0) = height p0
  /\ jumpCount (Nat.iter k integratePlayer p0) = jumpCount p0
  /\ maxJumps (Nat.iter k integratePlayer p0) = maxJumps p0
  /\ pos_x (position (Nat.iter k integratePlayer p0)) = pos_x (position p0)
  /\ ((1 <= k)%nat -> isGrounded (Nat.iter k integratePlayer p0) = false).
Proof.
  intros Hv Hy. induction k as [|k IH]; intros Hk.
  - cbn [Nat.iter nat_rect].
    assert (jumpHeight 0 == 0)%Q as -> by reflexivity.
    change (inject_Z (Z.of_nat 0)) with 0%Q.
    split; [Lqa.lra|]. split; [Lqa.lra|]. repeat split. lia.
  - destruct IH as (Iy & Iv & Ih & Ij & Im & Ix & _); [lia|].
    rewrite Nat.iter_succ.
    set (p := Nat.iter k integratePlayer p0) in *. clearbody p.
    destruct (jumpHeight_range (S k)) as [Hpos _]; [lia|].
    pose proof (jumpHeight_S k) as HS.
    unfold integratePlayer.
    destruct (Qle_bool _ _) eqn:Hle.
    + exfalso. apply Qle_bool_iff in Hle. rewrite Ih in Hle.
      unfold GAME_CONFIG.GRAVITY, GAME_CONFIG.JUMP_FORCE,
        GAME_CONFIG.GROUND_Y in *.
      Lqa.lra.
    + cbn. rewrite inject_Z_of_nat_S.
      unfold GAME_CONFIG.GRAVITY, GAME_CONFIG.JUMP_FORCE,
        GAME_CONFIG.GROUND_Y in *.
      repeat split; try assumption; Lqa.lra.
Qed.

Lemma landing (p0 : Player) :
  (vel_y (velocity p0) == GAME_CONFIG.JUMP_FORCE)%Q ->
  (pos_y (position p0) == GAME_CONFIG.GROUND_Y - height p0)%Q ->
  isGrounded (Nat.iter 43 integratePlayer p0) = true
  /\ jumpCount (Nat.iter 43 integratePlayer p0) = 0
  /\ isJumping (Nat.iter 43 integratePlayer p0) = false
  /\ pos_y (position (Nat.iter 43 integratePlayer p0))
     = (GAME_CONFIG.GROUND_Y - height p0)%Q
  /\ vel_y (velocity (Nat.iter 43 integratePlayer p0)) = 0%Q.
Proof.
  intros Hv Hy.
  destruct (flight p0 42 Hv Hy) as (Iy & Iv & Ih & _); [lia|].
  rewrite (Nat.iter_succ 42).
  set (p := Nat.iter 42 integratePlayer p0) in *. clearbody p.
  assert (jumpHeight 42 == 21 # 2)%Q as H42 by reflexivity.
  unfold integratePlayer.
  destruct (Qle_bool _ _) eqn:Hle.
  - cbn. rewrite Ih. repeat split.
  - exfalso.
    assert (~ (GAME_CONFIG.GROUND_Y - height p
               <= pos_y (position p)
                  + (vel_y (velocity p) + GAME_CONFIG.GRAVITY))%Q) as Hn.
    { intros Hc. apply Qle_bool_iff in Hc. congruence. }
    apply Hn. rewrite Ih.
    change (inject_Z (Z.of_nat 42)) with 42%Q in Iv.
    unfold GAME_CONFIG.GRAVITY, GAME_CONFIG.JUMP_FORCE,
      GAME_CONFIG.GROUND_Y in *.
    Lqa.lra.
Qed.

(** X16: a jump from the ground line of a running game.  The player is in
    the air for the 42 following frames, [jumpHeight k] above the ground
    line after [k] of them, which never exceeds 115.5 pixels and reaches
    that at the frames 21 and 22; no other jump is accepted meanwhile; the
    43rd frame puts the player back on the ground line, at rest and able
    to jump again. *)
Theorem jump_arc (random : nat -> Q) (s : State) :
  isPlaying (gameState s) = true ->
  isGrounded (player s) = true -> jumpCount (player s) = 0 ->
  (pos_y (position (player s))
   == GAME_CONFIG.GROUND_Y - height (player s))%Q ->
  let after (k : nat) := run random (Jump :: replicate k Frame) s in
  (forall k : nat,
      (1 <= k <= 42)%nat ->
      isGrounded (player (after k)) = false
      /\ jumpCount (player (after k)) = 1
      /\ (pos_y (position (player (after k)))
          == GAME_CONFIG.GROUND_Y - height (player s) - jumpHeight k)%Q
      /\ (0 < jumpHeight k <= 115.5)%Q
      /\ player (jump random (after k) (after k)) = player (after k))
  /\ (jumpHeight 21 == 115.5 /\ jumpHeight 22 == 115.5)%Q
  /\ (isGrounded (player (after 43%nat)) = true
      /\ jumpCount (player (after 43%nat)) = 0
      /\ pos_y (position (player (after 43%nat)))
         = (GAME_CONFIG.GROUND_Y - height (player s))%Q
      /\ vel_y (velocity (player (after 43%nat))) = 0%Q).
Proof.
  intros Hp Hg Hj Hy after.
  destruct (jump_grounded random s s Hg Hj)
    as (_ & J2 & J3 & _ & J5 & _ & _ & J8 & _).
  set (s1 := jump random s s) in *.
  assert (isPlaying (gameState s1) = true) as Hp1.
  { subst s1. unfold jump. rewrite Hg, Hj. cbn [andb Z.eqb].
    rewrite withRandom_eq. exact Hp. }
  assert (vel_y (velocity (player s1)) == GAME_CONFIG.JUMP_FORCE)%Q as Hv1
    by (rewrite J3; reflexivity).
  assert (pos_y (position (player s1))
          == GAME_CONFIG.GROUND_Y - height (player s1))%Q as Hy1
    by (rewrite J5, J8; exact Hy).
  assert (forall k, player (after k)
                    = Nat.iter k integratePlayer (player s1)) as Hafter.
  { intros k. subst after. cbv beta.
    change (run random (Jump :: replicate k Frame) s)
      with (run random (replicate k Frame) s1).
    now destruct (frames_effect random s1 k Hp1) as (-> & _). }
  split; [|split].
  - intros k Hk.
    destruct (flight (player s1) k Hv1 Hy1) as (Fy & _ & _ & Fj & _ & _ & Fg);
      [lia|].
    assert (isGrounded (player (after k)) = false) as Hair
      by (rewrite Hafter; apply Fg; lia).
    split; [exact Hair|]. split; [rewrite Hafter, Fj; exact J2|].
    split; [rewrite Hafter, Fy, J8; reflexivity|].
    split; [now apply jumpHeight_range|].
    rewrite jump_refused; [reflexivity | now left].
  - split; reflexivity.
  - rewrite Hafter.
    destruct (landing (player s1) Hv1 Hy1) as (L1 & L2 & _ & L4 & L5).
    rewrite L1, L2, L4, L5, J8. repeat split.
Qed.

Lemma jump_arc_witness :
  let start := initialState ∅ in
  let s := startGame 0 start start in
  isGrounded (player (run (fun _ => 0%Q) (Jump :: replicate 43 Frame) s))
  = true
  /\ jumpCount (player (run (fun _ => 0%Q) (Jump :: replicate 43 Frame) s))
     = 0.
Proof.
  intros start s.
  destruct (jump_arc (fun _ => 0%Q) s eq_refl eq_refl eq_refl)
    as (_ & _ & H1 & H2 & _).
  - reflexivity.
  - split; [exact H1 | exact H2].
Defined.

(** ** Where the spawner puts things on the screen *)

Lemma startGame_view (now : Z) (c s : State) :
  spawnerView (startGame now c s)
  = ([], 0%Q, (GAME_CONFIG.CANVAS_WIDTH + 100)%Q).
Proof.
  unfold startGame.
  set (s0 := setIsInvulnerable false _).
  destruct (autoActivate_step "double_collector" now c s0)
    as (_ & _ & _ & _ & _ & _ & _ & _ & _ & _ & _ & W1 & _).
  destruct (autoActivate_step "magnetic_collector" now c
              (autoActivate "double_collector" now c s0))
    as (_ & _ & _ & _ & _ & _ & _ & _ & _ & _ & _ & W2 & _).
  destruct (autoActivate_step "three_lives" now c
              (autoActivate "magnetic_collector" now c
                 (autoActivate "double_collector" now c s0)))
    as (_ & _ & _ & _ & _ & _ & _ & _ & _ & _ & _ & W3 & _).
  rewrite W3, W2, W1. reflexivity.
Qed.

Lemma getGameSpeed_max (score : Q) :
  (getGameSpeed score <= GAME_CONFIG.MAX_SCROLL_SPEED)%Q.
Proof. unfold getGameSpeed. apply Q.le_min_r. Qed.

Lemma handle_cursorAhead (random : nat -> Q) (e : Event) (s : State) :
  cursorAhead s -> cursorAhead (handle random e s).
Proof.
  intros H.
  assert (e <> Frame -> cursorAhead (handle random e s)) as Hother.
  { intros He. pose proof (handle_view random e s He) as Hv.
    unfold spawnerView in Hv. injection Hv as _ Hw Hn.
    unfold cursorAhead. now rewrite Hw, Hn. }
  destruct e; try (apply Hother; discriminate). clear Hother.
  destruct (isPlaying (gameState s)) eqn:Hp.
  2:{ simpl. unfold gameLoop. now rewrite Hp. }
  destruct (frame_obstacles random s Hp) as [_ Hw].
  pose proof (getGameSpeed_max (inject_Z (score (gameState s)))) as Hmax.
  unfold cursorAhead in *. rewrite Hw.
  unfold GAME_CONFIG.MAX_SCROLL_SPEED, GAME_CONFIG.CANVAS_WIDTH in *.
  assert (nextObstacleX (handle random Frame s)
          = if spawnDue s then (nextObstacleX s + 60 + 200)%Q
            else nextObstacleX s) as Hn.
  { simpl. unfold gameLoop. rewrite Hp. cbn [negb].
    destruct (scrollEntities_effect s
                (spawnObstacle random s (advanceWorld s s))) as (_ & -> & _).
    destruct (spawnDue s) eqn:Hd.
    - destruct (spawnObstacle_due random s (advanceWorld s s) Hd)
        as (o & b & _ & _ & -> & _). reflexivity.
    - now rewrite (spawnObstacle_idle random s _ Hd). }
  rewrite Hn. destruct (spawnDue s) eqn:Hd; [Lqa.lra|].
  unfold spawnDue in Hd.
  assert (~ (nextObstacleX s <= worldOffset s + 800)%Q) as Hnot.
  { intros Hc. apply Qle_bool_iff in Hc.
    unfold GAME_CONFIG.CANVAS_WIDTH in Hd. congruence. }
  apply Qnot_le_lt in Hnot. Lqa.lra.
Qed.

Lemma run_cursorAhead (random : nat -> Q) (events : list Event) (s : State) :
  cursorAhead s -> cursorAhead (run random events s).
Proof.
  revert s. induction events as [|e events IH]; intros s H; [exact H|].
  change (run random (e :: events) s)
    with (run random events (handle random e s)).
  apply IH, handle_cursorAhead, H.
Qed.

Lemma spawn_fields (random : nat -> Q) (e : Event) (s : State)
    (o : Obstacle) (b : Collectible) :
  obstaclesSpawned random e s = [o] ->
  collectiblesSpawned random e s = [b] ->
  spawnDue s = true
  /\ position o = {| pos_x := nextObstacleX s - worldOffset s;
                     pos_y := GAME_CONFIG.GROUND_Y - 60 |}
  /\ width o = 60%Q /\ height o = 60%Q /\ active o = true
  /\ (exists i : nat,
        (i < 8)%nat
        /\ position b
           = {| pos_x :=
                  bone_x (nth i (bonePositionOptions (nextObstacleX s) 60)
                            {| bone_x := 0; bone_y := 0;
                               difficulty := easy |})
                  - worldOffset s;
                pos_y :=
                  bone_y (nth i (bonePositionOptions (nextObstacleX s) 60)
                            {| bone_x := 0; bone_y := 0;
                               difficulty := easy |}) |})
  /\ width b = 65%Q /\ height b = 65%Q /\ active b = true
  /\ collected b = false /\ value b = GAME_CONFIG.COIN_VALUE.
Proof.
  destruct e; try discriminate. simpl.
  destruct (isPlaying (gameState s)); [|discriminate].
  unfold spawnObstacle. fold (spawnDue s).
  destruct (spawnDue s); [|rewrite !drop_all; discriminate].
  rewrite !withRandom_eq.
  cbn [obstacles collectibles setNextObstacleX setCollectibles setObstacles
       setRandomCalls fst snd advanceWorld setPlayer setWorldOffset
       setCurrentSpeed].
  rewrite !drop_app_length. intros Ho Hb.
  injection Ho as <-. injection Hb as <-.
  split; [reflexivity|]. cbn.
  repeat split.
  eexists. split; [apply selectIndex_bound | reflexivity].
Qed.

Lemma bonePositionOptions_range (next : Q) (i : nat) :
  (i < 8)%nat ->
  let option := nth i (bonePositionOptions next 60)
                  {| bone_x := 0; bone_y := 0; difficulty := easy |} in
  (next + 60 + 60 <= bone_x option /\ bone_x option <= next + 60 + 140
   /\ GAME_CONFIG.GROUND_Y - 105 <= bone_y option
   /\ bone_y option <= GAME_CONFIG.GROUND_Y - 60)%Q.
Proof.
  intros Hi. unfold bonePositionOptions, GAME_CONFIG.GROUND_Y.
  do 8 (destruct i as [|i];
        [cbn [nth bone_x bone_y]; repeat split; Lqa.lra|]).
  lia.
Qed.

(** X17: along every session of a game, the spawn cursor stays ahead of
    the point 16 pixels inside the right edge of the view.  An obstacle is
    therefore created within the last 16 pixels of the canvas or on its
    right edge, standing on the ground line and 60 pixels wide and high;
    the bone created with it is 65 pixels wide and high, its left side 60
    to 140 pixels past the right side of the obstacle and its top 60 to 105
    pixels above the ground line. *)
Theorem spawn_geometry (random : nat -> Q) (events : list Event) (now : Z)
    (c : State) (e : Event) (o : Obstacle) (b : Collectible) :
  let s := run random events (startGame now c c) in
  obstaclesSpawned random e s = [o] ->
  collectiblesSpawned random e s = [b] ->
  cursorAhead s
  /\ (GAME_CONFIG.CANVAS_WIDTH - 16 < pos_x (position o)
      /\ pos_x (position o) <= GAME_CONFIG.CANVAS_WIDTH
      /\ pos_y (position o) + height o == GAME_CONFIG.GROUND_Y
      /\ width o == 60 /\ height o == 60
      /\ pos_x (position o) + width o + 60 <= pos_x (position b)
      /\ pos_x (position b) <= pos_x (position o) + width o + 140
      /\ GAME_CONFIG.GROUND_Y - 105 <= pos_y (position b)
      /\ pos_y (position b) <= GAME_CONFIG.GROUND_Y - 60
      /\ width b == 65 /\ height b == 65)%Q
  /\ active o = true /\ active b = true /\ collected b = false
  /\ value b = GAME_CONFIG.COIN_VALUE.
Proof.
  intros s Ho Hb.
  assert (cursorAhead s) as Hahead.
  { subst s. apply run_cursorAhead. unfold cursorAhead.
    pose proof (startGame_view now c c) as Hv. unfold spawnerView in Hv.
    injection Hv as _ Hw Hn. rewrite Hw, Hn.
    unfold GAME_CONFIG.CANVAS_WIDTH. Lqa.lra. }
  split; [exact Hahead|].
  destruct (spawn_fields random e s o b Ho Hb)
    as (Hd & Hpo & Hwo & Hho & Hao & (i & Hi & Hpb) & Hwb & Hhb & Hab & Hcb
        & Hvb).
  pose proof (bonePositionOptions_range (nextObstacleX s) i Hi)
    as (B1 & B2 & B3 & B4).
  unfold spawnDue in Hd. apply Qle_bool_iff in Hd.
  unfold cursorAhead in Hahead.
  rewrite Hpo, Hpb, Hwo, Hho, Hwb, Hhb. cbn [pos_x pos_y].
  unfold GAME_CONFIG.CANVAS_WIDTH, GAME_CONFIG.GROUND_Y in *.
  repeat split; try assumption; try reflexivity; Lqa.lra.
Qed.

Lemma spawn_geometry_witness :
  let start := initialState ∅ in
  let s := run (fun _ => 0%Q) (replicate 25 Frame) (startGame 0 start start) in
  let o := hd {| obstacleObject := initialPlayer; obstacleType := rock;
                 rotation := 0; rotationSpeed := 0 |}
             (obstaclesSpawned (fun _ => 0%Q) Frame s) in
  let b := hd (boneAt 0 0) (collectiblesSpawned (fun _ => 0%Q) Frame s) in
  (GAME_CONFIG.CANVAS_WIDTH - 16 < pos_x (position o))%Q
  /\ (pos_x (position o) <= GAME_CONFIG.CANVAS_WIDTH)%Q
  /\ (pos_x (position o) + width o + 60 <= pos_x (position b))%Q.
Proof.
  intros start s o b.
  destruct (spawn_geometry (fun _ => 0%Q) (replicate 25 Frame) 0 start Frame
              o b)
    as (_ & (H1 & H2 & _ & _ & _ & H6 & _) & _).
  - vm_compute. reflexivity.
  - vm_compute. reflexivity.
  - split; [exact H1|]. split; [exact H2 | exact H6].
Defined.

(** ** The heads-up display *)

Lemma Math_ceil_div_spec (a d : Z) :
  0 < d -> a <= Math_ceil_div a d * d < a + d.
Proof.
  intros Hd. unfold Math_ceil_div.
  pose proof (Z_div_mod_eq_full (- a) d) as E.
  pose proof (Z.mod_pos_bound (- a) d Hd) as B. nia.
Qed.

(** X19: the seconds that the display shows for a power are never
    negative, are positive exactly when the hook counts the power as
    active, and then round the time left up to the second. *)
Theorem getPowerTimeRemaining_spec (powerId : string) (now : Z)
    (active : gmap string Z) :
  0 <= getPowerTimeRemaining powerId now active
  /\ (0 < getPowerTimeRemaining powerId now active
      <-> isPowerActive powerId now active = true)
  /\ (forall expiry : Z,
        active !! powerId = Some expiry -> now < expiry -> expiry <> 0 ->
        expiry - now <= getPowerTimeRemaining powerId now active * 1000
        /\ getPowerTimeRemaining powerId now active * 1000
           < expiry - now + 1000)
  /\ (active !! powerId = None ->
      getPowerTimeRemaining powerId now active = 0).
Proof.
  unfold getPowerTimeRemaining, isPowerActive.
  destruct (active !! powerId) as [expiry|].
  2:{ split; [lia|]. split; [split; [lia | discriminate]|].
      split; [intros e He; discriminate He | reflexivity]. }
  pose proof (Math_ceil_div_spec (expiry - now) 1000 eq_refl) as Hc.
  destruct (Z.eqb_spec expiry 0) as [-> | Hne]; cbn [negb andb].
  - split; [lia|]. split; [split; [lia | discriminate]|].
    split; [|discriminate].
    intros e He Hlt Hne. injection He as <-. congruence.
  - split; [lia|]. split; [rewrite Z.ltb_lt; lia|].
    split; [|discriminate].
    intros e He Hlt _. injection He as <-. lia.
Qed.

(** ** The size of the canvas *)

(** X21: for a base size with positive sides and any window, the canvas
    fits in the window less 16 pixels on each side, one of its sides being
    as large as that allows; its sides are those of the base size times the
    scale, rounded down, so that the proportions of the base size are
    kept. *)
Theorem calculateCanvasSize_fits (baseWidth baseHeight : Q)
    (screenWidth screenHeight : Q) :
  (0 < baseWidth)%Q -> (0 < baseHeight)%Q ->
  let size := calculateCanvasSize baseWidth baseHeight
                screenWidth screenHeight in
  (inject_Z (canvasWidth size) <= screenWidth - 32
   /\ inject_Z (canvasHeight size) <= screenHeight - 32)%Q
  /\ (canvasWidth size = Qfloor (screenWidth - 32)
      \/ canvasHeight size = Qfloor (screenHeight - 32))
  /\ canvasWidth size = Qfloor (scale size * baseWidth)
  /\ canvasHeight size = Qfloor (scale size * baseHeight)
  /\ (scale size * baseWidth <= screenWidth - 32
      /\ scale size * baseHeight <= screenHeight - 32)%Q.
Proof.
  intros Hw Hh size. subst size. unfold calculateCanvasSize.
  set (aw := (screenWidth - 16 * 2)%Q).
  set (ah := (screenHeight - 16 * 2)%Q).
  set (ar := (baseWidth / baseHeight)%Q).
  assert (aw == screenWidth - 32)%Q as Eaw by (unfold aw; ring).
  assert (ah == screenHeight - 32)%Q as Eah by (unfold ah; ring).
  assert (~ baseWidth == 0)%Q as Nw by (intros E; rewrite E in Hw; Lqa.lra).
  assert (~ baseHeight == 0)%Q as Nh by (intros E; rewrite E in Hh; Lqa.lra).
  assert (0 < ar)%Q as Har.
  { unfold ar, Qdiv. apply Qmult_lt_0_compat; [exact Hw|].
    now apply Qinv_lt_0_compat. }
  assert (~ ar == 0)%Q as Nar by (intros E; rewrite E in Har; Lqa.lra).
  destruct (Qle_bool (aw / ar) ah) eqn:Hle; cbn [canvasWidth canvasHeight scale].
  - apply Qle_bool_iff in Hle.
    assert (aw / baseWidth * baseWidth == aw)%Q as E1 by (field; exact Nw).
    assert (aw / baseWidth * baseHeight == aw / ar)%Q as E2
      by (unfold ar; field; split; assumption).
    split; [split|].
    + rewrite <- Eaw. apply Qfloor_le.
    + rewrite <- Eah. eapply Qle_trans; [apply Qfloor_le | exact Hle].
    + split; [left; now rewrite Eaw|].
      split; [now rewrite E1|]. split; [now rewrite E2|].
      rewrite E1, E2, <- Eaw, <- Eah. split; [Lqa.lra | exact Hle].
  - assert (ah < aw / ar)%Q as Hlt.
    { apply Qnot_le_lt. intros Hc. apply Qle_bool_iff in Hc. congruence. }
    assert (ah * ar < aw)%Q as Hfw.
    { assert (aw / ar * ar == aw)%Q as E by (field; exact Nar).
      rewrite <- E. apply Qmult_lt_compat_r; assumption. }
    assert (ah * ar / baseWidth * baseWidth == ah * ar)%Q as E1
      by (field; exact Nw).
    assert (ah * ar / baseWidth * baseHeight == ah)%Q as E2
      by (unfold ar; field; split; assumption).
    split; [split|].
    + rewrite <- Eaw. eapply Qle_trans; [apply Qfloor_le | Lqa.lra].
    + rewrite <- Eah. apply Qfloor_le.
    + split; [right; now rewrite Eah|].
      split; [now rewrite E1|]. split; [now rewrite E2|].
      rewrite E1, E2, <- Eaw, <- Eah. split; Lqa.lra.
Qed.

Lemma calculateCanvasSize_fits_witness :
  let size := calculateCanvasSize 800 600 1024 768 in
  canvasWidth size = 981 /\ canvasHeight size = 736
  /\ (inject_Z (canvasWidth size) <= 1024 - 32)%Q.
Proof.
  intros size.
  destruct (calculateCanvasSize_fits 800 600 1024 768) as ((H1 & _) & _).
  - reflexivity.
  - reflexivity.
  - split; [reflexivity|]. split; [reflexivity | exact H1].
Defined.

(** ** The player along a session *)

(** An operation that leaves the player alone and does not start a game. *)
Lemma playerOk_same (s s' : State) :
  player s' = player s ->
  (isPlaying (gameState s') = true -> isPlaying (gameState s) = true) ->
  playerOk s -> playerOk s'.
Proof.
  intros Hpl Hp (H1 & H2 & H3 & H4). unfold playerOk. rewrite Hpl.
  split; [exact H1|]. split; [exact H2|]. split; [exact H3|].
  intros Hp'. apply H4, Hp, Hp'.
Qed.

Lemma integratePlayer_ok (p : Player) :
  height (integratePlayer p) = height p
  /\ width (integratePlayer p) = width p
  /\ pos_x (position (integratePlayer p)) = pos_x (position p)
  /\ (pos_y (position (integratePlayer p))
      <= GAME_CONFIG.GROUND_Y - height p)%Q
  /\ (isGrounded (integratePlayer p) = true ->
      jumpCount (integratePlayer p) = 0
      /\ pos_y (position (integratePlayer p))
         = (GAME_CONFIG.GROUND_Y - height p)%Q)
  /\ (isGrounded (integratePlayer p) = false ->
      jumpCount (integratePlayer p) = jumpCount p).
Proof.
  unfold integratePlayer.
  destruct (Qle_bool _ _) eqn:Hle; cbn.
  - repeat split; try discriminate. Lqa.lra.
  - assert (~ (GAME_CONFIG.GROUND_Y - height p
               <= pos_y (position p)
                  + (vel_y (velocity p) + GAME_CONFIG.GRAVITY))%Q) as Hn.
    { intros Hc. apply Qle_bool_iff in Hc. congruence. }
    apply Qnot_le_lt in Hn.
    repeat split; try discriminate. Lqa.lra.
Qed.

Lemma gameLoop_playerOk (random : nat -> Q) (s : State) :
  playerOk s -> playerOk (gameLoop random s s).
Proof.
  intros H. destruct (isPlaying (gameState s)) eqn:Hp.
  2:{ unfold gameLoop. now rewrite Hp. }
  destruct (gameLoop_frame random s Hp) as (Hpl & _ & Hp' & _).
  destruct H as (H1 & H2 & H3 & H4). specialize (H4 Hp).
  destruct H4 as (_ & Hj & _).
  destruct (integratePlayer_ok (player s)) as (I1 & I2 & I3 & I4 & I5 & I6).
  unfold playerOk. rewrite Hpl, I1, I2, I3.
  split; [exact H1|]. split; [exact H2|]. split; [exact H3|].
  intros _. split; [exact I4|]. split.
  - destruct (isGrounded (integratePlayer (player s))) eqn:Hg.
    + left. now apply I5.
    + rewrite (I6 eq_refl). exact Hj.
  - intros Hg. destruct (I5 Hg) as [K1 K2]. split; [exact K1|].
    rewrite K2. reflexivity.
Qed.

Lemma jump_playerOk (random : nat -> Q) (s : State) :
  playerOk s -> playerOk (jump random s s).
Proof.
  intros H.
  destruct (isGrounded (player s) && (jumpCount (player s) =? 0)) eqn:Hc.
  2:{ unfold jump. now rewrite Hc. }
  apply andb_prop in Hc as [Hg Hj]. apply Z.eqb_eq in Hj.
  destruct (jump_grounded random s s Hg Hj)
    as (J1 & J2 & _ & _ & J5 & _ & J7 & J8 & _).
  assert (gameState (jump random s s) = gameState s) as HG.
  { unfold jump. rewrite Hg, Hj. cbn [andb Z.eqb].
    now rewrite withRandom_eq. }
  destruct H as (H1 & H2 & H3 & H4).
  unfold playerOk. rewrite HG, J5, J7, J8, J1, J2.
  split; [exact H1|]. split; [exact H2|]. split; [exact H3|].
  intros Hp. destruct (H4 Hp) as (K1 & _ & _).
  split; [exact K1|]. split; [now right | discriminate].
Qed.

Lemma startGame_playerOk (now : Z) (c s : State) :
  playerOk s -> playerOk (startGame now c s).
Proof.
  intros (H1 & H2 & H3 & _). unfold startGame.
  set (s0 := setIsInvulnerable false _).
  destruct (autoActivate_step "double_collector" now c s0)
    as (_ & _ & _ & _ & _ & _ & _ & _ & _ & Y1 & _).
  destruct (autoActivate_step "magnetic_collector" now c
              (autoActivate "double_collector" now c s0))
    as (_ & _ & _ & _ & _ & _ & _ & _ & _ & Y2 & _).
  destruct (autoActivate_step "three_lives" now c
              (autoActivate "magnetic_collector" now c
                 (autoActivate "double_collector" now c s0)))
    as (_ & _ & _ & _ & _ & _ & _ & _ & _ & Y3 & _).
  unfold playerOk. rewrite Y3, Y2, Y1.
  subst s0.
  cbn [player setIsInvulnerable setMaxLives setLives closeShop setShopState
       setCurrentSpeed setNextObstacleX setWorldOffset setParticles
       setCollectibles setObstacles setPlayer setGameState playerObject
       withVelocity withPosition height width position pos_x pos_y
       isGrounded jumpCount].
  split; [exact H1|]. split; [exact H2|]. split; [reflexivity|].
  intros _. rewrite H1. unfold GAME_CONFIG.GROUND_Y.
  split; [Lqa.lra|]. split; [now left|]. intros _. split; reflexivity.
Qed.

Lemma collectCoin_player (random : nat -> Q) (now : Z) (c : State) (i : nat)
    (coin : Collectible) (s : State) :
  player (collectCoin random now c i coin s) = player s.
Proof.
  unfold collectCoin. destruct (collected coin || negb (active coin));
    [|rewrite withRandom_eq]; reflexivity.
Qed.

Lemma loseLife_player (random : nat -> Q) (now : Z) (c s : State) :
  player (loseLife random now c s) = player s
  /\ (isPlaying (gameState (loseLife random now c s)) = true ->
      isPlaying (gameState s) = true).
Proof.
  unfold loseLife. destruct (isInvulnerable c); [now split|].
  destruct (1 <? lives c); [rewrite withRandom_eq; now split|].
  destruct (gameOver_fields random c s)
    as (_ & _ & _ & _ & _ & _ & HG & _ & _ & _ & HP & _).
  rewrite HG, HP. split; [reflexivity | discriminate].
Qed.

Lemma collisionEffect_player (random : nat -> Q) (now : Z) (c : State) :
  player (collisionEffect random now c) = player c
  /\ (isPlaying (gameState (collisionEffect random now c)) = true ->
      isPlaying (gameState c) = true).
Proof.
  unfold collisionEffect. destruct (negb (isPlaying (gameState c)));
    [now split|].
  assert (forall obs s,
             player (foldl (hitObstacle random now c) s obs) = player s
             /\ (isPlaying (gameState (foldl (hitObstacle random now c) s obs))
                 = true -> isPlaying (gameState s) = true)) as Hhits.
  { induction obs as [|o obs IH]; intros s; simpl; [now split|].
    destruct (IH (hitObstacle random now c s o)) as [-> Hp].
    unfold hitObstacle in *.
    destruct (checkCollision (player c) o); [|now split].
    destruct (loseLife_player random now c s) as [-> Hp'].
    split; [reflexivity|]. intros K. apply Hp', Hp, K. }
  assert (forall entries s,
             player (foldl (touchCoin random now c) s entries) = player s)
    as Htouch.
  { induction entries as [|[j cn] entries IH]; intros s; cbn [foldl];
      [reflexivity|].
    rewrite IH, touchCoin_collects.
    destruct (collectsCoin now c cn); [apply collectCoin_player|reflexivity]. }
  rewrite Htouch.
  destruct (touches_keeps random now c (imap pair (collectibles c))
              (foldl (hitObstacle random now c) c (obstacles c)))
    as (_ & _ & -> & _).
  apply Hhits.
Qed.

Lemma usePower_player (powerId : string) (now : Z) (c s : State) :
  player (usePower powerId now c s) = player s
  /\ gameState (usePower powerId now c s) = gameState s.
Proof.
  unfold usePower.
  destruct (findPower powerId (availablePowers (shopState c))) as [power|];
    [|now split].
  destruct (usesRemaining power) as [uses|]; [|now split].
  destruct (negb (truthy uses) || jsLe uses (Num 0)); [now split|].
  rewrite saveUses_only_store.
  destruct (String.eqb powerId "three_lives"), (duration power) as [d|];
    try destruct (negb (d =? 0)); now split.
Qed.

Lemma buyPower_player (powerId : string) (c s : State) :
  player (buyPower powerId c s) = player s
  /\ gameState (buyPower powerId c s) = gameState s.
Proof.
  unfold buyPower.
  destruct (findPower powerId (availablePowers (shopState c))); [|now split].
  destruct (jsLt _ _); [now split|].
  rewrite saveUses_only_store. now split.
Qed.

Lemma handle_playerOk (random : nat -> Q) (e : Event) (s : State) :
  playerOk s -> playerOk (handle random e s).
Proof.
  intros H. destruct e as [| |now|now|now]; simpl.
  - now apply gameLoop_playerOk.
  - now apply jump_playerOk.
  - destruct (collisionEffect_player random now s) as [Hpl Hp].
    now apply (playerOk_same s).
  - apply (playerOk_same s); [| |exact H]; unfold runTimers;
      destruct (List.filter _ _); trivial.
  - destruct (checkPowerExpiration_fields now s)
      as (_ & _ & _ & _ & _ & _ & HG & _ & _ & HP).
    apply (playerOk_same s); [exact HP | now rewrite HG | exact H].
Qed.

Lemma handleKeyDown_playerOk (random : nat -> Q) (code : string) (now : Z)
    (c : State) :
  playerOk c -> playerOk (handleKeyDown random code now c).
Proof.
  intros H. unfold handleKeyDown.
  set (s1 := if String.eqb code "Space" then _ else _).
  assert (playerOk s1) as H1.
  { subst s1. destruct (String.eqb code "Space"); [|exact H].
    destruct (isPlaying (gameState c)); [now apply jump_playerOk|].
    destruct (negb (isOpen (shopState c)));
      [now apply startGame_playerOk | exact H]. }
  destruct (String.eqb code "KeyS" && negb (isPlaying (gameState c)));
    [|exact H1].
  destruct (isOpen (shopState c)); exact H1.
Qed.

Lemma perform_playerOk (random : nat -> Q) (a : Action) (s : State) :
  playerOk s -> playerOk (perform random a s).
Proof.
  intros H. destruct a; simpl.
  - now apply handle_playerOk.
  - now apply handleKeyDown_playerOk.
  - destruct (buyPower_player powerId s s) as [HP HG].
    apply (playerOk_same s); [exact HP | now rewrite HG | exact H].
  - destruct (usePower_player powerId now s s) as [HP HG].
    apply (playerOk_same s); [exact HP | now rewrite HG | exact H].
  - apply (playerOk_same s); [| |exact H]; unfold exchangeForDogevision;
      destruct (jsGt _ _); trivial.
  - exact H.
  - exact H.
  - now apply startGame_playerOk.
Qed.

(** X15: in every state reached from a freshly loaded one, whatever is
    done, the player is 60 pixels wide and 70 high and stays in the column
    100; while a game runs it is on the ground line or above it, has at
    most one jump counted, and when it is grounded it stands exactly on the
    line with no jump counted. *)
Theorem player_stays_above_ground (random : nat -> Q)
    (store : gmap string string) (actions : list Action) :
  let s := performAll random actions (initialState store) in
  height (player s) = 70%Q /\ width (player s) = 60%Q
  /\ pos_x (position (player s)) = 100%Q
  /\ (isPlaying (gameState s) = true ->
      (pos_y (position (player s)) <= GAME_CONFIG.GROUND_Y - 70)%Q
      /\ (jumpCount (player s) = 0 \/ jumpCount (player s) = 1)
      /\ (isGrounded (player s) = true ->
          jumpCount (player s) = 0
          /\ (pos_y (position (player s)) == GAME_CONFIG.GROUND_Y - 70)%Q)).
Proof.
  intros s.
  assert (playerOk s) as (H1 & H2 & H3 & H4).
  { subst s.
    assert (playerOk (initialState store)) as H0.
    { unfold playerOk. cbn. repeat split; discriminate. }
    revert H0. generalize (initialState store).
    induction actions as [|a actions IH]; intros s H; simpl; [exact H|].
    apply IH, perform_playerOk, H. }
  split; [exact H1|]. split; [exact H2|]. split; [exact H3|].
  rewrite H1 in H4. exact H4.
Qed.

(** ** Particles and colours drawn at random *)

Lemma Qfloor_times_5 (r : Q) :
  (0 <= r)%Q -> (r < 1)%Q -> 0 <= Qfloor (r * 5) < 5.
Proof.
  intros H0 H1. split.
  - change 0 with (Qfloor 0). apply Qfloor_resp_le. Lqa.lra.
  - assert (Qfloor (r * 5) <= Qfloor 5) as Hle
      by (apply Qfloor_resp_le; Lqa.lra).
    change (Qfloor 5) with 5 in Hle.
    destruct (Z.eq_dec (Qfloor (r * 5)) 5) as [E|]; [|lia].
    exfalso. pose proof (Qfloor_le (r * 5)) as Hf. rewrite E in Hf.
    change (inject_Z 5) with 5%Q in Hf. Lqa.lra.
Qed.

Lemma getRandomColor_eq (random : nat -> Q) (k : nat) :
  getRandomColor random k
  = (default "undefined"
       (arrayGet ["#fbbf24"; "#f97316"; "#ef4444"; "#8b5cf6"; "#06b6d4"]
          (Qfloor (random k * 5))), S k).
Proof. reflexivity. Qed.

(** X20: with draws in [0, 1), a particle is created at the given position
    and in the given colour with both components of its velocity in
    [-4, 4), a size in [2, 6) and a life of 30 frames, for three draws; and
    the colour drawn for it is one of the five of the palette, for one
    draw. *)
Theorem createParticle_ranges (random : nat -> Q) (pos : Position)
    (col : string) (k : nat) :
  (forall i : nat, (0 <= random i)%Q /\ (random i < 1)%Q) ->
  let particle := fst (createParticle random pos col k) in
  particlePosition particle = pos /\ color particle = col
  /\ life particle = 30 /\ maxLife particle = 30
  /\ (-4 <= vel_x (particleVelocity particle)
      /\ vel_x (particleVelocity particle) < 4
      /\ -4 <= vel_y (particleVelocity particle)
      /\ vel_y (particleVelocity particle) < 4
      /\ 2 <= size particle /\ size particle < 6)%Q
  /\ snd (createParticle random pos col k) = (k + 3)%nat
  /\ fst (getRandomColor random k)
     ∈ ["#fbbf24"; "#f97316"; "#ef4444"; "#8b5cf6"; "#06b6d4"]
  /\ snd (getRandomColor random k) = (k + 1)%nat.
Proof.
  intros Hr particle. subst particle. rewrite getRandomColor_eq.
  unfold createParticle, Math_random.
  cbn [fst snd particlePosition color life maxLife particleVelocity size
       vel_x vel_y].
  destruct (Hr k) as [A0 A1]. destruct (Hr (S k)) as [B0 B1].
  destruct (Hr (S (S k))) as [C0 C1].
  split; [reflexivity|]. split; [reflexivity|]. split; [reflexivity|].
  split; [reflexivity|]. split; [repeat split; Lqa.lra|].
  split; [lia|]. split; [|lia].
  pose proof (Qfloor_times_5 (random k) A0 A1) as Hf.
  unfold arrayGet.
  replace (Qfloor (random k * 5) <? 0) with false
    by (symmetry; apply Z.ltb_ge; lia).
  assert (Z.to_nat (Qfloor (random k * 5)) < 5)%nat as Hlt by lia.
  apply list_elem_of_In.
  destruct (Z.to_nat (Qfloor (random k * 5))) as [|[|[|[|[|n]]]]];
    [cbn; auto 10 .. | lia].
Qed.

Lemma createParticle_ranges_witness :
  let particle :=
    fst (createParticle (fun _ => 1 # 2) {| pos_x := 0; pos_y := 0 |}
           "#ef4444" 0) in
  (2 <= size particle)%Q /\ (size particle < 6)%Q
  /\ fst (getRandomColor (fun _ => 1 # 2) 0)
     ∈ ["#fbbf24"; "#f97316"; "#ef4444"; "#8b5cf6"; "#06b6d4"].
Proof.
  intros particle.
  destruct (createParticle_ranges (fun _ => 1 # 2)
              {| pos_x := 0; pos_y := 0 |} "#ef4444" 0)
    as (_ & _ & _ & _ & (_ & _ & _ & _ & H5 & H6) & _ & H7 & _).
  - intros i. split; [discriminate | reflexivity].
  - split; [exact H5|]. split; [exact H6 | exact H7].
Defined.

(** ** The effect run at mount *)

Lemma withUses_same (n : JSNumber) (p : PowerUp) :
  usesRemaining p = Some n -> withUses n p = p.
Proof. destruct p. cbn. now intros ->. Qed.

Lemma syncUses_agreeing (s : State) : storeAgrees s -> syncUses s = s.
Proof.
  intros H.
  destruct (storeAgrees_catalogue s H) as (p1 & p2 & p3 & Hl & I1 & I2 & I3).
  apply storeAgrees_iff in H as (_ & _ & _ & _ & H5).
  rewrite Hl in H5. cbn in H5. injection H5 as _ U1 _ U2 _ U3.
  unfold syncUses, mapPowers. rewrite Hl. cbn [List.map].
  rewrite I1, I2, I3. cbn [String.eqb Ascii.eqb Bool.eqb].
  rewrite !withUses_same by assumption.
  rewrite <- Hl. destruct s as [? ? ? ? ? ? [? ?] ? ? ? ? ? ? ? ? ? ? ?].
  reflexivity.
Qed.

(** X22: the effect run at mount, which reads the remaining uses of the
    three powers again from the store, changes nothing: not in the state
    that the hook starts with, and not in any state reached from it,
    whatever is done. *)
Theorem syncUses_idle (random : nat -> Q) (store : gmap string string)
    (actions : list Action) :
  syncUses (initialState store) = initialState store
  /\ syncUses (performAll random actions (initialState store))
     = performAll random actions (initialState store).
Proof.
  split.
  - apply syncUses_agreeing. reflexivity.
  - apply syncUses_agreeing, performAll_store. reflexivity.
Qed.
